(** * Request authorization and request hardening middleware

    A shallow embedding of [src/middleware/rbac.middleware.js] and of the
    security part of [src/middleware/auth.middleware.js], with the
    properties of the specification stated and proved over it.

    Conventions of the embedding.
    - A JavaScript string is a [string]: a sequence of 8-bit code units
      (the Latin-1 range of UTF-16).
    - An object literal or a parsed JSON object is the list of its own
      enumerable properties, in the order of [Object.entries]; the
      names in it are pairwise different.
    - Reading a property of an ordinary object also sees the members
      inherited from [Object.prototype]; [JS.get] makes this explicit.
    - An object whose prototype has been replaced carries that
      prototype with its own properties.
    - A function that can throw returns a [JS.completion].
    - A middleware returns what it did with the request ([Next] or a
      response) together with the log entries it wrote. *)

From Stdlib Require Import ZArith QArith Qcanon Ascii String List Lia.
From stdpp Require Import base strings list gmap pretty.

(** ** JavaScript values and property lookup *)

Module JS.

Inductive exception : Type :=
| TypeError (msg : string).

Inductive completion (A : Type) : Type :=
| Normal (a : A)
| Throw (e : exception).
Arguments Normal {A} a.
Arguments Throw {A} e.

Definition bind {A B} (c : completion A) (k : A → completion B) : completion B :=
  match c with
  | Normal a => k a
  | Throw e => Throw e
  end.

(** The own property names of [Object.prototype]; an ordinary object
    inherits all of them, and each one holds a function except
    [__proto__], which holds [Object.prototype] itself. *)
Definition object_prototype_keys : list string :=
  [ "constructor"; "__defineGetter__"; "__defineSetter__"; "hasOwnProperty";
    "__lookupGetter__"; "__lookupSetter__"; "isPrototypeOf";
    "propertyIsEnumerable"; "toString"; "valueOf"; "__proto__";
    "toLocaleString" ].

(** Result of [o[k]] on an ordinary object. *)
Inductive property (A : Type) : Type :=
| Own (a : A)
| Inherited (name : string)
| Undefined.
Arguments Own {A} a.
Arguments Inherited {A} name.
Arguments Undefined {A}.

Fixpoint own {A} (o : list (string * A)) (k : string) : option A :=
  match o with
  | [] => None
  | (k', a) :: o' => if String.eqb k' k then Some a else own o' k
  end.

Definition get {A} (o : list (string * A)) (k : string) : property A :=
  match own o k with
  | Some a => Own a
  | None =>
      if bool_decide (k ∈ object_prototype_keys) then Inherited k else Undefined
  end.

(** [Array.prototype.includes] on an array of strings. *)
Definition includes (x : string) (l : list string) : bool :=
  existsb (String.eqb x) l.

(** [Array.prototype.some] and [Array.prototype.every] with a callback
    that can throw: the elements are visited in order, the first
    decisive answer stops the loop and an exception leaves it. *)
Fixpoint some {A} (f : A → completion bool) (l : list A) : completion bool :=
  match l with
  | [] => Normal false
  | x :: l' => bind (f x) (λ b, if b then Normal true else some f l')
  end.

Fixpoint every {A} (f : A → completion bool) (l : list A) : completion bool :=
  match l with
  | [] => Normal true
  | x :: l' => bind (f x) (λ b, if b then every f l' else Normal false)
  end.

(** [Array.prototype.join]. *)
Fixpoint join (sep : string) (l : list string) : string :=
  match l with
  | [] => ""
  | [x] => x
  | x :: l' => x +:+ sep +:+ join sep l'
  end.

End JS.

Import JS.

(** ** JSON-like values *)

(** The value space of a request payload.  A number is carried as an
    integer: no function of the middleware computes with the numbers of
    a payload, they are passed through or skipped.  [VObj props] is an
    object with the prototype [Object.prototype], as every object that a
    parser delivers; [VProto proto props] is an object whose prototype
    has been replaced by [proto], which is an object, an array or
    [null]. *)
#[warnings="-register-all"]
Inductive value : Type :=
| VUndefined
| VNull
| VBool (b : bool)
| VNum (z : Z)
| VStr (s : string)
| VArr (items : list value)
| VObj (props : list (string * value))
| VProto (proto : value) (props : list (string * value)).

Definition decimal (z : Z) : string := pretty z.

(** [String(v)]; a number is printed in decimal, as JavaScript prints
    the integers below [10^21], and an object as
    [Object.prototype.toString] prints it. *)
Fixpoint to_string (v : value) : string :=
  match v with
  | VUndefined => "undefined"
  | VNull => "null"
  | VBool true => "true"
  | VBool false => "false"
  | VNum z => decimal z
  | VStr s => s
  | VArr items =>
      join ","
        (map (λ x, match x with
                   | VUndefined | VNull => ""
                   | _ => to_string x
                   end) items)
  | VObj _ | VProto _ _ => "[object Object]"
  end.

(** ** Requests, responses and the log *)

(** The identity that the authenticator attaches: [id] is an
    integer-valued Number. *)
Record Identity := { id : Z; role : string }.

Record Body := {
  error : string;
  message : string;
  retryAfter : option Z
}.

Inductive Outcome : Type :=
| Next
| Respond (status : Z) (body : Body).

Inductive Level : Type := Info | Warn | Error.

Record LogEntry := { level : Level; text : string }.

Definition json (e m : string) : Body :=
  {| error := e; message := m; retryAfter := None |}.

Definition authentication_required : Outcome :=
  Respond 401 (json "Authentication required"
                    "You must be logged in to access this resource").

(** ** rbac.middleware.js: the role registry *)

Module PERMISSIONS.
Module USERS.
Definition CREATE := "users:create".
Definition READ := "users:read".
Definition UPDATE := "users:update".
Definition DELETE := "users:delete".
Definition READ_ALL := "users:read:all".
Definition UPDATE_ANY := "users:update:any".
Definition DELETE_ANY := "users:delete:any".
End USERS.
Module PROFILE.
Definition READ := "profile:read".
Definition UPDATE := "profile:update".
End PROFILE.
Module ADMIN.
Definition PANEL := "admin:panel".
Definition LOGS := "admin:logs".
Definition SYSTEM := "admin:system".
End ADMIN.
End PERMISSIONS.

Record Role := { permissions : list string; description : string }.

Definition Registry := list (string * Role).

Definition ROLES : Registry :=
  [ ("guest",
     {| permissions := [];
        description := "Guest user with no permissions" |});
    ("user",
     {| permissions :=
          [ PERMISSIONS.PROFILE.READ; PERMISSIONS.PROFILE.UPDATE;
            PERMISSIONS.USERS.READ ];
        description := "Regular user with basic permissions" |});
    ("moderator",
     {| permissions :=
          [ PERMISSIONS.PROFILE.READ; PERMISSIONS.PROFILE.UPDATE;
            PERMISSIONS.USERS.READ; PERMISSIONS.USERS.READ_ALL;
            PERMISSIONS.USERS.UPDATE ];
        description := "Moderator with extended user management permissions" |});
    ("admin",
     {| permissions :=
          [ PERMISSIONS.PROFILE.READ; PERMISSIONS.PROFILE.UPDATE;
            PERMISSIONS.USERS.CREATE; PERMISSIONS.USERS.READ;
            PERMISSIONS.USERS.UPDATE; PERMISSIONS.USERS.DELETE;
            PERMISSIONS.USERS.READ_ALL; PERMISSIONS.USERS.UPDATE_ANY;
            PERMISSIONS.USERS.DELETE_ANY; PERMISSIONS.ADMIN.PANEL;
            PERMISSIONS.ADMIN.LOGS; PERMISSIONS.ADMIN.SYSTEM ];
        description := "Administrator with full permissions" |});
    ("superadmin",
     {| permissions := ["*"];
        description := "Super administrator with unrestricted access" |}) ].

(** [hasPermission] over an arbitrary registry object.  [const role =
    R[userRole]] is a property read: a name that is no own key but a
    member of [Object.prototype] yields that member, a function or the
    prototype object, which is truthy and has no [permissions], so that
    [role.permissions.includes] throws. *)
Definition hasPermissionIn (R : Registry) (userRole requiredPermission : string)
  : completion bool :=
  match get R userRole with
  | Undefined => Normal false
  | Inherited _ =>
      Throw (TypeError "Cannot read properties of undefined (reading 'includes')")
  | Own role =>
      if includes "*" (permissions role) then Normal true
      else Normal (includes requiredPermission (permissions role))
  end.

Definition hasPermission : string → string → completion bool :=
  hasPermissionIn ROLES.

Definition hasAnyPermission (userRole : string) (requiredPermissions : list string)
  : completion bool :=
  some (λ permission, hasPermission userRole permission) requiredPermissions.

Definition hasAllPermissions (userRole : string) (requiredPermissions : list string)
  : completion bool :=
  every (λ permission, hasPermission userRole permission) requiredPermissions.

Definition getAvailableRoles : list string := map fst ROLES.

(** ** rbac.middleware.js: the guards *)

(** The request descriptor: the identity attached upstream, if any, the
    parsed payload, the header fields under their lower-case names, and
    the fields that only reach the log. *)
Record Request := {
  user : option Identity;
  body : value;
  query : value;
  params : list (string * value);
  headers : list (string * string);
  ip : string;
  remoteAddress : string;
  path : string;
  method : string
}.

(** A middleware either calls the next stage or responds; with it come
    the entries it wrote to the log.  Where the source wraps the body
    of a middleware in [try]/[catch], the exception that the body can
    raise is matched and answered as the [catch] block does. *)
Definition Middleware := Request → Outcome * list LogEntry.

Definition permission_check_error : Outcome * list LogEntry :=
  (Respond 500 (json "Internal server error" "Error checking permissions"),
   [ {| level := Error; text := "Permission check error:" |} ]).

Definition requirePermission (requiredPermission : string) : Middleware := λ req,
  match user req with
  | None =>
      (authentication_required,
       [ {| level := Warn; text := "Permission check failed - no authenticated user" |} ])
  | Some u =>
      match hasPermission (role u) requiredPermission with
      | Normal false =>
          (Respond 403
             (json "Access denied"
                   ("Insufficient permissions. Required: " +:+ requiredPermission)),
           [ {| level := Warn; text := "Permission denied" |} ])
      | Normal true =>
          (Next, [ {| level := Info; text := "Permission granted" |} ])
      | Throw _ => permission_check_error
      end
  end.

Definition requireAnyPermission (requiredPermissions : list string) : Middleware := λ req,
  match user req with
  | None => (authentication_required, [])
  | Some u =>
      match hasAnyPermission (role u) requiredPermissions with
      | Normal false =>
          (Respond 403
             (json "Access denied"
                   ("Insufficient permissions. Required any of: "
                      +:+ join ", " requiredPermissions)),
           [ {| level := Warn; text := "Permission denied - insufficient permissions" |} ])
      | Normal true => (Next, [])
      | Throw _ => permission_check_error
      end
  end.

Definition requireAllPermissions (requiredPermissions : list string) : Middleware := λ req,
  match user req with
  | None => (authentication_required, [])
  | Some u =>
      match hasAllPermissions (role u) requiredPermissions with
      | Normal false =>
          (Respond 403
             (json "Access denied"
                   ("Insufficient permissions. Required all of: "
                      +:+ join ", " requiredPermissions)),
           [ {| level := Warn; text := "Permission denied - missing required permissions" |} ])
      | Normal true => (Next, [])
      | Throw _ => permission_check_error
      end
  end.

(** ** parseInt and the number it returns *)

Module Number.

(** The Number values that [parseInt] can return.  [Fin z] is the
    integer-valued double [z]; the two zeros are one value here, as
    they are for [===]. *)
Inductive number : Type :=
| NaN
| Fin (z : Z)
| Infinity (negative : bool).

(** Round a mathematical integer to the nearest double, ties to even;
    magnitudes that round to [2^1024] or more overflow. *)
Definition of_Z (z : Z) : number :=
  let a := Z.abs z in
  if (a <? 2 ^ 53)%Z then Fin z
  else
    let e := (Z.log2 a - 52)%Z in
    let q := (a / 2 ^ e)%Z in
    let r := (a mod 2 ^ e)%Z in
    let half := (2 ^ (e - 1))%Z in
    let q' :=
      if (r <? half)%Z then q
      else if (half <? r)%Z then (q + 1)%Z
      else if Z.even q then q else (q + 1)%Z in
    let v := (q' * 2 ^ e)%Z in
    if (2 ^ 1024 <=? v)%Z then Infinity (z <? 0)%Z
    else Fin (Z.sgn z * v).

(** [x !== y] for the result of [parseInt] and an integer [y]. *)
Definition strict_ne (x : number) (y : Z) : bool :=
  match x with
  | Fin z => negb (z =? y)%Z
  | NaN | Infinity _ => true
  end.

Definition strict_eq (x : number) (y : Z) : bool := negb (strict_ne x y).

Definition code (c : ascii) : N := N_of_ascii c.

(** White space and line terminators below U+0100. *)
Definition is_space (c : ascii) : bool :=
  let n := code c in
  ((9 <=? n) && (n <=? 13) || (n =? 32) || (n =? 160))%N.

Definition digit_value (c : ascii) : option Z :=
  let n := code c in
  if ((48 <=? n) && (n <=? 57))%N then Some (Z.of_N (n - 48))
  else if ((97 <=? n) && (n <=? 122))%N then Some (Z.of_N (n - 87))
  else if ((65 <=? n) && (n <=? 90))%N then Some (Z.of_N (n - 55))
  else None.

Definition radix_digit (R : Z) (c : ascii) : option Z :=
  match digit_value c with
  | Some d => if (d <? R)%Z then Some d else None
  | None => None
  end.

Fixpoint trim_start (s : string) : string :=
  match s with
  | String c s' => if is_space c then trim_start s' else s
  | EmptyString => s
  end.

(** The longest prefix of radix-[R] digits, most significant first. *)
Fixpoint digits (R : Z) (s : string) : list Z :=
  match s with
  | String c s' =>
      match radix_digit R c with
      | Some d => d :: digits R s'
      | None => []
      end
  | EmptyString => []
  end.

Definition mathInt (R : Z) (ds : list Z) : Z :=
  fold_left (λ acc d, acc * R + d)%Z ds 0%Z.

(** [parseInt(string)] without a radix argument. *)
Definition parseInt (input : string) : number :=
  let s0 := trim_start input in
  let '(sign, s1) :=
    match s0 with
    | String "-" s' => ((-1)%Z, s')
    | String "+" s' => (1%Z, s')
    | _ => (1%Z, s0)
    end in
  let '(R, s2) :=
    match s1 with
    | String "0" (String "x" s') => (16%Z, s')
    | String "0" (String "X" s') => (16%Z, s')
    | _ => (10%Z, s1)
    end in
  match digits R s2 with
  | [] => NaN
  | ds => of_Z (sign * mathInt R ds)
  end.

End Number.

Import Number.

(** [String(req.params[name])], the argument conversion that [parseInt]
    performs: a missing parameter reads as [undefined], an inherited
    member as the source text of a native function or as
    [Object.prototype]. *)
Definition param_string (ps : list (string * value)) (name : string) : string :=
  match get ps name with
  | Own v => to_string v
  | Inherited f =>
      if String.eqb f "__proto__" then "[object Object]"
      else "function " +:+ f +:+ "() { [native code] }"
  | Undefined => "undefined"
  end.

Definition is_admin (r : string) : bool :=
  String.eqb r "admin" || String.eqb r "superadmin".

Definition access_denied_own : Outcome :=
  Respond 403 (json "Access denied" "You can only access your own resources").

Definition requireOwnership (resourceIdParam : string) : Middleware := λ req,
  match user req with
  | None => (authentication_required, [])
  | Some u =>
      let userId := id u in
      let resourceId := param_string (params req) resourceIdParam in
      if is_admin (role u) then (Next, [])
      else if strict_ne (parseInt resourceId) userId then
        (access_denied_own,
         [ {| level := Warn; text := "Ownership check failed" |} ])
      else (Next, [])
  end.

Definition requireOwnershipOrPermission (requiredPermission resourceIdParam : string)
  : Middleware := λ req,
  match user req with
  | None => (authentication_required, [])
  | Some u =>
      let userId := id u in
      let resourceId := param_string (params req) resourceIdParam in
      match hasPermission (role u) requiredPermission with
      | Throw _ =>
          (Respond 500 (json "Internal server error" "Error checking access rights"),
           [ {| level := Error; text := "Ownership/permission check error:" |} ])
      | Normal true => (Next, [])
      | Normal false =>
          if strict_eq (parseInt resourceId) userId then (Next, [])
          else
            (Respond 403
               (json "Access denied"
                     "You can only access your own resources or need higher permissions"),
             [ {| level := Warn; text := "Access denied - neither ownership nor permission" |} ])
      end
  end.

(** ** auth.middleware.js: the request size limit *)

Module Size.

(** What [parseSize] returns: a double that is not negative, or [NaN].
    [Bytes q] is the finite double whose value is the rational [q],
    written in lowest terms; [Unbounded] is [Infinity]. *)
Inductive bytes : Type :=
| Bytes (q : Q)
| Unbounded
| NotANumber.

(** [x * 2^k] for [k >= 0], and [x] for a negative [k]. *)
Definition shift (x k : Z) : Z := (x * 2 ^ Z.max k 0)%Z.

(** The double nearest to a rational [q >= 0]: 53 significant bits, no
    exponent of the last bit below -1074, round to nearest with ties to
    even, and [Infinity] from [2^1024] on.  With [e] the binary exponent
    of [q] and [E] the exponent of the last bit that a double keeps,
    [q / 2^E] is rounded to an integer [n] and the double is
    [n * 2^E]. *)
Definition nearest (q : Q) : bytes :=
  let N := Qnum q in
  let D := Z.pos (Qden q) in
  if (N <=? 0)%Z then Bytes (inject_Z 0)
  else
    let k := (Z.log2 N - Z.log2 D)%Z in
    let e := if (shift D k <=? shift N (- k))%Z then k else (k - 1)%Z in
    let E := Z.max (e - 52) (-1074) in
    let num := shift N (- E) in
    let den := shift D E in
    let n0 := (num / den)%Z in
    let r := (num mod den)%Z in
    let n :=
      if (2 * r <? den)%Z then n0
      else if (den <? 2 * r)%Z then (n0 + 1)%Z
      else if Z.even n0 then n0 else (n0 + 1)%Z in
    if (2 ^ 1024 <=? shift n E)%Z then Unbounded
    else Bytes (Qred (Qmake (shift n E) (Z.to_pos (shift 1 (- E))))).

(** [x * n] in doubles, for a positive integer [n]: the exact product,
    rounded. *)
Definition times (x : bytes) (n : Z) : bytes :=
  match x with
  | Bytes q => nearest (Qmult q (inject_Z n))
  | Unbounded => Unbounded
  | NotANumber => NotANumber
  end.

Definition units : list (string * Z) :=
  [ ("b", 1%Z); ("kb", 1024%Z); ("mb", (1024 * 1024)%Z);
    ("gb", (1024 * 1024 * 1024)%Z) ].

Definition lower (c : ascii) : ascii :=
  let n := code c in
  if ((65 <=? n) && (n <=? 90) || (192 <=? n) && (n <=? 222) && negb (n =? 215))%N
  then ascii_of_N (n + 32) else c.

Fixpoint toLowerCase (s : string) : string :=
  match s with
  | String c s' => String (lower c) (toLowerCase s')
  | EmptyString => EmptyString
  end.

Definition is_digit (c : ascii) : bool :=
  let n := code c in ((48 <=? n) && (n <=? 57))%N.

Definition is_az (c : ascii) : bool :=
  let n := code c in ((97 <=? n) && (n <=? 122))%N.

(** Split off the longest prefix whose characters satisfy [p]. *)
Fixpoint span (p : ascii → bool) (s : string) : string * string :=
  match s with
  | String c s' =>
      if p c then let '(a, b) := span p s' in (String c a, b)
      else (EmptyString, s)
  | EmptyString => (EmptyString, EmptyString)
  end.

Fixpoint all_chars (p : ascii → bool) (s : string) : bool :=
  match s with
  | EmptyString => true
  | String c s' => p c && all_chars p s'
  end.

(** The optional group [(?:\.\d+)?] at the head of [s]: what it takes
    and what it leaves. *)
Definition take_fraction (s : string) : string * string :=
  match s with
  | String c r =>
      if Ascii.eqb c "." then
        let '(frac, r') := span is_digit r in
        match frac with
        | EmptyString => (EmptyString, s)
        | _ => (String c frac, r')
        end
      else (EmptyString, s)
  | EmptyString => (EmptyString, s)
  end.

(** The match of [/^(\d+(?:\.\d+)?)\s*([a-z]+)?$/]: the two capture
    groups, the second one [None] when it took no part in the match.
    Each quantifier takes all it can: the four character classes are
    disjoint, so that no shorter choice lets the rest match. *)
Definition size_match (s : string) : option (string * option string) :=
  let '(int, r1) := span is_digit s in
  match int with
  | EmptyString => None
  | _ =>
      let '(fraction, r2) := take_fraction r1 in
      let '(_, r3) := span is_space r2 in
      let '(unit, r4) := span is_az r3 in
      match r4 with
      | EmptyString =>
          Some (int +:+ fraction,
                match unit with EmptyString => None | _ => Some unit end)
      | _ => None
      end
  end.

(** The language of that regular expression, read off its text: digits,
    an optional dot with digits, white space, letters, and nothing
    else. *)
Definition fraction (f : string) : Prop :=
  f = "" ∨ ∃ ds, f = "." +:+ ds ∧ ds ≠ "" ∧ all_chars is_digit ds = true.

Definition size_grammar (s : string) : Prop :=
  ∃ int f ws unit,
    s = int +:+ f +:+ ws +:+ unit
    ∧ int ≠ "" ∧ all_chars is_digit int = true
    ∧ fraction f
    ∧ all_chars is_space ws = true
    ∧ all_chars is_az unit = true.

(** A string stops [p] when it does not begin with a character of [p]. *)
Definition stops (p : ascii → bool) (s : string) : Prop :=
  match s with
  | String c _ => p c = false
  | EmptyString => True
  end.

Definition decimal_value (ds : string) : Z := mathInt 10 (digits 10 ds).

(** [parseFloat] on a string of the form [d+] or [d+.d+]: the double
    nearest to the decimal numeral. *)
Definition parseFloat (num : string) : bytes :=
  let '(int, r) := span is_digit num in
  match r with
  | String "." frac =>
      nearest (Qplus (inject_Z (decimal_value int))
                     (Qmake (decimal_value frac)
                            (Z.to_pos (10 ^ Z.of_nat (String.length frac)))))
  | _ => nearest (inject_Z (decimal_value int))
  end.

(** [parseSize(size)].  [units[unit] || 1] is the entry of the table,
    1 for a unit that the table does not have, and a function for a
    unit that names a member inherited from [Object.prototype]; a
    number times a function is [NaN]. *)
Definition parseSize (size : string) : bytes :=
  match size_match (toLowerCase size) with
  | None => Bytes (inject_Z 0)
  | Some (num, unit) =>
      let unit := match unit with Some u => u | None => "b" end in
      match get units unit with
      | Own n => times (parseFloat num) n
      | Undefined => times (parseFloat num) 1
      | Inherited _ => NotANumber
      end
  end.

(** [x > y] for the parsed content length and the parsed limit; a
    comparison with [NaN] is false. *)
Definition gt (x : number) (y : bytes) : bool :=
  match x, y with
  | Fin z, Bytes q => negb (Qle_bool (inject_Z z) q)
  | Infinity false, Bytes _ => true
  | _, _ => false
  end.

End Size.

Import Size.

Definition requestSizeLimit (limit : string) : Middleware := λ req,
  match own (headers req) "content-length" with
  | Some (String c l as contentLength) =>
      if gt (parseInt contentLength) (parseSize limit) then
        (Respond 413
           (json "Payload too large" ("Request size exceeds limit of " +:+ limit)),
         [ {| level := Warn; text := "Request size limit exceeded" |} ])
      else (Next, [])
  | _ => (Next, [])
  end.

(** ** auth.middleware.js: the suspicious activity detector *)

Module RegExp.

(** The two shapes of the four patterns: a character class, and an
    alternation of literal words, each word optionally between two
    [\b] assertions, optionally compared ignoring case. *)
Inductive pattern : Type :=
| Class (chars : list ascii)
| Words (ignoreCase wordBounded : bool) (alternatives : list string).

(** A regular expression object with the [g] flag: [test] reads and
    writes [lastIndex]. *)
Record regex := { source : pattern; lastIndex : nat }.

Definition literal (p : pattern) : regex := {| source := p; lastIndex := 0 |}.

Definition char_at (s : string) (i : nat) : option ascii := String.get i s.

Definition is_word (c : ascii) : bool :=
  let n := code c in
  ((48 <=? n) && (n <=? 57) || (65 <=? n) && (n <=? 90)
   || (97 <=? n) && (n <=? 122) || (n =? 95))%N.

Definition word_at (s : string) (i : nat) : bool :=
  match char_at s i with
  | Some c => is_word c
  | None => false
  end.

(** The assertion [\b] at index [i]. *)
Definition boundary (s : string) (i : nat) : bool :=
  xorb (match i with O => false | S j => word_at s j end) (word_at s i).

(** Canonicalize of a code unit under the [i] flag (without [u]): the
    upper-case mapping, unless it would take a unit above 127 below
    128.  Three units map out of the 8-bit range or stay:
    U+00B5 to U+039C, U+00FF to U+0178, and U+00DF stays. *)
Definition canon (c : ascii) : N :=
  let n := code c in
  if ((97 <=? n) && (n <=? 122))%N then (n - 32)%N
  else if ((224 <=? n) && (n <=? 254) && negb (n =? 247))%N then (n - 32)%N
  else if (n =? 181)%N then 924%N
  else if (n =? 255)%N then 376%N
  else n.

Definition same_char (ignoreCase : bool) (a b : ascii) : bool :=
  if ignoreCase then (canon a =? canon b)%N else (code a =? code b)%N.

(** Does [w] match [s] from index [i] on? *)
Fixpoint word_here (ignoreCase : bool) (w s : string) (i : nat) : bool :=
  match w with
  | EmptyString => true
  | String a w' =>
      match char_at s i with
      | Some b => same_char ignoreCase a b && word_here ignoreCase w' s (S i)
      | None => false
      end
  end.

(** The match of the pattern that starts at index [i]: its end index.
    Alternatives are tried from left to right. *)
Definition match_at (p : pattern) (s : string) (i : nat) : option nat :=
  match p with
  | Class chars =>
      match char_at s i with
      | Some c => if existsb (Ascii.eqb c) chars then Some (S i) else None
      | None => None
      end
  | Words ic wb alternatives =>
      let e w := i + String.length w in
      match
        find (λ w, word_here ic w s i
                   && (negb wb || boundary s i && boundary s (e w)))
             alternatives
      with
      | Some w => Some (e w)
      | None => None
      end
  end.

(** RegExpBuiltinExec: try the indices [i], [i + 1], ... up to the
    length of the string; [n] counts the indices left. *)
Fixpoint search (p : pattern) (s : string) (i n : nat) : option nat :=
  match n with
  | O => None
  | S n' =>
      match match_at p s i with
      | Some e => Some e
      | None => search p s (S i) n'
      end
  end.

Definition exec (p : pattern) (s : string) (from : nat) : option nat :=
  search p s from (S (String.length s) - from).

(** [r.test(s)]: the answer and the regex with its new [lastIndex]. *)
Definition test (r : regex) (s : string) : bool * regex :=
  match exec (source r) s (lastIndex r) with
  | Some e => (true, {| source := source r; lastIndex := e |})
  | None => (false, {| source := source r; lastIndex := 0 |})
  end.

End RegExp.

Import RegExp.

(** The array literal of [suspiciousActivityDetector]: four regular
    expression objects, created anew by every call of the middleware. *)
Definition double_quote : ascii := ascii_of_N 34.

Definition suspiciousPatterns : list regex :=
  [ literal (Class [ "<"; ">"; "'"; double_quote; "%"; ";"; "("; ")"; "&"; "+" ]%char);
    literal (Words true true
               [ "union"; "select"; "drop"; "delete"; "insert"; "update" ]);
    literal (Words false false [ "../"; "..\" ]);
    literal (Words true false
               [ "script"; "javascript"; "vbscript"; "onload"; "onerror" ]) ].

(** [patterns.some(pattern => pattern.test(str))]; the patterns already
    tested come back with their new [lastIndex]. *)
Fixpoint checkString (patterns : list regex) (str : string) : bool * list regex :=
  match patterns with
  | [] => (false, [])
  | r :: rest =>
      let '(b, r') := test r str in
      if b then (true, r' :: rest)
      else let '(b', rest') := checkString rest str in (b', r' :: rest')
  end.

(** The loop [for (... of Object.entries(...))] of [checkObject], given
    what it does with one entry: it returns at the first [true]. *)
Definition first_hit {A} (visit : list regex → A → bool * list regex)
  : list regex → list A → bool * list regex :=
  fix loop patterns entries :=
    match entries with
    | [] => (false, patterns)
    | x :: entries' =>
        let '(b, patterns') := visit patterns x in
        if b then (true, patterns') else loop patterns' entries'
    end.

Fixpoint chars (s : string) : list string :=
  match s with
  | String c s' => String c EmptyString :: chars s'
  | EmptyString => []
  end.

(** [checkObject(obj)].  [Object.entries(obj || {})] lists the own
    properties of an object, the elements of an array and the characters
    of a non-empty string, and nothing for any other value. *)
Fixpoint checkObject (patterns : list regex) (obj : value) : bool * list regex :=
  match obj with
  | VObj props | VProto _ props =>
      first_hit
        (λ patterns '(_, x),
           match x with
           | VStr s => checkString patterns s
           | VArr _ | VObj _ | VProto _ _ => checkObject patterns x
           | _ => (false, patterns)
           end) patterns props
  | VArr items =>
      first_hit
        (λ patterns x,
           match x with
           | VStr s => checkString patterns s
           | VArr _ | VObj _ | VProto _ _ => checkObject patterns x
           | _ => (false, patterns)
           end) patterns items
  | VStr s => first_hit checkString patterns (chars s)
  | _ => (false, patterns)
  end.

(** [req.get(name)] of Express: the header field, looked up under its
    lower-case name; [Referer] is accepted under both spellings. *)
Definition req_get (req : Request) (name : string) : option string :=
  let lc := toLowerCase name in
  if String.eqb lc "referer" || String.eqb lc "referrer" then
    match own (headers req) "referrer" with
    | Some (String _ _ as v) => Some v
    | _ => own (headers req) "referer"
    end
  else own (headers req) lc.

(** [header && checkString(header)]: an absent or empty header is falsy
    and is not tested. *)
Definition check_header (patterns : list regex) (header : option string)
  : bool * list regex :=
  match header with
  | Some (String _ _ as h) => checkString patterns h
  | _ => (false, patterns)
  end.

Definition suspicious (req : Request) : bool :=
  let patterns := suspiciousPatterns in
  let '(b, patterns) := checkObject patterns (body req) in
  if b then true else
  let '(b, patterns) := checkObject patterns (query req) in
  if b then true else
  let '(b, patterns) := checkObject patterns (VObj (params req)) in
  if b then true else
  let '(b, patterns) := check_header patterns (req_get req "User-Agent") in
  if b then true else
  fst (check_header patterns (req_get req "Referer")).

Definition suspiciousActivityDetector : Middleware := λ req,
  if suspicious req then
    (Respond 400 (json "Bad Request" "Request contains suspicious content"),
     [ {| level := Error; text := "Suspicious activity detected" |} ])
  else (Next, []).

(** *** What the detector is to find *)

(** A pattern matches a string when it matches at some index. *)
Definition matches (p : pattern) (s : string) : Prop :=
  ∃ i e, i ≤ String.length s ∧ match_at p s i = Some e.

(** The same as a test on a regular expression whose [lastIndex] is 0. *)
Definition hit (p : pattern) (s : string) : bool :=
  match exec p s 0 with
  | Some _ => true
  | None => false
  end.

Definition threat_in (patterns : list regex) (s : string) : bool :=
  existsb (λ r, hit (source r) s) patterns.

(** Two words of the same length whose characters agree, up to case
    when [ignoreCase] is set. *)
Fixpoint same_word (ignoreCase : bool) (w w' : string) : bool :=
  match w, w' with
  | EmptyString, EmptyString => true
  | String a w, String b w' => same_char ignoreCase a b && same_word ignoreCase w w'
  | _, _ => false
  end.

(** The last character of [a], if any, is not a word character. *)
Definition ends_outside_word (a : string) : Prop :=
  ∀ a' c, a = a' +:+ String c EmptyString → is_word c = false.

(** All the 8-bit code units. *)
Definition all_ascii : list ascii := map ascii_of_nat (seq 0 256).

(** A string is a threat when one of the four patterns matches it. *)
Definition threat : string → bool := threat_in suspiciousPatterns.

(** The strings inside a value, at any depth, in the order of the
    walk: in the elements of an array and in the own properties of an
    object. *)
Fixpoint strings (v : value) : list string :=
  match v with
  | VStr s => [s]
  | VArr items => flat_map strings items
  | VObj props | VProto _ props => flat_map (λ kv, strings (snd kv)) props
  | _ => []
  end.

(** The strings that [checkObject] tests in [obj]. *)
Definition scanned (obj : value) : list string :=
  match obj with
  | VStr s => chars s
  | _ => strings obj
  end.

(** [occurs s v]: the string [s] is [v] or lies inside [v]. *)
Inductive occurs (s : string) : value → Prop :=
| occurs_here : occurs s (VStr s)
| occurs_item items x : In x items → occurs s x → occurs s (VArr items)
| occurs_prop props k x : In (k, x) props → occurs s x → occurs s (VObj props)
| occurs_own proto props k x :
    In (k, x) props → occurs s x → occurs s (VProto proto props).

(** [contains obj s]: the object or array [obj] holds the string [s] at
    some depth. *)
Definition contains (obj : value) (s : string) : Prop :=
  match obj with
  | VArr _ | VObj _ | VProto _ _ => occurs s obj
  | _ => False
  end.

(** The regular expressions as the array literal creates them. *)
Definition fresh (patterns : list regex) : Prop :=
  Forall (λ r, lastIndex r = 0) patterns.

Definition present (header : option string) : list string :=
  match header with
  | Some h => [h]
  | None => []
  end.

(** Every string of a request that the detector looks at. *)
Definition inspected (req : Request) : list string :=
  scanned (body req) ++ scanned (query req) ++ scanned (VObj (params req))
  ++ present (req_get req "User-Agent") ++ present (req_get req "Referer").

Definition suspicious_content : Outcome * list LogEntry :=
  (Respond 400 (json "Bad Request" "Request contains suspicious content"),
   [ {| level := Error; text := "Suspicious activity detected" |} ]).

(** What the loop of [checkObject] does with one entry. *)
Definition visit_entry (patterns : list regex) (x : value) : bool * list regex :=
  match x with
  | VStr s => checkString patterns s
  | VArr _ | VObj _ | VProto _ _ => checkObject patterns x
  | _ => (false, patterns)
  end.

(** A visit is sound for [P] at [x] when, on the patterns [rs], it
    answers [P x] and hands the patterns back as they were unless the
    answer is true. *)
Definition sound {A} (rs : list regex)
    (visit : list regex → A → bool * list regex) (P : A → bool) (x : A) : Prop :=
  fst (visit rs x) = P x ∧ (fst (visit rs x) = false → snd (visit rs x) = rs).

(** Soundness of [checkObject] on a value nested in the payload. *)
Definition nested_sound (rs : list regex) (x : value) : Prop :=
  match x with
  | VArr _ | VObj _ | VProto _ _ =>
      sound rs checkObject (λ v, existsb (threat_in rs) (strings v)) x
  | _ => True
  end.

(** ** auth.middleware.js: input sanitization *)

(** The functions that [sanitizeObject] imports from the packages [xss]
    and [validator].
    - [xss_script s] is [xss(s, {whiteList: {}, stripIgnoreTag: true,
      stripIgnoreTagBody: ['script']})];
    - [xss_tags s] is [xss(s, {whiteList: {}, stripIgnoreTag: true})];
    - [normalizeEmail] returns [None] where the package returns [false].
    Each of them returns for every string: none throws. *)
Record Packages := {
  xss_script : string → string;
  xss_tags : string → string;
  isEmail : string → bool;
  normalizeEmail : string → option string
}.

Section Sanitizer.

Variable pkg : Packages.

(** What [sanitizeObject] stores for a string found under [key]. *)
Definition sanitizeString (key : string) (s : string) : value :=
  let clean := xss_script pkg s in
  if String.eqb key "email" then
    if isEmail pkg clean then
      match normalizeEmail pkg clean with
      | Some e => VStr e
      | None => VBool false
      end
    else VStr clean
  else VStr clean.

Definition sanitizeItem (item : value) : value :=
  match item with
  | VStr s => VStr (xss_tags pkg s)
  | _ => item
  end.

(** One turn of the loop of [sanitizeObject]: the value stored under
    [key], given the function for nested objects. *)
Definition sanitizeValue (nested : value → value) (key : string) (v : value)
  : value :=
  match v with
  | VStr s => sanitizeString key s
  | VObj _ | VProto _ _ => nested v
  | VArr items => VArr (map sanitizeItem items)
  | _ => v
  end.

(** The own properties of an object. *)
Definition own_props (o : value) : list (string * value) :=
  match o with
  | VObj props | VProto _ props => props
  | _ => []
  end.

(** What the setter of [__proto__] takes for a prototype: an object,
    which an array is too, or [null]. *)
Definition is_prototype (v : value) : bool :=
  match v with
  | VNull | VArr _ | VObj _ | VProto _ _ => true
  | _ => false
  end.

(** [sanitized[key] = v] on the object [sanitized] that the loop fills.
    The keys come from [Object.entries] and so are pairwise different:
    the assignment adds a new own property, after the others.  Not so
    for the key [__proto__], which is no own property of the fresh
    object: the assignment reaches the accessor that the object
    inherits from [Object.prototype], and the setter makes [v] the
    prototype of [sanitized] when [v] is an object, an array or [null],
    and does nothing for any other [v]. *)
Definition assign (sanitized : value) (key : string) (v : value) : value :=
  if String.eqb key "__proto__" then
    if is_prototype v then VProto v (own_props sanitized) else sanitized
  else
    match sanitized with
    | VProto proto props => VProto proto (props ++ [(key, v)])
    | _ => VObj (own_props sanitized ++ [(key, v)])
    end.

(** [sanitizeObject(obj)] for an object or an array [obj]; the entries
    of an array are its elements under their indices. *)
Fixpoint sanitizeObject (obj : value) : value :=
  match obj with
  | VObj props | VProto _ props =>
      (fix loop (sanitized : value) (entries : list (string * value)) : value :=
         match entries with
         | [] => sanitized
         | (key, v) :: entries' =>
             loop (assign sanitized key (sanitizeValue sanitizeObject key v))
                  entries'
         end) (VObj []) props
  | VArr items =>
      (fix loop (sanitized : value) (i : nat) (entries : list value) : value :=
         match entries with
         | [] => sanitized
         | v :: entries' =>
             let key := decimal (Z.of_nat i) in
             loop (assign sanitized key (sanitizeValue sanitizeObject key v))
                  (S i) entries'
         end) (VObj []) 0 items
  | _ => VObj []
  end.

(** [v && typeof v === 'object']. *)
Definition is_object (v : value) : bool :=
  match v with
  | VObj _ | VArr _ | VProto _ _ => true
  | _ => false
  end.

(** The three properties of the request that [sanitizeInput] assigns. *)
Record Payload := {
  req_body : value;
  req_query : value;
  req_params : value
}.

Definition invalid_input : Outcome * list LogEntry :=
  (Respond 400 (json "Bad Request" "Invalid input data"),
   [ {| level := Error; text := "Input sanitization error:" |} ]).

(** Whether the request object takes an assignment to its property of
    that name.  The file is a module, hence strict code: an assignment
    that the object refuses throws a [TypeError].  The request of
    Express 4 holds [body], [query] and [params] as data properties; in
    Express 5 [query] is an accessor without a setter. *)
Variable writable : string → bool.

(** [if (v && typeof v === 'object') req.name = sanitizeObject(v)]: the
    value of the property after the statement, or the exception. *)
Definition sanitizeProperty (name : string) (v : value) : completion value :=
  if is_object v then
    if writable name then Normal (sanitizeObject v)
    else Throw (TypeError ("Cannot set property " +:+ name))
  else Normal v.

(** [sanitizeInput]: what the three properties hold when the middleware
    is done, and what it did.  A statement that throws leaves the
    [try] block for the [catch] block, after the assignments before
    it. *)
Definition sanitizeInput (req : Request) : Payload * (Outcome * list LogEntry) :=
  let b := body req in
  let q := query req in
  let p := VObj (params req) in
  match sanitizeProperty "body" b with
  | Throw _ =>
      ({| req_body := b; req_query := q; req_params := p |}, invalid_input)
  | Normal b' =>
      match sanitizeProperty "query" q with
      | Throw _ =>
          ({| req_body := b'; req_query := q; req_params := p |}, invalid_input)
      | Normal q' =>
          match sanitizeProperty "params" p with
          | Throw _ =>
              ({| req_body := b'; req_query := q'; req_params := p |},
               invalid_input)
          | Normal p' =>
              ({| req_body := b'; req_query := q'; req_params := p' |},
               (Next, []))
          end
      end
  end.

(** One turn of the loop, and the loop over a list of entries. *)
Definition sanitizeEntry (sanitized : value) (entry : string * value) : value :=
  assign sanitized (fst entry) (sanitizeValue sanitizeObject (fst entry) (snd entry)).

Definition sanitizeEntries (sanitized : value) (entries : list (string * value))
  : value :=
  fold_left sanitizeEntry entries sanitized.

(** The entries of an array. *)
Fixpoint indexed (i : nat) (items : list value) : list (string * value) :=
  match items with
  | [] => []
  | v :: items' => (decimal (Z.of_nat i), v) :: indexed (S i) items'
  end.

(** [Object.entries(obj)] for an object or an array. *)
Definition object_entries (obj : value) : list (string * value) :=
  match obj with
  | VObj props | VProto _ props => props
  | VArr items => indexed 0 items
  | _ => []
  end.

(** The own properties that the loop adds for a list of entries. *)
Definition kept (entries : list (string * value)) : list (string * value) :=
  map (λ kv, (fst kv, sanitizeValue sanitizeObject (fst kv) (snd kv)))
      (List.filter (λ kv, negb (String.eqb (fst kv) "__proto__")) entries).

(** The transforms of the strings are idempotent: under every key, a
    string that [sanitizeObject] has stored is stored again as it is,
    and so is a string inside an array. *)
Definition idempotent_leaves : Prop :=
  (∀ key s e, sanitizeString key s = VStr e → sanitizeString key e = VStr e)
  ∧ (∀ s, xss_tags pkg (xss_tags pkg s) = xss_tags pkg s).

End Sanitizer.

(** An entry replaces the prototype of the result when its key is
    [__proto__] and its value an object, an array or [null]. *)
Definition replaces_prototype (entry : string * value) : bool :=
  String.eqb (fst entry) "__proto__" && is_prototype (snd entry).

(** An input is plain when no object that [sanitizeObject] walks in it
    has an entry that replaces the prototype: the objects walked are the
    input, the objects that are elements of an input array, and the
    objects that are properties of an object walked. *)
Fixpoint plain (obj : value) : bool :=
  match obj with
  | VObj props | VProto _ props =>
      forallb (λ kv, negb (replaces_prototype kv)
                     && match snd kv with
                        | VObj _ | VProto _ _ => plain (snd kv)
                        | _ => true
                        end) props
  | VArr items =>
      forallb (λ v, match v with
                    | VObj _ | VProto _ _ => plain v
                    | _ => true
                    end) items
  | _ => true
  end.

(** *** A reference instance of the packages *)

Module Reference.

(** Stand-in for the [xss] package with an empty white list: every
    tag, from [<] to the next [>] or to the end of the input, is
    removed, and a [>] outside a tag is escaped. *)
Fixpoint strip (in_tag : bool) (s : string) : string :=
  match s with
  | EmptyString => EmptyString
  | String c s' =>
      if in_tag then
        if Ascii.eqb c ">" then strip false s' else strip true s'
      else if Ascii.eqb c "<" then strip true s'
      else if Ascii.eqb c ">" then "&gt;" +:+ strip false s'
      else String c (strip false s')
  end.

Definition stripTags (s : string) : string := strip false s.

Definition no_angle (c : ascii) : bool :=
  negb (Ascii.eqb c "<") && negb (Ascii.eqb c ">").

(** [s.split(sep)] keeping the text before the last separator and the
    text after it; [None] when [sep] does not occur. *)
Fixpoint split_last (sep : ascii) (s : string) : option (string * string) :=
  match s with
  | EmptyString => None
  | String c s' =>
      match split_last sep s' with
      | Some (a, b) => Some (String c a, b)
      | None => if Ascii.eqb c sep then Some (EmptyString, s') else None
      end
  end.

Definition yahoo_domains : list string :=
  [ "rocketmail.com"; "yahoo.ca"; "yahoo.co.uk"; "yahoo.com"; "yahoo.de";
    "yahoo.fr"; "yahoo.in"; "yahoo.it"; "ymail.com" ].

(** The two parts of an address: the text before the last [@], and the
    text after it. *)
Definition address_parts (email : string) : string * string :=
  match split_last "@" email with
  | Some parts => parts
  | None => (EmptyString, email)
  end.

(** [validator.normalizeEmail] with its default options, on the
    addresses of Yahoo and of the providers it has no rule for: the
    domain is lower-cased; a Yahoo local part loses its last
    [-]-separated component (the sub-address) when it has more than
    one, and the answer is [false] when nothing is left of it; the
    local part is lower-cased. *)
Definition normalize (email : string) : option string :=
  let '(local, domain) := address_parts email in
  let domain := toLowerCase domain in
  if includes domain yahoo_domains then
    let local := match split_last "-" local with
                 | Some (front, _) => front
                 | None => local
                 end in
    match local with
    | EmptyString => None
    | _ => Some (toLowerCase local +:+ "@" +:+ domain)
    end
  else Some (toLowerCase local +:+ "@" +:+ domain).

Definition is_atext (c : ascii) : bool :=
  is_word c || existsb (Ascii.eqb c) [ "."; "-"; "+"; "!"; "#"; "$"; "%"; "&";
                                        "'"; "*"; "/"; "="; "?"; "^"; "`"; "{";
                                        "|"; "}"; "~" ]%char.

Definition is_domain_char (c : ascii) : bool :=
  is_word c && negb (Ascii.eqb c "_") || existsb (Ascii.eqb c) [ "."; "-" ]%char.

(** A syntactic check in the manner of [validator.isEmail]: a
    non-empty local part of atom characters, an [@], and a domain of
    letters, digits, hyphens and at least one dot. *)
Definition looksLikeEmail (s : string) : bool :=
  match split_last "@" s with
  | Some (String a local, String b domain) =>
      all_chars is_atext (String a local)
      && all_chars is_domain_char (String b domain)
      && negb (all_chars (λ c, negb (Ascii.eqb c ".")) (String b domain))
  | _ => false
  end.

Definition packages : Packages :=
  {| xss_script := stripTags;
     xss_tags := stripTags;
     isEmail := looksLikeEmail;
     normalizeEmail := normalize |}.

(** The same with a normalization that only folds the case. *)
Definition case_folding : Packages :=
  {| xss_script := stripTags;
     xss_tags := stripTags;
     isEmail := looksLikeEmail;
     normalizeEmail := λ s, Some (toLowerCase s) |}.

End Reference.

(** ** auth.middleware.js: rate limiting *)

Record Tier := { windowMs : Z; max : Z; notice : string }.

Record Bucket := { count : Z; windowStart : Z }.

Inductive Verdict : Type := Proceed | Exceeded.

(** Modelled from the spec: the counting store of the package
    [express-rate-limit], which [createRateLimiter] configures and which
    is not part of the sources.  Fixed-window counting per key: without
    a bucket for the key, or with one whose window has elapsed, a fresh
    bucket with count 1 is started and the request proceeds; otherwise
    the count is incremented, and the request is rejected when the new
    count exceeds the maximum of the tier. *)
Definition rateLimit (tier : Tier) (now : Z) (key : string)
    (store : gmap string Bucket) : gmap string Bucket * Verdict :=
  match store !! key with
  | Some b =>
      if (windowStart b + windowMs tier <=? now)%Z then
        (<[key := {| count := 1; windowStart := now |}]> store, Proceed)
      else
        let n := (count b + 1)%Z in
        (<[key := {| count := n; windowStart := windowStart b |}]> store,
         if (max tier <? n)%Z then Exceeded else Proceed)
  | None => (<[key := {| count := 1; windowStart := now |}]> store, Proceed)
  end.

(** [Math.ceil(x / 1000)] for an integer [x]. *)
Definition ceil_seconds (ms : Z) : Z := (- ((- ms) / 1000))%Z.

(** The key generator of [createRateLimiter]: [req.ip ||
    req.connection.remoteAddress], a colon, and [req.user?.id ||
    'anonymous']; an id of 0 is falsy. *)
Definition keyGenerator (req : Request) : string :=
  let ip := match ip req with
            | EmptyString => remoteAddress req
            | a => a
            end in
  let userId := match user req with
                | Some u => if (id u =? 0)%Z then "anonymous" else decimal (id u)
                | None => "anonymous"
                end in
  ip +:+ ":" +:+ userId.

(** The handler of [createRateLimiter]. *)
Definition handler (tier : Tier) : Middleware := λ req,
  (Respond 429
     {| error := "Rate limit exceeded";
        message := notice tier;
        retryAfter := Some (ceil_seconds (windowMs tier)) |},
   [ {| level := Warn; text := "Rate limit exceeded" |} ]).

(** The middleware that [createRateLimiter(windowMs, max, message)]
    returns, on the store and at the time of the request. *)
Definition createRateLimiter (tier : Tier) (store : gmap string Bucket) (now : Z)
    (req : Request) : gmap string Bucket * (Outcome * list LogEntry) :=
  let '(store', verdict) := rateLimit tier now (keyGenerator req) store in
  (store',
   match verdict with
   | Proceed => (Next, [])
   | Exceeded => handler tier req
   end).

Definition authRateLimit :=
  createRateLimiter
    {| windowMs := 15 * 60 * 1000; max := 5;
       notice := "Too many authentication attempts, please try again later" |}.

Definition apiRateLimit :=
  createRateLimiter
    {| windowMs := 15 * 60 * 1000; max := 100;
       notice := "Too many API requests, please try again later" |}.

Definition strictRateLimit :=
  createRateLimiter
    {| windowMs := 60 * 1000; max := 10;
       notice := "Too many requests, please slow down" |}.

(** The seconds that remain in the window of a bucket at time [now]. *)
Definition seconds_remaining (tier : Tier) (b : Bucket) (now : Z) : Z :=
  ceil_seconds (windowStart b + windowMs tier - now).

(** A run of the limiter over the requests of one client, given with
    their arrival times: the final store and the outcomes in order. *)
Fixpoint serve (tier : Tier) (store : gmap string Bucket)
    (arrivals : list (Z * Request)) : gmap string Bucket * list Outcome :=
  match arrivals with
  | [] => (store, [])
  | (now, req) :: rest =>
      let '(store', (o, _)) := createRateLimiter tier store now req in
      let '(store'', os) := serve tier store' rest in
      (store'', o :: os)
  end.

(** The tier of the specification's example: 60 seconds, 3 requests. *)
Definition tier_60s_3 : Tier :=
  {| windowMs := 60000; max := 3; notice := "Too many requests" |}.

Definition rejected (tier : Tier) : Outcome :=
  Respond 429
    {| error := "Rate limit exceeded";
       message := notice tier;
       retryAfter := Some (ceil_seconds (windowMs tier)) |}.

(** ** Sample requests *)

(** A request that carries nothing but an identity and path parameters. *)
Definition request_of (u : option Identity) (ps : list (string * value)) : Request :=
  {| user := u; body := VUndefined; query := VObj []; params := ps;
     headers := []; ip := "203.0.113.7"; remoteAddress := "203.0.113.7";
     path := "/users"; method := "GET" |}.

(** A request that carries nothing but a body. *)
Definition post (b : value) : Request :=
  {| user := None; body := b; query := VObj []; params := [];
     headers := []; ip := "203.0.113.7"; remoteAddress := "203.0.113.7";
     path := "/users"; method := "POST" |}.

(** * The rest of the two middleware files *)

(** ** rbac.middleware.js: the registry utilities *)

(** The values of [PERMISSIONS], resource by resource. *)
Definition catalog : list string :=
  [ PERMISSIONS.USERS.CREATE; PERMISSIONS.USERS.READ; PERMISSIONS.USERS.UPDATE;
    PERMISSIONS.USERS.DELETE; PERMISSIONS.USERS.READ_ALL;
    PERMISSIONS.USERS.UPDATE_ANY; PERMISSIONS.USERS.DELETE_ANY;
    PERMISSIONS.PROFILE.READ; PERMISSIONS.PROFILE.UPDATE;
    PERMISSIONS.ADMIN.PANEL; PERMISSIONS.ADMIN.LOGS; PERMISSIONS.ADMIN.SYSTEM ].

(** [getUserPermissions(userRole)] is [role ? role.permissions : []]:
    the list of a registered role, the empty list for a name that the
    registry does not resolve, and [undefined], here [None], for an
    inherited member, which is truthy and has no [permissions]. *)
Definition getUserPermissions (userRole : string) : option (list string) :=
  match get ROLES userRole with
  | Own role => Some (permissions role)
  | Inherited _ => None
  | Undefined => Some []
  end.

(** The list of a registered role. *)
Definition granted_to (r : string) : list string :=
  match own ROLES r with
  | Some role => permissions role
  | None => []
  end.

(** [getRoleInfo(roleName)] is [ROLES[roleName] || null]: the property
    read itself, with [null] for [undefined]. *)
Definition getRoleInfo (roleName : string) : property Role :=
  get ROLES roleName.

(** ** auth.middleware.js: the role guard *)

Definition requireRole (roles : list string) : Middleware := λ req,
  match user req with
  | None => (authentication_required, [])
  | Some u =>
      if includes (role u) roles then (Next, [])
      else
        (Respond 403
           (json "Access denied"
                 ("Insufficient permissions. Required role(s): "
                    +:+ join ", " roles)),
         [])
  end.

(** ** auth.middleware.js: token authentication *)

(** [s.split(sep)] for a separator of one character: the fields of
    [s], at least one. *)
Fixpoint split (sep : ascii) (s : string) : list string :=
  match s with
  | EmptyString => [EmptyString]
  | String c s' =>
      if Ascii.eqb c sep then EmptyString :: split sep s'
      else match split sep s' with
           | field :: fields => String c field :: fields
           | [] => [String c EmptyString]
           end
  end.

(** A string as a condition: the empty string is falsy. *)
Definition truthy (s : option string) : option string :=
  match s with
  | Some (String _ _) => s
  | _ => None
  end.

(** [req.headers.authorization?.split(' ')[1]]. *)
Definition bearer (req : Request) : option string :=
  match own (headers req) "authorization" with
  | Some h => nth_error (split " " h) 1
  | None => None
  end.

Definition access_denied (m : string) : Outcome :=
  Respond 401 (json "Access denied" m).

Definition with_user (req : Request) (u : Identity) : Request :=
  {| user := Some u; body := body req; query := query req;
     params := params req; headers := headers req; ip := ip req;
     remoteAddress := remoteAddress req; path := path req;
     method := method req |}.

Section Authentication.

(** The two helpers that the middleware imports from [utils], which
    are not part of the sources: [cookies.get(req, name)], and
    [jwttoken.verify(token)], which yields the decoded identity, a falsy
    value, here [None], or throws. *)
Variable cookies_get : Request → string → completion (option string).
Variable verify : string → completion (option Identity).

(** [authenticateToken]: the request as the next stage sees it, and the
    outcome.  Every exception of the body ends in the [catch] block. *)
Definition authenticateToken (req : Request)
  : Request * (Outcome * list LogEntry) :=
  let invalid :=
    (req, (access_denied "Invalid token",
           [ {| level := Error; text := "Authentication error:" |} ])) in
  match cookies_get req "token" with
  | Throw _ => invalid
  | Normal cookie =>
      let token :=
        match truthy cookie with
        | Some t => Some t
        | None => bearer req
        end in
      match truthy token with
      | None => (req, (access_denied "No token provided", []))
      | Some t =>
          match verify t with
          | Throw _ => invalid
          | Normal None => (req, (access_denied "Invalid token", []))
          | Normal (Some decoded) => (with_user req decoded, (Next, []))
          end
      end
  end.

End Authentication.

(** ** auth.middleware.js: the security headers *)

(** The header fields of a response under way, by lower-case name:
    [res.setHeader(name, value)] replaces the field of that name. *)
Definition setHeader (name value : string) (res : gmap string string)
  : gmap string string :=
  <[toLowerCase name := value]> res.

Definition content_security_policy : string :=
  "default-src 'self'; script-src 'self' 'unsafe-inline'; style-src 'self' 'unsafe-inline'; img-src 'self' data: https:; font-src 'self'; connect-src 'self'; frame-ancestors 'none';".

Definition securityHeaders (res : gmap string string) (req : Request)
  : gmap string string * (Outcome * list LogEntry) :=
  let res := setHeader "Content-Security-Policy" content_security_policy res in
  let res := setHeader "X-Content-Type-Options" "nosniff" res in
  let res := setHeader "X-Frame-Options" "DENY" res in
  let res := setHeader "X-XSS-Protection" "1; mode=block" res in
  let res := setHeader "Referrer-Policy" "strict-origin-when-cross-origin" res in
  let res := setHeader "Permissions-Policy"
                       "camera=(), microphone=(), geolocation=()" res in
  (res, (Next, [])).

(** The names of the six fields, as the response stores them. *)
Definition security_header_names : list string :=
  [ "content-security-policy"; "x-content-type-options"; "x-frame-options";
    "x-xss-protection"; "referrer-policy"; "permissions-policy" ].

(** ** auth.middleware.js: the schema of the user id parameter *)

(** Why [userIdSchema] refuses an input. *)
Inductive Issue : Type :=
| Required
| ExpectedString
| Invalid (message : string).

(** [userIdSchema.safeParse(params)]: the field [id] must be a string
    of the language of [/^\d+$/]; the result is that string under
    [Number]. *)
Definition userIdSchema (ps : list (string * value)) : number + Issue :=
  match own ps "id" with
  | None | Some VUndefined => inr Required
  | Some (VStr s) =>
      match s with
      | String _ _ =>
          if all_chars is_digit s then inl (of_Z (decimal_value s))
          else inr (Invalid "ID must be a valid number")
      | EmptyString => inr (Invalid "ID must be a valid number")
      end
  | Some _ => inr ExpectedString
  end.

(** ** Notions for the properties *)

(** The permissions that the registry lists for [admin] and for no
    role below it. *)
Definition admin_only : list string :=
  [ PERMISSIONS.USERS.CREATE; PERMISSIONS.USERS.DELETE;
    PERMISSIONS.USERS.UPDATE_ANY; PERMISSIONS.USERS.DELETE_ANY;
    PERMISSIONS.ADMIN.PANEL; PERMISSIONS.ADMIN.LOGS; PERMISSIONS.ADMIN.SYSTEM ].

(** The six guards, each made for the permission [p], the list [ps],
    the roles [rs] and the parameter [idParam]. *)
Definition guards (p : string) (ps rs : list string) (idParam : string)
  : list Middleware :=
  [ requireRole rs; requirePermission p; requireAnyPermission ps;
    requireAllPermissions ps; requireOwnership idParam;
    requireOwnershipOrPermission p idParam ].

Definition is_x (c : ascii) : bool := Ascii.eqb c "x" || Ascii.eqb c "X".

Definition is_string (v : value) : bool :=
  match v with
  | VStr _ => true
  | _ => false
  end.

Definition with_body (req : Request) (b : value) : Request :=
  {| user := user req; body := b; query := query req;
     params := params req; headers := headers req; ip := ip req;
     remoteAddress := remoteAddress req; path := path req;
     method := method req |}.

(** The two halves of the key of the rate limiter. *)
Definition origin (req : Request) : string :=
  match ip req with
  | EmptyString => remoteAddress req
  | a => a
  end.

Definition subject (req : Request) : string :=
  match user req with
  | Some u => if (id u =? 0)%Z then "anonymous" else decimal (id u)
  | None => "anonymous"
  end.

(** A request object that takes every assignment, as that of Express 4,
    and one whose [query] cannot be assigned, as that of Express 5. *)
Definition all_writable : string → bool := λ _, true.

Definition read_only_query : string → bool :=
  λ name, negb (String.eqb name "query").

(** A key other than [__proto__]. *)
Definition ordinary_key (key : string) : bool :=
  negb (String.eqb key "__proto__").

(** A request that declares the length [cl] of its body. *)
Definition upload (cl : string) : Request :=
  {| user := None; body := VNull; query := VObj []; params := [];
     headers := [("content-length", cl)]; ip := "203.0.113.7";
     remoteAddress := "203.0.113.7"; path := "/upload"; method := "POST" |}.

(** The token that [authenticateToken] verifies, given the cookie. *)
Definition presented (cookie : option string) (req : Request) : option string :=
  truthy (match truthy cookie with
          | Some t => Some t
          | None => bearer req
          end).

(** A string without a space. *)
Definition spaceless (s : string) : bool :=
  all_chars (λ c, negb (Ascii.eqb c " ")) s.

(** A request with an Authorization header. *)
Definition authorized (h : string) : Request :=
  {| user := None; body := VNull; query := VObj []; params := [];
     headers := [("authorization", h)]; ip := "203.0.113.7";
     remoteAddress := "203.0.113.7"; path := "/users"; method := "GET" |}.

(** Sample helpers: no cookie, and a verifier that knows one token. *)
Definition no_cookie : Request → string → completion (option string) :=
  λ _ _, Normal None.

Definition knows (token : string) (u : Identity)
  : string → completion (option Identity) :=
  λ t, if String.eqb t token then Normal (Some u)
       else Throw (TypeError "invalid signature").

Definition not_colon (c : ascii) : bool := negb (Ascii.eqb c ":").

Definition digit_or_dash (c : ascii) : bool := is_digit c || Ascii.eqb c "-".

(** * Properties *)

#[local] Arguments String.append !s1 s2 : simpl nomatch.

(** A fact about one character, settled on each of the 256. *)
Ltac ascii_cases c :=
  destruct c as [[] [] [] [] [] [] [] []]; vm_compute; congruence.

(** Case analysis on the tests that stand in the way of an equation. *)
Ltac split_tests E :=
  repeat match type of E with
         | context [if ?c then _ else _] => destruct c
         | context [match ?c with Some _ => _ | None => _ end] => destruct c
         end.

(** ** The role registry *)

Section Registry.

Implicit Types (R : Registry) (r p : string) (ps : list string).

Lemma includes_In x l : includes x l = true ↔ In x l.
Proof.
  unfold includes. rewrite existsb_exists. split.
  - intros (y & Hy & Heq). apply String.eqb_eq in Heq. now subst.
  - intros H. exists x. split; [assumption | apply String.eqb_refl].
Qed.

(** A role that holds the wildcard is granted every permission, in
    any registry. *)
Lemma wildcard_grants R r role p :
  get R r = Own role → In "*" (permissions role) →
  hasPermissionIn R r p = Normal true.
Proof.
  intros Hget Hin. unfold hasPermissionIn. rewrite Hget.
  apply includes_In in Hin. now rewrite Hin.
Qed.

(** Without the wildcard, exactly the listed permissions are granted. *)
Lemma listed_only R r role p :
  get R r = Own role → ¬ In "*" (permissions role) →
  hasPermissionIn R r p = Normal (includes p (permissions role)).
Proof.
  intros Hget Hnin. unfold hasPermissionIn. rewrite Hget.
  destruct (includes "*" (permissions role)) eqn:E; [|reflexivity].
  apply includes_In in E. contradiction.
Qed.

(** The names that a registry object does not resolve: no own key and
    no member of [Object.prototype]. *)
Lemma get_undefined {A} (o : list (string * A)) r :
  get o r = Undefined ↔ own o r = None ∧ ¬ In r object_prototype_keys.
Proof.
  unfold get. destruct (own o r) as [a|]; [split; [discriminate | now intros [? _]]|].
  destruct (bool_decide_reflect (r ∈ object_prototype_keys)) as [Hin|Hnin];
    rewrite list_elem_of_In in *; split; try discriminate; try tauto.
Qed.

(** [hasPermission] answers [false] for such a name. *)
Lemma hasPermission_undefined r p :
  get ROLES r = Undefined → hasPermission r p = Normal false.
Proof. intros H. unfold hasPermission, hasPermissionIn. now rewrite H. Qed.

Lemma hasPermission_inherited r p :
  own ROLES r = None → In r object_prototype_keys →
  ∃ e, hasPermission r p = Throw e.
Proof.
  intros Hown Hin. unfold hasPermission, hasPermissionIn, get. rewrite Hown.
  rewrite bool_decide_eq_true_2 by (now apply list_elem_of_In).
  eauto.
Qed.

(** Whatever the name, a role outside the registry is never granted a
    permission: the check answers [false] or throws. *)
Lemma unregistered_never_granted r p :
  own ROLES r = None → hasPermission r p ≠ Normal true.
Proof.
  intros Hown. unfold hasPermission, hasPermissionIn, get. rewrite Hown.
  destruct (bool_decide _); discriminate.
Qed.

Lemma some_all_false {A} (f : A → completion bool) l :
  (∀ x, In x l → f x = Normal false) → some f l = Normal false.
Proof.
  induction l as [|x l IH]; intros H; [reflexivity|].
  simpl. rewrite (H x) by now left. simpl. apply IH.
  intros y Hy. apply H. now right.
Qed.

Lemma every_head_false {A} (f : A → completion bool) x l :
  f x = Normal false → every f (x :: l) = Normal false.
Proof. intros H. simpl. now rewrite H. Qed.

End Registry.

(** C1, as the code has it.  For every role name that the registry
    object does not resolve ([ROLES[name]] is undefined), every check
    denies: [hasPermission] is false for every permission,
    [hasAnyPermission] is false for every list, and [hasAllPermissions]
    is false for every list that is not empty; on the empty list it is
    true. *)
Theorem unknown_role_is_denied (r : string) :
  get ROLES r = Undefined →
  (∀ p, hasPermission r p = Normal false)
  ∧ (∀ ps, hasAnyPermission r ps = Normal false)
  ∧ (∀ ps, ps ≠ [] → hasAllPermissions r ps = Normal false)
  ∧ hasAllPermissions r [] = Normal true.
Proof.
  intros H. split; [|split; [|split]].
  - intros p. now apply hasPermission_undefined.
  - intros ps. apply some_all_false. intros p _. now apply hasPermission_undefined.
  - intros [|p ps] Hne; [contradiction|].
    apply every_head_false. now apply hasPermission_undefined.
  - reflexivity.
Qed.

Lemma unknown_role_is_denied_witness :
  get ROLES "ghost" = Undefined
  ∧ hasPermission "ghost" "users:read" = Normal false
  ∧ hasAnyPermission "ghost" ["users:read"; "admin:panel"] = Normal false
  ∧ hasAllPermissions "ghost" ["users:read"] = Normal false.
Proof.
  assert (H : get ROLES "ghost" = Undefined) by reflexivity.
  destruct (unknown_role_is_denied "ghost" H) as (H1 & H2 & H3 & _).
  split; [exact H|]. split; [apply H1|]. split; [apply H2|].
  apply H3. discriminate.
Defined.

(** C1 as stated fails twice.  The empty list is granted to a role
    that is not registered, and a name that the registry object
    inherits from [Object.prototype] makes [hasPermission] throw instead
    of answering false. *)
Lemma unknown_role_counterexample :
  (own ROLES "ghost" = None ∧ hasAllPermissions "ghost" [] = Normal true)
  ∧ (own ROLES "constructor" = None
     ∧ hasPermission "constructor" "users:read"
       = Throw (TypeError "Cannot read properties of undefined (reading 'includes')")).
Proof. repeat split. Qed.

(** C6.  [hasPermission("superadmin", p)] is true for every string [p],
    listed in the catalog or not: the role holds the wildcard. *)
Theorem superadmin_has_every_permission (p : string) :
  hasPermission "superadmin" p = Normal true.
Proof.
  unfold hasPermission.
  apply (wildcard_grants ROLES "superadmin"
           {| permissions := ["*"];
              description := "Super administrator with unrestricted access" |}).
  - reflexivity.
  - now left.
Qed.

(** C7.  The guard made by [requirePermission(p)] answers 401 to a
    request without identity; with an identity it answers 403, naming
    [p] at the end of the message, when [hasPermission] is false, calls
    the next stage when it is true, and answers 500 when the check
    throws. *)
Theorem requirePermission_decides (p : string) (req : Request) :
  (user req = None →
     fst (requirePermission p req) = authentication_required)
  ∧ (∀ u, user req = Some u → hasPermission (role u) p = Normal false →
       fst (requirePermission p req)
       = Respond 403 (json "Access denied"
                           ("Insufficient permissions. Required: " +:+ p)))
  ∧ (∀ u, user req = Some u → hasPermission (role u) p = Normal true →
       fst (requirePermission p req) = Next)
  ∧ (∀ u e, user req = Some u → hasPermission (role u) p = Throw e →
       fst (requirePermission p req)
       = Respond 500 (json "Internal server error" "Error checking permissions")).
Proof.
  unfold requirePermission. repeat split.
  - intros ->. reflexivity.
  - intros u -> ->. reflexivity.
  - intros u -> ->. reflexivity.
  - intros u e -> ->. reflexivity.
Qed.

Lemma requirePermission_decides_witness :
  fst (requirePermission "users:delete:any" (request_of None []))
  = authentication_required
  ∧ fst (requirePermission "users:delete:any"
           (request_of (Some {| id := 7; role := "user" |}) []))
    = Respond 403 (json "Access denied"
                        "Insufficient permissions. Required: users:delete:any")
  ∧ fst (requirePermission "users:delete:any"
           (request_of (Some {| id := 1; role := "admin" |}) []))
    = Next
  ∧ fst (requirePermission "users:delete:any"
           (request_of (Some {| id := 9; role := "valueOf" |}) []))
    = Respond 500 (json "Internal server error" "Error checking permissions").
Proof.
  split; [|split; [|split]].
  - apply (requirePermission_decides "users:delete:any" (request_of None [])).
    reflexivity.
  - apply (requirePermission_decides "users:delete:any"
             (request_of (Some {| id := 7; role := "user" |}) [])
             ) with (u := {| id := 7; role := "user" |}); reflexivity.
  - apply (requirePermission_decides "users:delete:any"
             (request_of (Some {| id := 1; role := "admin" |}) [])
             ) with (u := {| id := 1; role := "admin" |}); reflexivity.
  - eapply (requirePermission_decides "users:delete:any"
             (request_of (Some {| id := 9; role := "valueOf" |}) [])
             ) with (u := {| id := 9; role := "valueOf" |}); reflexivity.
Defined.

(** No guard of the permission family admits a role outside the
    registry, whatever its name: the answer is 403 or 500. *)
Lemma unregistered_never_admitted (p : string) (req : Request) (u : Identity) :
  user req = Some u → own ROLES (role u) = None →
  fst (requirePermission p req) ≠ Next.
Proof.
  intros Hu Hown. unfold requirePermission. rewrite Hu.
  pose proof (unregistered_never_granted (role u) p Hown) as H.
  destruct (hasPermission (role u) p) as [[|]|]; [congruence|discriminate..].
Qed.

(** C9.  For every role string, registered or not, the empty list is
    granted by [hasAllPermissions] and refused by [hasAnyPermission];
    hence [requireAllPermissions([])] admits every request that carries
    an identity and [requireAnyPermission([])] answers 403 to it. *)
Theorem empty_permission_list (r : string) :
  hasAllPermissions r [] = Normal true
  ∧ hasAnyPermission r [] = Normal false
  ∧ (∀ req u, user req = Some u → role u = r →
       fst (requireAllPermissions [] req) = Next
       ∧ fst (requireAnyPermission [] req)
         = Respond 403 (json "Access denied"
                             "Insufficient permissions. Required any of: ")).
Proof.
  split; [reflexivity|]. split; [reflexivity|].
  intros req u Hu _. unfold requireAllPermissions, requireAnyPermission.
  rewrite Hu. split; reflexivity.
Qed.

Lemma empty_permission_list_witness :
  fst (requireAllPermissions []
         (request_of (Some {| id := 3; role := "nobody" |}) [])) = Next
  ∧ fst (requireAnyPermission []
           (request_of (Some {| id := 3; role := "nobody" |}) []))
    = Respond 403 (json "Access denied"
                        "Insufficient permissions. Required any of: ").
Proof.
  destruct (empty_permission_list "nobody") as (_ & _ & H).
  apply (H (request_of (Some {| id := 3; role := "nobody" |}) [])
           {| id := 3; role := "nobody" |}); reflexivity.
Defined.

(** ** Ownership *)

Section Ownership.

Implicit Types (req : Request) (u : Identity).

Lemma is_admin_spec r :
  is_admin r = true ↔ r = "admin" ∨ r = "superadmin".
Proof.
  unfold is_admin. rewrite orb_true_iff, !String.eqb_eq. reflexivity.
Qed.

Lemma is_admin_false r :
  r ≠ "admin" → r ≠ "superadmin" → is_admin r = false.
Proof.
  intros H1 H2. destruct (is_admin r) eqn:E; [|reflexivity].
  apply is_admin_spec in E. tauto.
Qed.

Lemma strict_ne_false x y : strict_ne x y = false ↔ x = Fin y.
Proof.
  destruct x as [|z|b]; simpl; split; try discriminate.
  - intros H. apply negb_false_iff, Z.eqb_eq in H. now subst.
  - intros [= ->]. now rewrite Z.eqb_refl.
Qed.

Lemma strict_ne_true x y : strict_ne x y = true ↔ x ≠ Fin y.
Proof.
  rewrite <- strict_ne_false. destruct (strict_ne x y); split; congruence.
Qed.

(** A parameter that the route did not bind converts to a string
    without a numeric prefix. *)
Lemma missing_param_NaN (ps : list (string * value)) name :
  own ps name = None → parseInt (param_string ps name) = NaN.
Proof.
  intros H. unfold param_string, get. rewrite H.
  destruct (bool_decide _); [|reflexivity].
  destruct (String.eqb name "__proto__"); reflexivity.
Qed.

Lemma bound_param (ps : list (string * value)) name v :
  own ps name = Some v → param_string ps name = to_string v.
Proof. intros H. unfold param_string, get. now rewrite H. Qed.

(** The outcome of the guard for an identity that is no admin. *)
Lemma requireOwnership_plain idParam req u :
  user req = Some u → is_admin (role u) = false →
  fst (requireOwnership idParam req)
  = if strict_ne (parseInt (param_string (params req) idParam)) (id u)
    then access_denied_own else Next.
Proof.
  intros Hu Ha. unfold requireOwnership. rewrite Hu, Ha.
  now destruct (strict_ne _ _).
Qed.

Lemma requireOwnership_admin idParam req u :
  user req = Some u → is_admin (role u) = true →
  fst (requireOwnership idParam req) = Next.
Proof. intros Hu Ha. unfold requireOwnership. now rewrite Hu, Ha. Qed.

End Ownership.

(** C5.  [requireOwnership(idParam)] reads the named path parameter and
    compares its number with [identity.id]: an identity of role admin
    or superadmin always passes, any other passes when the numbers are
    equal and gets 403 when they differ.  With [requireOwnership("id")],
    the identity 5 of role user passes on the path id 5 and gets 403 on
    the path id 6, and the identity 5 of role admin passes on the path
    id 6. *)
Theorem requireOwnership_decides :
  (∀ idParam req u, user req = Some u →
     (role u = "admin" ∨ role u = "superadmin" →
        fst (requireOwnership idParam req) = Next)
     ∧ (role u ≠ "admin" → role u ≠ "superadmin" →
        parseInt (param_string (params req) idParam) = Fin (id u) →
        fst (requireOwnership idParam req) = Next)
     ∧ (role u ≠ "admin" → role u ≠ "superadmin" →
        parseInt (param_string (params req) idParam) ≠ Fin (id u) →
        fst (requireOwnership idParam req) = access_denied_own))
  ∧ (∀ req, user req = Some {| id := 5; role := "user" |} →
       own (params req) "id" = Some (VStr "5") →
       fst (requireOwnership "id" req) = Next)
  ∧ (∀ req, user req = Some {| id := 5; role := "user" |} →
       own (params req) "id" = Some (VStr "6") →
       fst (requireOwnership "id" req) = access_denied_own)
  ∧ (∀ req, user req = Some {| id := 5; role := "admin" |} →
       own (params req) "id" = Some (VStr "6") →
       fst (requireOwnership "id" req) = Next).
Proof.
  split; [|split; [|split]].
  - intros idParam req u Hu. split; [|split].
    + intros Ha. apply is_admin_spec in Ha.
      now apply (requireOwnership_admin idParam req u).
    + intros H1 H2 Heq.
      rewrite (requireOwnership_plain idParam req u Hu (is_admin_false _ H1 H2)).
      apply strict_ne_false in Heq. now rewrite Heq.
    + intros H1 H2 Hne.
      rewrite (requireOwnership_plain idParam req u Hu (is_admin_false _ H1 H2)).
      apply strict_ne_true in Hne. now rewrite Hne.
  - intros req Hu Hp.
    rewrite (requireOwnership_plain "id" req _ Hu eq_refl).
    now rewrite (bound_param _ _ _ Hp).
  - intros req Hu Hp.
    rewrite (requireOwnership_plain "id" req _ Hu eq_refl).
    now rewrite (bound_param _ _ _ Hp).
  - intros req Hu Hp.
    now apply (requireOwnership_admin "id" req {| id := 5; role := "admin" |}).
Qed.

Lemma requireOwnership_decides_witness :
  fst (requireOwnership "id"
         (request_of (Some {| id := 5; role := "user" |}) [("id", VStr "5")]))
  = Next
  ∧ fst (requireOwnership "id"
           (request_of (Some {| id := 5; role := "user" |}) [("id", VStr "6")]))
    = access_denied_own
  ∧ fst (requireOwnership "id"
           (request_of (Some {| id := 5; role := "admin" |}) [("id", VStr "6")]))
    = Next
  ∧ fst (requireOwnership "userId"
           (request_of (Some {| id := 12; role := "superadmin" |}) []))
    = Next.
Proof.
  destruct requireOwnership_decides as (Hgen & H5 & H6 & Ha).
  split; [|split; [|split]].
  - apply H5; reflexivity.
  - apply H6; reflexivity.
  - apply Ha; reflexivity.
  - destruct (Hgen "userId"
                 (request_of (Some {| id := 12; role := "superadmin" |}) [])
                 {| id := 12; role := "superadmin" |} eq_refl) as (H & _ & _).
    apply H. now right.
Defined.

(** C10.  For an identity that is neither admin nor superadmin the guard
    passes exactly when [parseInt] of the parameter string is the number
    [identity.id]; so the string 5abc passes for the identity 5.  The
    answer is never anything but the next stage or 403, and it is 403
    when the parameter is missing and when its string has no numeric
    prefix. *)
Theorem ownership_is_parseInt_equality (idParam : string) (req : Request)
    (u : Identity) :
  user req = Some u → role u ≠ "admin" → role u ≠ "superadmin" →
  (fst (requireOwnership idParam req) = Next
   ↔ parseInt (param_string (params req) idParam) = Fin (id u))
  ∧ (fst (requireOwnership idParam req) = Next
     ∨ fst (requireOwnership idParam req) = access_denied_own)
  ∧ (id u = 5%Z → own (params req) idParam = Some (VStr "5abc") →
     fst (requireOwnership idParam req) = Next)
  ∧ (own (params req) idParam = None →
     fst (requireOwnership idParam req) = access_denied_own)
  ∧ (parseInt (param_string (params req) idParam) = NaN →
     fst (requireOwnership idParam req) = access_denied_own).
Proof.
  intros Hu H1 H2.
  rewrite (requireOwnership_plain idParam req u Hu (is_admin_false _ H1 H2)).
  destruct (strict_ne _ _) eqn:E.
  - apply strict_ne_true in E.
    split; [|split; [|split; [|split]]].
    + split; [discriminate | contradiction].
    + now right.
    + intros Hid Hp. exfalso. apply E.
      rewrite (bound_param _ _ _ Hp), Hid. reflexivity.
    + reflexivity.
    + reflexivity.
  - apply strict_ne_false in E.
    split; [|split; [|split; [|split]]].
    + split; [now intros _ | reflexivity].
    + now left.
    + reflexivity.
    + intros Hp. rewrite (missing_param_NaN _ _ Hp) in E. discriminate.
    + intros Hn. rewrite Hn in E. discriminate.
Qed.

Lemma ownership_is_parseInt_equality_witness :
  fst (requireOwnership "id"
         (request_of (Some {| id := 5; role := "user" |}) [("id", VStr "5abc")]))
  = Next
  ∧ fst (requireOwnership "id"
           (request_of (Some {| id := 5; role := "user" |}) []))
    = access_denied_own.
Proof.
  split.
  - apply (ownership_is_parseInt_equality "id"
             (request_of (Some {| id := 5; role := "user" |}) [("id", VStr "5abc")])
             {| id := 5; role := "user" |}); try reflexivity; discriminate.
  - apply (ownership_is_parseInt_equality "id"
             (request_of (Some {| id := 5; role := "user" |}) [])
             {| id := 5; role := "user" |}); try reflexivity; discriminate.
Defined.
(** ** The size limit *)

Section SizeGrammar.

Implicit Types (p q : ascii → bool) (s a b : string) (c : ascii).

Lemma all_chars_append p a b :
  all_chars p (a +:+ b) = all_chars p a && all_chars p b.
Proof.
  induction a as [|c a IH]; simpl; [reflexivity|].
  now rewrite IH, andb_assoc.
Qed.

Lemma span_append p s a b : span p s = (a, b) → s = a +:+ b.
Proof.
  revert a b. induction s as [|c s IH]; simpl; intros a b H.
  - now inversion H.
  - destruct (p c).
    + destruct (span p s) as [a' b'] eqn:E. inversion H; subst.
      simpl. f_equal. now apply (IH a' b).
    + now inversion H.
Qed.

Lemma span_all p s a b : span p s = (a, b) → all_chars p a = true.
Proof.
  revert a b. induction s as [|c s IH]; simpl; intros a b H.
  - now inversion H.
  - destruct (p c) eqn:Hc.
    + destruct (span p s) as [a' b'] eqn:E. inversion H; subst.
      simpl. rewrite Hc. simpl. now apply (IH a' b).
    + now inversion H.
Qed.

Lemma span_stops p s a b : span p s = (a, b) → stops p b.
Proof.
  revert a b. induction s as [|c s IH]; simpl; intros a b H.
  - now inversion H.
  - destruct (p c) eqn:Hc.
    + destruct (span p s) as [a' b'] eqn:E. inversion H; subst.
      now apply (IH a' b).
    + inversion H; subst. exact Hc.
Qed.

Lemma span_greedy p a b :
  all_chars p a = true → stops p b → span p (a +:+ b) = (a, b).
Proof.
  induction a as [|c a IH]; simpl; intros Ha Hb.
  - destruct b as [|c b]; simpl in *; [reflexivity | now rewrite Hb].
  - apply andb_true_iff in Ha as [Hc Ha]. rewrite Hc, (IH Ha Hb). reflexivity.
Qed.

Lemma stops_append p q a b :
  all_chars q a = true → (∀ c, q c = true → p c = false) → stops p b →
  stops p (a +:+ b).
Proof.
  intros Ha Hq Hb. destruct a as [|c a]; simpl in *; [assumption|].
  apply andb_true_iff in Ha as [Hc _]. now apply Hq.
Qed.

Lemma az_not_digit c : is_az c = true → is_digit c = false.
Proof. ascii_cases c. Qed.

Lemma space_not_digit c : is_space c = true → is_digit c = false.
Proof. ascii_cases c. Qed.

Lemma az_not_space c : is_az c = true → is_space c = false.
Proof. ascii_cases c. Qed.

Lemma az_not_dot c : is_az c = true → Ascii.eqb c "." = false.
Proof. ascii_cases c. Qed.

Lemma space_not_dot c : is_space c = true → Ascii.eqb c "." = false.
Proof. ascii_cases c. Qed.

Lemma dot_not_digit c : Ascii.eqb c "." = true → is_digit c = false.
Proof. ascii_cases c. Qed.

Lemma append_assoc a b s : (a +:+ b) +:+ s = a +:+ b +:+ s.
Proof. induction a as [|c a IH]; simpl; [reflexivity | now rewrite IH]. Qed.

Lemma append_empty a : a +:+ "" = a.
Proof. induction a as [|c a IH]; simpl; [reflexivity | now rewrite IH]. Qed.

(** The tail of a size string, white space and letters, stops the
    digits and does not begin with a dot. *)
Lemma tail_stops_digits ws unit :
  all_chars is_space ws = true → all_chars is_az unit = true →
  stops is_digit (ws +:+ unit).
Proof.
  intros Hws Hu. apply (stops_append _ is_space); auto using space_not_digit.
  rewrite <- (append_empty unit).
  apply (stops_append _ is_az); simpl; auto using az_not_digit.
Qed.

Lemma tail_no_fraction ws unit :
  all_chars is_space ws = true → all_chars is_az unit = true →
  take_fraction (ws +:+ unit) = ("", ws +:+ unit).
Proof.
  intros Hws Hu. destruct ws as [|c ws]; simpl in *.
  - destruct unit as [|c unit]; simpl in *; [reflexivity|].
    apply andb_true_iff in Hu as [Hc _]. now rewrite (az_not_dot c Hc).
  - apply andb_true_iff in Hws as [Hc _]. now rewrite (space_not_dot c Hc).
Qed.

Lemma take_fraction_spec f ws unit :
  fraction f → all_chars is_space ws = true → all_chars is_az unit = true →
  take_fraction (f +:+ ws +:+ unit) = (f, ws +:+ unit).
Proof.
  intros [->|(ds & -> & Hne & Hds)] Hws Hu.
  - now apply (tail_no_fraction ws unit).
  - simpl. rewrite (span_greedy is_digit ds (ws +:+ unit) Hds)
      by now apply tail_stops_digits.
    destruct ds; [contradiction | reflexivity].
Qed.

Lemma fraction_stops_digits f s :
  fraction f → stops is_digit s → stops is_digit (f +:+ s).
Proof. intros [->|(ds & -> & _)] Hs; [assumption | reflexivity]. Qed.

(** Every string of the grammar is matched, with the number and the
    unit as the two groups. *)
Lemma size_match_complete int f ws unit :
  int ≠ "" → all_chars is_digit int = true → fraction f →
  all_chars is_space ws = true → all_chars is_az unit = true →
  size_match (int +:+ f +:+ ws +:+ unit)
  = Some (int +:+ f, match unit with EmptyString => None | _ => Some unit end).
Proof.
  intros Hne Hint Hf Hws Hu. unfold size_match.
  rewrite (span_greedy is_digit int _ Hint)
    by (apply fraction_stops_digits; [assumption | now apply tail_stops_digits]).
  destruct int as [|c int]; [contradiction|].
  rewrite (take_fraction_spec f ws unit Hf Hws Hu).
  rewrite (span_greedy is_space ws unit Hws).
  2:{ rewrite <- (append_empty unit).
      apply (stops_append _ is_az); simpl; auto using az_not_space. }
  rewrite <- (append_empty unit) at 1.
  rewrite (span_greedy is_az unit "" Hu I). reflexivity.
Qed.

Lemma take_fraction_sound r1 f r2 :
  take_fraction r1 = (f, r2) → r1 = f +:+ r2 ∧ fraction f.
Proof.
  unfold take_fraction. destruct r1 as [|c r]; [intros [= <- <-]; split; [reflexivity | now left]|].
  destruct (Ascii.eqb c ".") eqn:Hc.
  - apply Ascii.eqb_eq in Hc. subst c.
    destruct (span is_digit r) as [ds r'] eqn:E.
    destruct ds as [|d ds].
    + intros [= <- <-]. split; [reflexivity | now left].
    + intros [= <- <-]. split.
      * simpl. f_equal. apply (span_append _ _ _ _ E).
      * right. exists (String d ds). split; [reflexivity|].
        split; [discriminate | apply (span_all _ _ _ _ E)].
  - intros [= <- <-]. split; [reflexivity | now left].
Qed.

(** Every match is a string of the grammar. *)
Lemma size_match_sound s g :
  size_match s = Some g → size_grammar s.
Proof.
  unfold size_match.
  destruct (span is_digit s) as [int r1] eqn:E1.
  destruct int as [|c int]; [discriminate|].
  destruct (take_fraction r1) as [f r2] eqn:E2.
  destruct (span is_space r2) as [ws r3] eqn:E3.
  destruct (span is_az r3) as [unit r4] eqn:E4.
  destruct r4; [|discriminate]. intros _.
  apply take_fraction_sound in E2 as [-> Hf].
  exists (String c int), f, ws, unit.
  rewrite (span_append _ _ _ _ E1), (span_append _ _ _ _ E3) at 1.
  rewrite (span_append _ _ _ _ E4), append_empty at 1.
  split; [reflexivity|]. split; [discriminate|].
  split; [apply (span_all _ _ _ _ E1)|]. split; [assumption|].
  split; [apply (span_all _ _ _ _ E3) | apply (span_all _ _ _ _ E4)].
Qed.

Lemma size_match_none s : size_match s = None ↔ ¬ size_grammar s.
Proof.
  split.
  - intros Hn (int & f & ws & unit & -> & Hne & Hint & Hf & Hws & Hu).
    rewrite size_match_complete in Hn by assumption. discriminate.
  - intros Hn. destruct (size_match s) as [g|] eqn:E; [|reflexivity].
    exfalso. apply Hn. now apply (size_match_sound s g).
Qed.

Lemma digit_lower c : is_digit c = true → lower c = c.
Proof. ascii_cases c. Qed.

Lemma space_lower c : is_space c = true → lower c = c.
Proof. ascii_cases c. Qed.

Lemma az_lower c : is_az c = true → lower c = c.
Proof. ascii_cases c. Qed.

Lemma toLowerCase_append a b :
  toLowerCase (a +:+ b) = toLowerCase a +:+ toLowerCase b.
Proof. induction a as [|c a IH]; simpl; [reflexivity | now rewrite IH]. Qed.

Lemma toLowerCase_fixed p s :
  (∀ c, p c = true → lower c = c) → all_chars p s = true → toLowerCase s = s.
Proof.
  intros Hp. induction s as [|c s IH]; simpl; [reflexivity|].
  intros H. apply andb_true_iff in H as [Hc Hs]. now rewrite (Hp c Hc), IH.
Qed.

Lemma unit_cases u n :
  own units u = Some n →
  (u = "b" ∧ n = 1%Z) ∨ (u = "kb" ∧ n = 1024%Z)
  ∨ (u = "mb" ∧ n = (1024 * 1024)%Z) ∨ (u = "gb" ∧ n = (1024 * 1024 * 1024)%Z).
Proof.
  unfold units. cbn [own].
  destruct (String.eqb_spec "b" u) as [<-|_]; [intros [= <-]; tauto|].
  destruct (String.eqb_spec "kb" u) as [<-|_]; [intros [= <-]; tauto|].
  destruct (String.eqb_spec "mb" u) as [<-|_]; [intros [= <-]; tauto|].
  destruct (String.eqb_spec "gb" u) as [<-|_]; [intros [= <-]; tauto|].
  discriminate.
Qed.

Lemma mathInt_nonneg_from (R : Z) (l : list Z) (acc : Z) :
  (0 ≤ R)%Z → (0 ≤ acc)%Z → Forall (λ d, 0 ≤ d)%Z l →
  (0 ≤ fold_left (λ acc d, acc * R + d) l acc)%Z.
Proof.
  intros HR Hacc H. revert acc Hacc.
  induction H as [|d l Hd _ IH]; intros acc Hacc; simpl; [assumption|].
  apply IH. nia.
Qed.

Lemma digits_nonneg s : Forall (λ d, 0 ≤ d)%Z (digits 10 s).
Proof.
  induction s as [|c s IH]; simpl; [constructor|].
  destruct (radix_digit 10 c) as [d|] eqn:E; [|constructor].
  constructor; [|exact IH].
  unfold radix_digit in E. destruct (digit_value c) as [d'|] eqn:E'; [|discriminate].
  destruct (d' <? 10)%Z; [|discriminate]. injection E as <-.
  unfold digit_value in E'.
  repeat match type of E' with
         | context [if ?b then _ else _] => destruct b
         end; try discriminate; injection E' as <-; lia.
Qed.

Lemma decimal_value_nonneg s : (0 ≤ decimal_value s)%Z.
Proof.
  unfold decimal_value, mathInt.
  apply mathInt_nonneg_from; [lia | lia | apply digits_nonneg].
Qed.

(** *** Doubles *)

Lemma Qred_integer z : Qred (inject_Z z) = inject_Z z.
Proof. apply Qred_identity. simpl. apply Z.gcd_1_r. Qed.

Lemma shift_up x k : (0 ≤ k)%Z → shift x k = (x * 2 ^ k)%Z.
Proof. intros H. unfold shift. now rewrite Z.max_l. Qed.

Lemma shift_down x k : (k ≤ 0)%Z → shift x k = x.
Proof. intros H. unfold shift. rewrite Z.max_r by assumption. apply Z.mul_1_r. Qed.

(** A natural number below [2^53] is a double: rounding keeps it. *)
Lemma nearest_integer z :
  (0 ≤ z < 2 ^ 53)%Z → nearest (inject_Z z) = Bytes (inject_Z z).
Proof.
  intros [H0 H53]. unfold nearest. cbn [Qnum Qden inject_Z].
  destruct (Z.leb_spec z 0) as [Hz|Hz].
  { now replace z with 0%Z by lia. }
  change (Z.log2 1) with 0%Z. rewrite Z.sub_0_r.
  pose proof (Z.log2_spec z Hz) as [Hlo Hhi].
  pose proof (Z.log2_nonneg z) as Hk.
  assert (Hk53 : (Z.log2 z < 53)%Z) by (now apply Z.log2_lt_pow2).
  set (k := Z.log2 z) in *.
  rewrite (shift_up 1 k Hk), (shift_down z (- k)) by lia.
  rewrite Z.mul_1_l.
  destruct (Z.leb_spec (2 ^ k) z) as [_|Hc]; [|lia].
  rewrite Z.max_l by lia.
  rewrite (shift_up z (- (k - 52))), (shift_down 1 (k - 52)) by lia.
  rewrite Z.div_1_r, Z.mod_1_r.
  change (2 * 0 <? 1)%Z with true. cbv iota.
  rewrite (shift_down _ (k - 52)), (shift_up 1 (- (k - 52))) by lia.
  rewrite Z.mul_1_l.
  assert (Hp : (0 < 2 ^ (- (k - 52)))%Z) by (apply Z.pow_pos_nonneg; lia).
  assert (Hn : (z * 2 ^ (- (k - 52)) < 2 ^ 53)%Z).
  { replace 53%Z with ((k + 1) + (- (k - 52)))%Z by lia.
    rewrite Z.pow_add_r by lia. nia. }
  destruct (Z.leb_spec (2 ^ 1024) (z * 2 ^ (- (k - 52)))) as [Hc|_].
  { exfalso. assert (2 ^ 53 < 2 ^ 1024)%Z by (apply Z.pow_lt_mono_r; lia). lia. }
  f_equal. rewrite <- Qred_integer. apply Qred_complete.
  unfold Qeq. cbn [Qnum Qden inject_Z]. rewrite Z2Pos.id by assumption. ring.
Qed.

(** So is a product below [2^53]: the multiplication is exact. *)
Lemma times_integer z n :
  (0 ≤ z)%Z → (0 < n)%Z → (z * n < 2 ^ 53)%Z →
  times (nearest (inject_Z z)) n = Bytes (inject_Z (z * n)).
Proof.
  intros Hz Hn H. rewrite nearest_integer by nia.
  unfold times. apply (nearest_integer (z * n)). nia.
Qed.

Lemma parseFloat_integer int :
  all_chars is_digit int = true →
  parseFloat int = nearest (inject_Z (decimal_value int)).
Proof.
  intros Hint. unfold parseFloat.
  pose proof (span_greedy is_digit int "" Hint I) as H.
  rewrite append_empty in H. now rewrite H.
Qed.

(** The match of a whole number followed by a unit. *)
Lemma size_match_units int ws u :
  int ≠ "" → all_chars is_digit int = true → all_chars is_space ws = true →
  u ≠ "" → all_chars is_az u = true →
  size_match (toLowerCase (int +:+ ws +:+ u)) = Some (int, Some u).
Proof.
  intros Hne Hint Hws Hu0 Haz.
  rewrite !toLowerCase_append.
  rewrite (toLowerCase_fixed is_digit int digit_lower Hint).
  rewrite (toLowerCase_fixed is_space ws space_lower Hws).
  rewrite (toLowerCase_fixed is_az u az_lower Haz).
  pose proof (size_match_complete int "" ws u Hne Hint (or_introl eq_refl) Hws Haz)
    as Hm.
  simpl in Hm. rewrite Hm, append_empty.
  destruct u as [|c u]; [contradiction | reflexivity].
Qed.

(** The size of a whole number of units, by the unit table: the double
    nearest to the number, times the unit. *)
Lemma parseSize_units int ws u n :
  int ≠ "" → all_chars is_digit int = true → all_chars is_space ws = true →
  own units u = Some n →
  parseSize (int +:+ ws +:+ u) = times (nearest (inject_Z (decimal_value int))) n.
Proof.
  intros Hne Hint Hws Hu.
  assert (Haz : all_chars is_az u = true ∧ u ≠ "").
  { destruct (unit_cases u n Hu) as [[-> _]|[[-> _]|[[-> _]|[-> _]]]];
      split; (reflexivity || discriminate). }
  destruct Haz as [Haz Hu0].
  unfold parseSize. rewrite (size_match_units int ws u Hne Hint Hws Hu0 Haz).
  unfold get. now rewrite Hu, (parseFloat_integer int Hint).
Qed.

Lemma unit_positive u n : own units u = Some n → (0 < n)%Z.
Proof.
  intros Hu.
  destruct (unit_cases u n Hu) as [[_ ->]|[[_ ->]|[[_ ->]|[_ ->]]]]; lia.
Qed.

End SizeGrammar.

(** C8.  The size parser reads a number and a unit and multiplies by the
    unit table [b: 1, kb: 1024, mb: 1024^2, gb: 1024^3]; the string 10mb
    is exactly 10 x 1024 x 1024, and every string outside the size
    grammar, such as not-a-size, is 0.  The number and the product are
    doubles: a whole number of units is exactly the product as long as
    that is below 2^53, and the nearest double beyond, so that
    9007199254740993b is 9007199254740992. *)
Theorem parseSize_table :
  parseSize "10mb" = Bytes (inject_Z (10 * 1024 * 1024))
  ∧ (∀ int ws u n,
       int ≠ "" → all_chars is_digit int = true →
       all_chars is_space ws = true → own units u = Some n →
       parseSize (int +:+ ws +:+ u)
       = times (nearest (inject_Z (decimal_value int))) n
       ∧ ((decimal_value int * n < 2 ^ 53)%Z →
          parseSize (int +:+ ws +:+ u) = Bytes (inject_Z (decimal_value int * n))))
  ∧ (∀ u n, own units u = Some n ↔
       (u = "b" ∧ n = 1%Z) ∨ (u = "kb" ∧ n = 1024%Z)
       ∨ (u = "mb" ∧ n = (1024 * 1024)%Z)
       ∨ (u = "gb" ∧ n = (1024 * 1024 * 1024)%Z))
  ∧ (∀ s, ¬ size_grammar (toLowerCase s) → parseSize s = Bytes (inject_Z 0))
  ∧ ¬ size_grammar (toLowerCase "not-a-size")
  ∧ parseSize "not-a-size" = Bytes (inject_Z 0)
  ∧ parseSize "1.5kb" = Bytes (inject_Z 1536)
  ∧ parseSize "9007199254740993b" = Bytes (inject_Z 9007199254740992).
Proof.
  split; [vm_compute; reflexivity|]. split; [|split; [|split; [|split; [|split]]]].
  - intros int ws u n Hne Hint Hws Hu.
    pose proof (parseSize_units int ws u n Hne Hint Hws Hu) as H.
    split; [exact H|]. intros Hlt. rewrite H.
    apply times_integer;
      [apply decimal_value_nonneg | now apply (unit_positive u) | assumption].
  - intros u n. split; [apply unit_cases|].
    intros [[-> ->]|[[-> ->]|[[-> ->]|[-> ->]]]]; reflexivity.
  - intros s Hs. apply size_match_none in Hs. unfold parseSize. now rewrite Hs.
  - apply size_match_none. reflexivity.
  - reflexivity.
  - split; vm_compute; reflexivity.
Qed.

Lemma parseSize_table_witness :
  parseSize "512 kb" = Bytes (inject_Z (512 * 1024))
  ∧ parseSize "10 megabytes!" = Bytes (inject_Z 0).
Proof.
  destruct parseSize_table as (_ & Hunits & _ & Hzero & _).
  split.
  - apply (Hunits "512" " " "kb" 1024%Z); (reflexivity || discriminate).
  - apply Hzero. apply size_match_none. reflexivity.
Defined.

(** ** The suspicious activity detector *)

(** Induction over a value and the values nested in it. *)
Lemma value_nested_ind (P : value → Prop) :
  P VUndefined → P VNull → (∀ b, P (VBool b)) → (∀ z, P (VNum z)) →
  (∀ s, P (VStr s)) →
  (∀ items, Forall P items → P (VArr items)) →
  (∀ props, Forall (λ kv, P (snd kv)) props → P (VObj props)) →
  (∀ proto props,
     P proto → Forall (λ kv, P (snd kv)) props → P (VProto proto props)) →
  ∀ v, P v.
Proof.
  intros Hu Hn Hb Hz Hs Ha Ho Hp.
  fix IH 1. intros [| |b|z|s|items|props|proto props];
    [exact Hu | exact Hn | apply Hb | apply Hz | apply Hs | | |].
  - apply Ha. induction items as [|x items IHl]; constructor;
      [apply IH | exact IHl].
  - apply Ho. induction props as [|[k x] props IHl]; constructor;
      [apply IH | exact IHl].
  - apply Hp; [apply IH|]. induction props as [|[k x] props IHl]; constructor;
      [apply IH | exact IHl].
Qed.

Section Detector.

Implicit Types (p : pattern) (r : regex) (rs : list regex) (s : string)
  (v : value).

(** *** One regular expression *)

Lemma search_found p s i n e :
  search p s i n = Some e → ∃ j, i ≤ j < i + n ∧ match_at p s j = Some e.
Proof.
  revert i. induction n as [|n IH]; simpl; intros i H; [discriminate|].
  destruct (match_at p s i) as [e'|] eqn:E.
  - inversion H; subst. exists i. split; [lia | assumption].
  - destruct (IH _ H) as (j & Hj & Hm). exists j. split; [lia | assumption].
Qed.

Lemma search_finds p s i n j e :
  i ≤ j < i + n → match_at p s j = Some e → search p s i n ≠ None.
Proof.
  revert i. induction n as [|n IH]; simpl; intros i Hj Hm; [lia|].
  destruct (match_at p s i) as [e'|] eqn:E; [discriminate|].
  apply IH; [|assumption].
  assert (i ≠ j) by (intros ->; congruence). lia.
Qed.

(** A test from [lastIndex] 0 succeeds exactly on a match. *)
Lemma hit_matches p s : hit p s = true ↔ matches p s.
Proof.
  unfold hit, exec, matches. split.
  - destruct (search p s 0 _) as [e|] eqn:E; [|discriminate]. intros _.
    destruct (search_found _ _ _ _ _ E) as (j & Hj & Hm).
    exists j, e. split; [lia | assumption].
  - intros (j & e & Hj & Hm).
    destruct (search p s 0 _) eqn:E; [reflexivity|].
    exfalso. apply (search_finds p s 0 (S (String.length s) - 0) j e); [lia|..];
      assumption.
Qed.

(** A failed test leaves [lastIndex] at 0. *)
Lemma test_false r s r' :
  test r s = (false, r') → lastIndex r' = 0 ∧ source r' = source r.
Proof.
  unfold test. destruct (exec _ _ _); intros [= <-]; split; reflexivity.
Qed.

Lemma test_fresh r s :
  lastIndex r = 0 →
  fst (test r s) = hit (source r) s
  ∧ (fst (test r s) = false → snd (test r s) = r).
Proof.
  intros H0. unfold test, hit. rewrite H0.
  destruct (exec (source r) s 0); split; simpl; try congruence.
  intros _. destruct r; simpl in *. now subst.
Qed.

(** *** The array of patterns on one string *)

Lemma checkString_fresh rs s :
  fresh rs →
  fst (checkString rs s) = threat_in rs s
  ∧ (fst (checkString rs s) = false → snd (checkString rs s) = rs).
Proof.
  unfold threat_in.
  induction 1 as [|r rs Hr Hrs IH]; simpl; [split; reflexivity|].
  destruct (test_fresh r s Hr) as [Hb Hst].
  destruct (test r s) as [b r'] eqn:E. simpl in Hb, Hst. subst b.
  destruct (hit (source r) s); simpl; [split; [reflexivity | discriminate]|].
  rewrite (Hst eq_refl).
  destruct IH as [IHb IHst]. destruct (checkString rs s) as [b' rs']. simpl in *.
  split; [assumption|]. intros Hf. now rewrite (IHst Hf).
Qed.

End Detector.

(** *** The walk *)

Section Walk.

Variable rs : list regex.
Hypothesis rs_fresh : fresh rs.

Lemma first_hit_sound {A} (visit : list regex → A → bool * list regex)
    (P : A → bool) (l : list A) :
  Forall (sound rs visit P) l → sound rs (first_hit visit) (existsb P) l.
Proof.
  unfold sound.
  induction 1 as [|x l [Hb Hst] Hl IH]; simpl; [split; reflexivity|].
  destruct (visit rs x) as [b rs'] eqn:E. simpl in Hb, Hst. subst b.
  destruct (P x); simpl; [split; [reflexivity | discriminate]|].
  rewrite (Hst eq_refl). exact IH.
Qed.

Lemma checkString_sound s : sound rs checkString (threat_in rs) s.
Proof. apply checkString_fresh, rs_fresh. Qed.

Lemma existsb_flat_map {A B} (P : B → bool) (f : A → list B) (l : list A) :
  existsb P (flat_map f l) = existsb (λ x, existsb P (f x)) l.
Proof.
  induction l as [|x l IH]; simpl; [reflexivity|].
  now rewrite existsb_app, IH.
Qed.

Lemma visit_entry_sound x :
  nested_sound rs x →
  sound rs visit_entry (λ v, existsb (threat_in rs) (strings v)) x.
Proof.
  intros H. destruct x as [| |b|z|s|items|props|proto props];
    try (split; reflexivity); try exact H.
  destruct (checkString_sound s) as [Hb Hst].
  split; simpl; [now rewrite orb_false_r | exact Hst].
Qed.

Lemma checkObject_nested v : nested_sound rs v.
Proof.
  induction v as [| |b|z|s|items IH|props IH|proto props _ IH]
    using value_nested_ind; try exact I.
  - unfold nested_sound, sound. simpl strings. rewrite existsb_flat_map.
    apply (first_hit_sound visit_entry
             (λ v, existsb (threat_in rs) (strings v)) items).
    eapply Forall_impl; [exact IH|]. intros x. apply visit_entry_sound.
  - unfold nested_sound, sound. simpl strings. rewrite existsb_flat_map.
    apply (first_hit_sound (λ p '(_, x), visit_entry p x)
             (λ kv, existsb (threat_in rs) (strings (snd kv))) props).
    eapply Forall_impl; [exact IH|]. intros [k x]. apply (visit_entry_sound x).
  - unfold nested_sound, sound. simpl strings. rewrite existsb_flat_map.
    apply (first_hit_sound (λ p '(_, x), visit_entry p x)
             (λ kv, existsb (threat_in rs) (strings (snd kv))) props).
    eapply Forall_impl; [exact IH|]. intros [k x]. apply (visit_entry_sound x).
Qed.

(** [checkObject] on fresh patterns: it answers whether a scanned
    string is a threat, and a false answer leaves the patterns fresh. *)
Lemma checkObject_sound v :
  sound rs checkObject (λ v, existsb (threat_in rs) (scanned v)) v.
Proof.
  destruct v as [| |b|z|s|items|props|proto props]; try (split; reflexivity).
  - apply (first_hit_sound checkString (threat_in rs) (chars s)).
    apply List.Forall_forall. intros x _. apply checkString_sound.
  - apply (checkObject_nested (VArr items)).
  - apply (checkObject_nested (VObj props)).
  - apply (checkObject_nested (VProto proto props)).
Qed.

End Walk.

Section Requests.

Implicit Types (req : Request) (s : string) (v : value).

Lemma suspiciousPatterns_fresh : fresh suspiciousPatterns.
Proof. repeat constructor. Qed.

Lemma check_header_sound h :
  sound suspiciousPatterns check_header (λ h, existsb threat (present h)) h.
Proof.
  destruct h as [[|c h]|]; try (split; reflexivity).
  destruct (checkString_sound _ suspiciousPatterns_fresh (String c h)) as [Hb Hst].
  split; simpl; [now rewrite orb_false_r | exact Hst].
Qed.

(** The detector flags a request exactly when one of the strings it
    looks at is a threat: the state of the regular expressions never
    hides a match. *)
Lemma suspicious_inspected req :
  suspicious req = existsb threat (inspected req).
Proof.
  unfold suspicious, inspected, threat. rewrite !existsb_app.
  destruct (checkObject_sound _ suspiciousPatterns_fresh (body req)) as [Hb Hst].
  destruct (checkObject _ (body req)) as [b rs1]. cbn [fst snd] in Hb, Hst.
  rewrite <- Hb. destruct b; [reflexivity|]. rewrite (Hst eq_refl).
  clear Hb Hst. cbn [orb].
  destruct (checkObject_sound _ suspiciousPatterns_fresh (query req)) as [Hb Hst].
  destruct (checkObject _ (query req)) as [b rs2]. cbn [fst snd] in Hb, Hst.
  rewrite <- Hb. destruct b; [reflexivity|]. rewrite (Hst eq_refl).
  clear Hb Hst. cbn [orb].
  destruct (checkObject_sound _ suspiciousPatterns_fresh (VObj (params req)))
    as [Hb Hst].
  destruct (checkObject _ (VObj (params req))) as [b rs3].
  cbn [fst snd] in Hb, Hst.
  rewrite <- Hb. destruct b; [reflexivity|]. rewrite (Hst eq_refl).
  clear Hb Hst. cbn [orb].
  destruct (check_header_sound (req_get req "User-Agent")) as [Hb Hst].
  destruct (check_header _ (req_get req "User-Agent")) as [b rs4].
  cbn [fst snd] in Hb, Hst. unfold threat in Hb.
  rewrite <- Hb. destruct b; [reflexivity|]. rewrite (Hst eq_refl).
  clear Hb Hst. cbn [orb].
  apply check_header_sound.
Qed.

Lemma occurs_strings s v : occurs s v ↔ In s (strings v).
Proof.
  induction v as [| |b|z|t|items IH|props IH|proto props _ IH]
    using value_nested_ind;
    simpl; try (split; [inversion 1 | contradiction]).
  - split; [inversion 1; subst; now left | intros [->|[]]; constructor].
  - rewrite in_flat_map. rewrite List.Forall_forall in IH. split.
    + inversion 1 as [|? x Hin Hx| |]; subst. exists x. split; [assumption|].
      now apply IH.
    + intros (x & Hin & Hx). apply (occurs_item s items x Hin). now apply IH.
  - rewrite in_flat_map. rewrite List.Forall_forall in IH. split.
    + inversion 1 as [| |? k x Hin Hx|]; subst. exists (k, x).
      split; [assumption|]. now apply (IH (k, x)).
    + intros ([k x] & Hin & Hx). apply (occurs_prop s props k x Hin).
      now apply (IH (k, x)).
  - rewrite in_flat_map. rewrite List.Forall_forall in IH. split.
    + inversion 1 as [| | |? ? k x Hin Hx]; subst. exists (k, x).
      split; [assumption|]. now apply (IH (k, x)).
    + intros ([k x] & Hin & Hx). apply (occurs_own s proto props k x Hin).
      now apply (IH (k, x)).
Qed.

Lemma contains_scanned v s : contains v s → In s (scanned v).
Proof.
  destruct v; simpl; try contradiction; intros H;
    now apply occurs_strings in H.
Qed.

Lemma threat_pattern s :
  threat s = true ↔ ∃ r, In r suspiciousPatterns ∧ matches (source r) s.
Proof.
  unfold threat, threat_in. rewrite existsb_exists.
  split; intros (r & Hr & H); exists r; (split; [assumption|]);
    now apply hit_matches.
Qed.

End Requests.

(** *** The four kinds of threat *)

Section Kinds.

Implicit Types (a b w s : string) (c : ascii) (ic : bool).

Lemma char_at_append a s i :
  char_at (a +:+ s) (String.length a + i) = char_at s i.
Proof. induction a as [|c a IH]; simpl; [reflexivity | exact IH]. Qed.

Lemma char_at_end a c b : char_at (a +:+ String c b) (String.length a) = Some c.
Proof.
  rewrite <- (Nat.add_0_r (String.length a)). now rewrite char_at_append.
Qed.

Lemma length_append a b :
  String.length (a +:+ b) = String.length a + String.length b.
Proof. induction a as [|c a IH]; simpl; [reflexivity | now rewrite IH]. Qed.

Lemma word_here_append ic w w' a b :
  same_word ic w w' = true →
  word_here ic w (a +:+ w' +:+ b) (String.length a) = true.
Proof.
  revert w' a. induction w as [|x w IH]; intros [|y w'] a H; simpl in *;
    try discriminate; [reflexivity|].
  apply andb_true_iff in H as [Hc Hw].
  rewrite char_at_end, Hc. simpl.
  specialize (IH w' (a +:+ String y "") Hw).
  rewrite append_assoc in IH. simpl in IH.
  rewrite length_append in IH. simpl in IH.
  now rewrite Nat.add_1_r in IH.
Qed.

Lemma same_word_length ic w w' :
  same_word ic w w' = true → String.length w = String.length w'.
Proof.
  revert w'. induction w as [|x w IH]; intros [|y w'] H; simpl in *;
    try discriminate; [reflexivity|].
  apply andb_true_iff in H as [_ H]. now rewrite (IH w' H).
Qed.

Lemma matches_at p s i e :
  i ≤ String.length s → match_at p s i = Some e → matches p s.
Proof. intros Hi H. exists i, e. split; assumption. Qed.

Lemma find_finds {A} (f : A → bool) (l : list A) x :
  In x l → f x = true → ∃ y, find f l = Some y.
Proof.
  induction l as [|z l IH]; simpl; [contradiction|].
  intros [->|Hin] Hx.
  - rewrite Hx. eauto.
  - destruct (f z); eauto.
Qed.

(** A character of the class anywhere in the string. *)
Lemma class_matches chars a c b :
  In c chars → matches (Class chars) (a +:+ String c b).
Proof.
  intros Hin. apply (matches_at _ _ (String.length a) (S (String.length a))).
  - rewrite length_append. lia.
  - simpl. rewrite char_at_end.
    assert (E : existsb (Ascii.eqb c) chars = true).
    { apply existsb_exists. exists c. split; [assumption | apply Ascii.eqb_refl]. }
    now rewrite E.
Qed.

(** One of the words, up to case when it is ignored, anywhere in the
    string. *)
Lemma words_match ic alternatives w w' a b :
  In w alternatives → same_word ic w w' = true →
  matches (Words ic false alternatives) (a +:+ w' +:+ b).
Proof.
  intros Hin Hw.
  destruct (find_finds
              (λ w, word_here ic w (a +:+ w' +:+ b) (String.length a)
                    && (negb false
                        || boundary (a +:+ w' +:+ b) (String.length a)
                           && boundary (a +:+ w' +:+ b)
                                (String.length a + String.length w)))
              alternatives w Hin) as [y Hy].
  { now rewrite (word_here_append ic w w' a b Hw). }
  apply (matches_at _ _ (String.length a) (String.length a + String.length y)).
  - rewrite length_append. lia.
  - unfold match_at. cbv beta zeta. now rewrite Hy.
Qed.

Lemma word_at_end a c b :
  word_at (a +:+ String c b) (String.length a) = is_word c.
Proof. unfold word_at. now rewrite char_at_end. Qed.

Lemma word_at_stops a b :
  stops is_word b → word_at (a +:+ b) (String.length a) = false.
Proof.
  intros H. destruct b as [|c b].
  - unfold word_at. rewrite <- (Nat.add_0_r (String.length a)).
    now rewrite char_at_append.
  - now rewrite word_at_end.
Qed.

Lemma last_char a : a = "" ∨ ∃ a' c, a = a' +:+ String c "".
Proof.
  induction a as [|x a IH]; [now left|]. right.
  destruct IH as [->|(a' & c & ->)].
  - exists "", x. reflexivity.
  - exists (String x a'), c. reflexivity.
Qed.

(** The assertion [\\b] holds before a word character that follows the
    start of the input or a character outside the words. *)
Lemma boundary_before a c b :
  ends_outside_word a → is_word c = true →
  boundary (a +:+ String c b) (String.length a) = true.
Proof.
  intros Ha Hc. unfold boundary. rewrite word_at_end, Hc.
  destruct (last_char a) as [->|(a' & x & ->)]; [reflexivity|].
  rewrite length_append. simpl. rewrite Nat.add_1_r.
  rewrite append_assoc. simpl. rewrite word_at_end.
  now rewrite (Ha a' x eq_refl).
Qed.

(** And after a word character that precedes the end of the input or a
    character outside the words. *)
Lemma boundary_after a c b :
  is_word c = true → stops is_word b →
  boundary ((a +:+ String c "") +:+ b) (String.length (a +:+ String c "")) = true.
Proof.
  intros Hc Hb. unfold boundary. rewrite (word_at_stops _ b Hb).
  rewrite length_append. simpl. rewrite Nat.add_1_r.
  rewrite append_assoc. simpl. now rewrite word_at_end, Hc.
Qed.

(** One of the words between two boundaries. *)
Lemma bounded_words_match ic alternatives w w' a b :
  In w alternatives → same_word ic w w' = true →
  w' ≠ "" → all_chars is_word w' = true →
  ends_outside_word a → stops is_word b →
  matches (Words ic true alternatives) (a +:+ w' +:+ b).
Proof.
  intros Hin Hw Hne Hall Ha Hb.
  destruct (find_finds
              (λ w, word_here ic w (a +:+ w' +:+ b) (String.length a)
                    && (negb true
                        || boundary (a +:+ w' +:+ b) (String.length a)
                           && boundary (a +:+ w' +:+ b)
                                (String.length a + String.length w)))
              alternatives w Hin) as [y Hy].
  { rewrite (word_here_append ic w w' a b Hw). simpl.
    apply andb_true_iff. split.
    - destruct w' as [|c w']; [contradiction|]. simpl in Hall.
      apply andb_true_iff in Hall as [Hc _]. simpl.
      now apply boundary_before.
    - rewrite (same_word_length ic w w' Hw).
      destruct (last_char w') as [->|(v & c & ->)]; [contradiction|].
      rewrite all_chars_append in Hall. simpl in Hall.
      apply andb_true_iff in Hall as [_ Hc]. rewrite andb_true_r in Hc.
      rewrite <- length_append, <- !append_assoc.
      now apply boundary_after. }
  apply (matches_at _ _ (String.length a) (String.length a + String.length y)).
  - rewrite length_append. lia.
  - unfold match_at. cbv beta zeta. now rewrite Hy.
Qed.

End Kinds.

Section Threats.

Implicit Types (a b w s : string) (c : ascii).

Lemma in_all_ascii c : In c all_ascii.
Proof.
  unfold all_ascii. rewrite <- (ascii_nat_embedding c).
  apply in_map, in_seq. pose proof (nat_ascii_bounded c). lia.
Qed.

(** A character that agrees with a word character up to case is a word
    character. *)
Lemma same_char_word x y :
  same_char true x y = true → is_word x = true → is_word y = true.
Proof.
  assert (H : forallb (λ x, forallb (λ y,
                implb (same_char true x y && is_word x) (is_word y))
                all_ascii) all_ascii = true) by (vm_compute; reflexivity).
  rewrite forallb_forall in H. specialize (H x (in_all_ascii x)).
  rewrite forallb_forall in H. specialize (H y (in_all_ascii y)).
  intros H1 H2. now rewrite H1, H2 in H.
Qed.

Lemma same_word_chars w w' :
  same_word true w w' = true → all_chars is_word w = true →
  all_chars is_word w' = true.
Proof.
  revert w'. induction w as [|x w IH]; intros [|y w'] H Hw; simpl in *;
    try discriminate; [reflexivity|].
  apply andb_true_iff in H as [Hc H]. apply andb_true_iff in Hw as [Hx Hw].
  now rewrite (same_char_word x y Hc Hx), (IH w' H Hw).
Qed.

Lemma threat_of_match r s :
  In r suspiciousPatterns → matches (source r) s → threat s = true.
Proof. intros Hr Hm. apply threat_pattern. eauto. Qed.

(** The four kinds of threat in plain terms: a metacharacter anywhere;
    one of the six SQL keywords, in any case, as a word of its own; one
    of the two path traversal sequences anywhere; one of the five script
    keywords, in any case, anywhere. *)
Lemma threat_kinds :
  (∀ a c b,
     In c [ "<"; ">"; "'"; double_quote; "%"; ";"; "("; ")"; "&"; "+" ]%char →
     threat (a +:+ String c b) = true)
  ∧ (∀ a w w' b,
       In w [ "union"; "select"; "drop"; "delete"; "insert"; "update" ] →
       same_word true w w' = true → ends_outside_word a → stops is_word b →
       threat (a +:+ w' +:+ b) = true)
  ∧ (∀ a w b,
       In w [ "../"; "..\" ] → threat (a +:+ w +:+ b) = true)
  ∧ (∀ a w w' b,
       In w [ "script"; "javascript"; "vbscript"; "onload"; "onerror" ] →
       same_word true w w' = true → threat (a +:+ w' +:+ b) = true).
Proof.
  split; [|split; [|split]].
  - intros a c b Hc.
    apply (threat_of_match
             (literal (Class [ "<"; ">"; "'"; double_quote; "%"; ";"; "("; ")";
                               "&"; "+" ]%char))); [now left|].
    now apply class_matches.
  - intros a w w' b Hw Hsame Ha Hb.
    apply (threat_of_match
             (literal (Words true true
                         [ "union"; "select"; "drop"; "delete"; "insert";
                           "update" ]))); [right; now left|].
    apply (bounded_words_match true _ w w' a b Hw Hsame); try assumption.
    + intros ->. destruct w; [|discriminate].
      repeat destruct Hw as [Hw|Hw]; discriminate || contradiction.
    + apply (same_word_chars w w' Hsame).
      repeat destruct Hw as [<-|Hw]; reflexivity || contradiction.
  - intros a w b Hw.
    apply (threat_of_match (literal (Words false false [ "../"; "..\" ])));
      [right; right; now left|].
    apply (words_match false _ w w a b Hw).
    repeat destruct Hw as [<-|Hw]; reflexivity || contradiction.
  - intros a w w' b Hw Hsame.
    apply (threat_of_match
             (literal (Words true false
                         [ "script"; "javascript"; "vbscript"; "onload";
                           "onerror" ]))); [right; right; right; now left|].
    now apply (words_match true _ w w' a b Hw).
Qed.

End Threats.

(** C2.  A request is answered 400, with the message that it contains
    suspicious content, and is not passed on, as soon as a string that
    matches one of the four patterns lies at any depth in its body, its
    query or its path parameters, or is its User-Agent or Referer
    header.  A body field with the text of the SQL injection of the
    specification is rejected; the payload with the one field name,
    hello world, passes when nothing else in the request is a threat. *)
Theorem threat_is_rejected :
  (∀ req s,
     threat s = true →
     contains (body req) s ∨ contains (query req) s
     ∨ contains (VObj (params req)) s
     ∨ req_get req "User-Agent" = Some s ∨ req_get req "Referer" = Some s →
     suspiciousActivityDetector req = suspicious_content)
  ∧ (∀ s, threat s = true
          ↔ ∃ r, In r suspiciousPatterns ∧ matches (source r) s)
  ∧ (∀ req props k,
       body req = VObj props → In (k, VStr "'; DROP TABLE users; --") props →
       fst (suspiciousActivityDetector req)
       = Respond 400 (json "Bad Request" "Request contains suspicious content"))
  ∧ (∀ req,
       body req = VObj [("name", VStr "hello world")] →
       (∀ s, In s (scanned (query req) ++ scanned (VObj (params req))
                   ++ present (req_get req "User-Agent")
                   ++ present (req_get req "Referer")) → threat s = false) →
       suspiciousActivityDetector req = (Next, [])).
Proof.
  assert (Hrej : ∀ req s, threat s = true → In s (inspected req) →
                 suspiciousActivityDetector req = suspicious_content).
  { intros req s Ht Hin. unfold suspiciousActivityDetector.
    rewrite suspicious_inspected.
    assert (E : existsb threat (inspected req) = true)
      by (apply existsb_exists; eauto).
    now rewrite E. }
  split; [|split; [exact threat_pattern|split]].
  - intros req s Ht H. apply (Hrej req s Ht). unfold inspected.
    rewrite !in_app_iff.
    destruct H as [H|[H|[H|[H|H]]]].
    + left. now apply contains_scanned.
    + right; left. now apply contains_scanned.
    + right; right; left. now apply (contains_scanned (VObj (params req))).
    + right; right; right; left. rewrite H. now left.
    + right; right; right; right. rewrite H. now left.
  - intros req props k Hb Hin.
    rewrite (Hrej req "'; DROP TABLE users; --"); [reflexivity..|].
    unfold inspected. rewrite Hb. apply in_app_iff. left.
    apply (contains_scanned (VObj props)).
    apply (occurs_prop _ props k (VStr "'; DROP TABLE users; --") Hin).
    constructor.
  - intros req Hb Hrest. unfold suspiciousActivityDetector.
    rewrite suspicious_inspected. unfold inspected. rewrite Hb.
    rewrite existsb_app.
    assert (E : existsb threat
                  (scanned (query req) ++ scanned (VObj (params req))
                   ++ present (req_get req "User-Agent")
                   ++ present (req_get req "Referer")) = false).
    { destruct (existsb threat _) eqn:E; [|reflexivity].
      apply existsb_exists in E as (s & Hin & Hs).
      rewrite (Hrest s Hin) in Hs. discriminate. }
    rewrite E. reflexivity.
Qed.

Lemma threat_is_rejected_witness :
  suspiciousActivityDetector
    (post (VObj [("comment", VArr [VNum 1; VObj [("note", VStr "a/../b")]])]))
  = suspicious_content
  ∧ fst (suspiciousActivityDetector
           (post (VObj [("name", VStr "'; DROP TABLE users; --")])))
    = Respond 400 (json "Bad Request" "Request contains suspicious content")
  ∧ suspiciousActivityDetector (post (VObj [("name", VStr "hello world")]))
    = (Next, []).
Proof.
  destruct threat_is_rejected as (Hrej & _ & Hsql & Hpass).
  split; [|split].
  - apply (Hrej _ "a/../b"); [reflexivity|]. left.
    apply (occurs_prop _ _ "comment"
             (VArr [VNum 1; VObj [("note", VStr "a/../b")]])); [now left|].
    apply (occurs_item _ _ (VObj [("note", VStr "a/../b")])); [right; now left|].
    apply (occurs_prop _ _ "note" (VStr "a/../b")); [now left | constructor].
  - apply (Hsql _ [("name", VStr "'; DROP TABLE users; --")] "name");
      [reflexivity | now left].
  - apply Hpass; [reflexivity|]. intros s [].
Defined.

(** ** Sanitization *)

Section Decimal.

Lemma pretty_char_digit (d : N) : digit_or_dash (pretty_N_char d) = true.
Proof. unfold pretty_N_char. repeat case_match; reflexivity. Qed.

Lemma pretty_go_digits (x : N) s :
  all_chars digit_or_dash s = true →
  all_chars digit_or_dash (pretty_N_go x s) = true.
Proof.
  revert s. induction (N.lt_wf_0 x) as [x _ IH]. intros s Hs.
  destruct (decide (0 < x)%N) as [Hx|Hx].
  - rewrite pretty_N_go_step by assumption. apply IH.
    + apply N.div_lt; lia.
    + simpl. now rewrite pretty_char_digit.
  - assert (x = 0%N) as -> by lia. now rewrite pretty_N_go_0.
Qed.

Lemma decimal_digits (z : Z) : all_chars digit_or_dash (decimal z) = true.
Proof.
  unfold decimal, pretty, pretty_Z.
  destruct z as [|p|p]; [reflexivity | |];
    unfold pretty, pretty_positive, pretty, pretty_N; simpl;
    now apply pretty_go_digits.
Qed.

(** An index is never the key [__proto__]. *)
Lemma decimal_not_proto (z : Z) : String.eqb (decimal z) "__proto__" = false.
Proof.
  apply String.eqb_neq. intros H.
  pose proof (decimal_digits z) as Hd. rewrite H in Hd. discriminate.
Qed.

End Decimal.

Section SanitizerLoop.

Variable pkg : Packages.

Implicit Types (v acc proto : value) (key s : string)
  (entries props : list (string * value)) (items : list value).

(** *** The loop *)

Lemma sanitizeObject_entries v :
  sanitizeObject pkg v = sanitizeEntries pkg (VObj []) (object_entries v).
Proof.
  unfold sanitizeEntries.
  destruct v as [| |b|z|s|items|props|proto props]; try reflexivity.
  - simpl. generalize (VObj []) 0.
    induction items as [|v items IH]; intros acc i; simpl; [reflexivity|].
    apply IH.
  - simpl. generalize (VObj []).
    induction props as [|[key v] props IH]; intros acc; simpl; [reflexivity|].
    apply IH.
  - simpl. generalize (VObj []).
    induction props as [|[key v] props IH]; intros acc; simpl; [reflexivity|].
    apply IH.
Qed.

Lemma sanitizeEntries_cons acc key v entries :
  sanitizeEntries pkg acc ((key, v) :: entries)
  = sanitizeEntries pkg
      (assign acc key (sanitizeValue pkg (sanitizeObject pkg) key v)) entries.
Proof. reflexivity. Qed.

Lemma kept_nil : kept pkg [] = [].
Proof. reflexivity. Qed.

Lemma kept_cons key v entries :
  kept pkg ((key, v) :: entries)
  = if String.eqb key "__proto__" then kept pkg entries
    else (key, sanitizeValue pkg (sanitizeObject pkg) key v) :: kept pkg entries.
Proof.
  unfold kept. cbn [List.filter fst snd].
  now destruct (String.eqb key "__proto__").
Qed.

(** The loop turns an object into an object. *)
Lemma sanitizeEntries_object acc entries :
  (∃ props, acc = VObj props) ∨ (∃ proto props, acc = VProto proto props) →
  (∃ props, sanitizeEntries pkg acc entries = VObj props)
  ∨ (∃ proto props, sanitizeEntries pkg acc entries = VProto proto props).
Proof.
  revert acc. induction entries as [|[key v] entries IH]; intros acc Hacc;
    [exact Hacc|].
  rewrite sanitizeEntries_cons. apply IH. unfold assign.
  destruct (String.eqb key "__proto__").
  - destruct (is_prototype (sanitizeValue pkg (sanitizeObject pkg) key v));
      [right; eauto | exact Hacc].
  - destruct Hacc as [[props ->]|(proto & props & ->)]; [left | right]; eauto.
Qed.

Lemma sanitizeObject_object v :
  (∃ props, sanitizeObject pkg v = VObj props)
  ∨ (∃ proto props, sanitizeObject pkg v = VProto proto props).
Proof.
  rewrite sanitizeObject_entries. apply sanitizeEntries_object. left. eauto.
Qed.

(** What is stored for a sanitized object is that object, sanitized. *)
Lemma sanitizeValue_object (f : value → value) key v :
  sanitizeValue pkg f key (sanitizeObject pkg v) = f (sanitizeObject pkg v).
Proof.
  now destruct (sanitizeObject_object v) as [[props ->]|(proto & props & ->)].
Qed.

(** What is stored for a value is a prototype exactly when the value
    is one. *)
Lemma is_prototype_sanitizeValue key v :
  is_prototype (sanitizeValue pkg (sanitizeObject pkg) key v) = is_prototype v.
Proof.
  destruct v as [| |b|z|s|items|props|proto props]; try reflexivity.
  - cbn [sanitizeValue is_prototype]. unfold sanitizeString.
    repeat case_match; reflexivity.
  - cbn [sanitizeValue].
    now destruct (sanitizeObject_object (VObj props))
      as [[ps ->]|(p & ps & ->)].
  - cbn [sanitizeValue].
    now destruct (sanitizeObject_object (VProto proto props))
      as [[ps ->]|(p & ps & ->)].
Qed.

(** Once replaced, the prototype is an object's for good; the own
    properties grow by what the loop keeps. *)
Lemma sanitizeEntries_replaced proto props entries :
  ∃ proto', sanitizeEntries pkg (VProto proto props) entries
            = VProto proto' (props ++ kept pkg entries).
Proof.
  revert proto props.
  induction entries as [|[key v] entries IH]; intros proto props.
  - exists proto. now rewrite kept_nil, app_nil_r.
  - rewrite sanitizeEntries_cons, kept_cons.
    unfold assign. destruct (String.eqb key "__proto__").
    + destruct (is_prototype (sanitizeValue pkg (sanitizeObject pkg) key v));
        cbn [own_props]; apply IH.
    + destruct (IH proto (props ++ [(key, sanitizeValue pkg (sanitizeObject pkg) key v)]))
        as [proto' E].
      exists proto'. rewrite E. now rewrite <- app_assoc.
Qed.

(** Without an entry that replaces the prototype, the result has the
    prototype of every object. *)
Lemma sanitizeEntries_ordinary props entries :
  existsb replaces_prototype entries = false →
  sanitizeEntries pkg (VObj props) entries = VObj (props ++ kept pkg entries).
Proof.
  revert props.
  induction entries as [|[key v] entries IH]; intros props Hno.
  - now rewrite kept_nil, app_nil_r.
  - cbn [existsb] in Hno. apply orb_false_iff in Hno as [Hkv Hno].
    rewrite sanitizeEntries_cons, kept_cons.
    unfold replaces_prototype in Hkv. cbn [fst snd] in Hkv.
    unfold assign. destruct (String.eqb key "__proto__").
    + rewrite is_prototype_sanitizeValue.
      cbn [andb] in Hkv. rewrite Hkv. now apply IH.
    + cbn [own_props]. rewrite IH by assumption. now rewrite <- app_assoc.
Qed.

(** With such an entry, the prototype is replaced. *)
Lemma sanitizeEntries_replaces props entries :
  existsb replaces_prototype entries = true →
  ∃ proto, sanitizeEntries pkg (VObj props) entries
           = VProto proto (props ++ kept pkg entries).
Proof.
  revert props.
  induction entries as [|[key v] entries IH]; intros props Hyes;
    [discriminate|].
  cbn [existsb] in Hyes.
  rewrite sanitizeEntries_cons, kept_cons.
  unfold replaces_prototype in Hyes at 1. cbn [fst snd] in Hyes.
  unfold assign. destruct (String.eqb key "__proto__").
  - rewrite is_prototype_sanitizeValue.
    cbn [andb orb] in Hyes. destruct (is_prototype v).
    + cbn [own_props]. apply sanitizeEntries_replaced.
    + now apply IH.
  - cbn [andb orb own_props] in Hyes |- *.
    destruct (IH (props ++ [(key, sanitizeValue pkg (sanitizeObject pkg) key v)])
                 Hyes) as [proto E].
    exists proto. rewrite E. now rewrite <- app_assoc.
Qed.

(** The result of [sanitizeObject]: the properties kept, under the
    prototype of every object unless an entry replaces it. *)
Lemma sanitizeObject_ordinary v :
  existsb replaces_prototype (object_entries v) = false →
  sanitizeObject pkg v = VObj (kept pkg (object_entries v)).
Proof.
  intros H. rewrite sanitizeObject_entries. now apply sanitizeEntries_ordinary.
Qed.

Lemma sanitizeObject_replaces v :
  existsb replaces_prototype (object_entries v) = true →
  ∃ proto, sanitizeObject pkg v = VProto proto (kept pkg (object_entries v)).
Proof.
  intros H. rewrite sanitizeObject_entries.
  now apply (sanitizeEntries_replaces []).
Qed.

(** The own properties of the result, in both cases. *)
Lemma sanitizeObject_own_props v :
  object_entries (sanitizeObject pkg v) = kept pkg (object_entries v).
Proof.
  destruct (existsb replaces_prototype (object_entries v)) eqn:E.
  - destruct (sanitizeObject_replaces v E) as [proto ->]. reflexivity.
  - now rewrite (sanitizeObject_ordinary v E).
Qed.

(** No property kept has the key [__proto__]. *)
Lemma kept_ordinary entries :
  existsb replaces_prototype (kept pkg entries) = false.
Proof.
  induction entries as [|[key v] entries IH]; [reflexivity|].
  rewrite kept_cons. destruct (String.eqb key "__proto__") eqn:E; [exact IH|].
  cbn [existsb]. unfold replaces_prototype at 1. cbn [fst]. now rewrite E.
Qed.

(** What is kept of what was kept. *)
Lemma kept_kept entries :
  kept pkg (kept pkg entries)
  = map (λ kv, (fst kv,
                sanitizeValue pkg (sanitizeObject pkg) (fst kv)
                  (sanitizeValue pkg (sanitizeObject pkg) (fst kv) (snd kv))))
        (List.filter (λ kv, negb (String.eqb (fst kv) "__proto__")) entries).
Proof.
  induction entries as [|[key v] entries IH]; [reflexivity|].
  rewrite kept_cons. cbn [List.filter fst snd].
  destruct (String.eqb key "__proto__") eqn:E; cbn [negb]; [exact IH|].
  rewrite kept_cons, E. cbn [map fst snd]. now rewrite IH.
Qed.

(** A second pass yields the prototype of every object and sanitizes
    again what the first pass kept. *)
Lemma sanitizeObject_again v :
  sanitizeObject pkg (sanitizeObject pkg v)
  = VObj (kept pkg (kept pkg (object_entries v))).
Proof.
  rewrite (sanitizeObject_ordinary (sanitizeObject pkg v));
    rewrite sanitizeObject_own_props; [reflexivity | apply kept_ordinary].
Qed.

End SanitizerLoop.

Section Idempotence.

Variable pkg : Packages.

Implicit Types (v : value) (key s : string) (items : list value).

Lemma indexed_values (P : value → Prop) i items :
  Forall P items → Forall (λ kv : string * value, P (snd kv)) (indexed i items).
Proof.
  intros H. revert i. induction H as [|v items Hv _ IH]; intros i; simpl;
    constructor; [exact Hv | apply IH].
Qed.

(** Induction over a value and the values under its entries. *)
Lemma value_entries_ind (P : value → Prop) :
  (∀ v, Forall (λ kv, P (snd kv)) (object_entries v) → P v) → ∀ v, P v.
Proof.
  intros H v.
  induction v as [| |b|z|s|items IH|props IH|proto props _ IH]
    using value_nested_ind; apply H; try constructor; try exact IH.
  now apply indexed_values.
Qed.

Lemma forallb_false {A} (f : A → bool) (l : list A) :
  forallb f l = false → ∃ x, In x l ∧ f x = false.
Proof.
  induction l as [|x l IH]; [discriminate|]. cbn [forallb].
  destruct (f x) eqn:E.
  - intros H. destruct (IH H) as (y & Hin & Hy). exists y. split; [now right | exact Hy].
  - intros _. exists x. split; [now left | exact E].
Qed.

(** Plainness, entry by entry. *)
Lemma plain_entries v :
  plain v
  = forallb (λ kv, negb (replaces_prototype kv)
                   && match snd kv with
                      | VObj _ | VProto _ _ => plain (snd kv)
                      | _ => true
                      end) (object_entries v).
Proof.
  destruct v as [| |b|z|s|items|props|proto props]; try reflexivity.
  cbn [plain object_entries]. generalize 0.
  induction items as [|x items IH]; intros i; [reflexivity|].
  cbn [forallb indexed snd]. rewrite <- (IH (S i)).
  unfold replaces_prototype at 1. cbn [fst]. now rewrite decimal_not_proto.
Qed.

(** An entry that does not replace the prototype, under an object, is
    kept. *)
Lemma object_entry_kept key v :
  replaces_prototype (key, v) = false → is_prototype v = true →
  String.eqb key "__proto__" = false.
Proof.
  unfold replaces_prototype. cbn [fst snd]. intros H Hv.
  now rewrite Hv, andb_true_r in H.
Qed.

Section Leaves.

Hypothesis leaves : idempotent_leaves pkg.

Lemma sanitizeItem_twice v :
  sanitizeItem pkg (sanitizeItem pkg v) = sanitizeItem pkg v.
Proof.
  destruct v; simpl; try reflexivity. f_equal. apply leaves.
Qed.

(** One entry: sanitizing the stored value again changes nothing,
    provided this holds for the object that the value is. *)
Lemma sanitizeValue_twice key v :
  match v with
  | VObj _ | VProto _ _ =>
      sanitizeObject pkg (sanitizeObject pkg v) = sanitizeObject pkg v
  | _ => True
  end →
  sanitizeValue pkg (sanitizeObject pkg) key
    (sanitizeValue pkg (sanitizeObject pkg) key v)
  = sanitizeValue pkg (sanitizeObject pkg) key v.
Proof.
  intros IH. destruct v as [| |b|z|s|items|props|proto props]; try reflexivity.
  - cbn [sanitizeValue].
    destruct (sanitizeString pkg key s) as [| |b|z|e|items|props|proto props] eqn:E;
      try reflexivity.
    + cbn [sanitizeValue]. now apply (proj1 leaves key s e).
    + exfalso. unfold sanitizeString in E. split_tests E; discriminate.
    + exfalso. unfold sanitizeString in E. split_tests E; discriminate.
    + exfalso. unfold sanitizeString in E. split_tests E; discriminate.
  - cbn [sanitizeValue]. f_equal. rewrite map_map.
    apply map_ext. intros x. apply sanitizeItem_twice.
  - cbn [sanitizeValue]. now rewrite sanitizeValue_object.
  - cbn [sanitizeValue]. now rewrite sanitizeValue_object.
Qed.

(** On a plain input a second pass changes nothing. *)
Lemma sanitizeObject_twice v :
  plain v = true →
  sanitizeObject pkg (sanitizeObject pkg v) = sanitizeObject pkg v.
Proof.
  induction v as [v IH] using value_entries_ind. intros Hp.
  rewrite plain_entries in Hp. rewrite forallb_forall in Hp.
  rewrite List.Forall_forall in IH.
  assert (Hno : existsb replaces_prototype (object_entries v) = false).
  { destruct (existsb _ _) eqn:E; [|reflexivity].
    apply existsb_exists in E as (kv & Hin & Hkv).
    specialize (Hp kv Hin). now rewrite Hkv in Hp. }
  rewrite sanitizeObject_again, (sanitizeObject_ordinary pkg v Hno).
  f_equal. rewrite kept_kept. unfold kept. apply map_ext_in.
  intros [key x] Hin. apply filter_In in Hin as [Hin _]. cbn [fst snd].
  f_equal. apply sanitizeValue_twice.
  specialize (Hp _ Hin). specialize (IH _ Hin). cbn [snd] in Hp, IH.
  apply andb_true_iff in Hp as [_ Hp].
  destruct x; try exact I; now apply IH.
Qed.

End Leaves.

(** Conversely the walk is idempotent on the plain inputs only if the
    transforms are. *)
Lemma idempotent_only_if :
  (∀ v, plain v = true →
        sanitizeObject pkg (sanitizeObject pkg v) = sanitizeObject pkg v) →
  idempotent_leaves pkg.
Proof.
  intros H.
  assert (Hone : ∀ key v,
            String.eqb key "__proto__" = false → plain (VObj [(key, v)]) = true →
            sanitizeValue pkg (sanitizeObject pkg) key
              (sanitizeValue pkg (sanitizeObject pkg) key v)
            = sanitizeValue pkg (sanitizeObject pkg) key v).
  { intros key v Hk Hplain.
    specialize (H (VObj [(key, v)]) Hplain).
    rewrite sanitizeObject_again, sanitizeObject_ordinary in H.
    - cbn [object_entries] in H. rewrite !kept_cons, Hk in H.
      rewrite kept_nil, kept_cons, Hk in H. now injection H.
    - cbn [object_entries existsb]. unfold replaces_prototype. cbn [fst].
      now rewrite Hk. }
  assert (Hplain : ∀ key v,
            String.eqb key "__proto__" = false →
            match v with VObj _ | VProto _ _ => False | _ => True end →
            plain (VObj [(key, v)]) = true).
  { intros key v Hk Hv. cbn [plain forallb snd]. unfold replaces_prototype.
    cbn [fst]. rewrite Hk. now destruct v. }
  split.
  - intros key s e E.
    destruct (String.eqb key "__proto__") eqn:Hk.
    + apply String.eqb_eq in Hk. subst key.
      specialize (Hone "a" (VStr s) eq_refl (Hplain "a" (VStr s) eq_refl I)).
      cbn [sanitizeValue] in Hone.
      change (sanitizeString pkg "__proto__" s) with (sanitizeString pkg "a" s) in E.
      rewrite E in Hone. exact Hone.
    + specialize (Hone key (VStr s) Hk (Hplain key (VStr s) Hk I)).
      cbn [sanitizeValue] in Hone. rewrite E in Hone. exact Hone.
  - intros s.
    specialize (Hone "a" (VArr [VStr s]) eq_refl (Hplain "a" (VArr [VStr s]) eq_refl I)).
    cbn [sanitizeValue map sanitizeItem] in Hone. congruence.
Qed.

(** On an input that is not plain a second pass changes the result of
    the first, whatever the packages do. *)
Lemma sanitizeObject_changes v :
  plain v = false →
  sanitizeObject pkg (sanitizeObject pkg v) ≠ sanitizeObject pkg v.
Proof.
  induction v as [v IH] using value_entries_ind. intros Hp Heq.
  rewrite List.Forall_forall in IH.
  rewrite sanitizeObject_again in Heq.
  destruct (existsb replaces_prototype (object_entries v)) eqn:E.
  { destruct (sanitizeObject_replaces pkg v E) as [proto Hv].
    rewrite Hv in Heq. discriminate. }
  rewrite (sanitizeObject_ordinary pkg v E) in Heq. injection Heq as Heq.
  rewrite kept_kept in Heq. unfold kept in Heq.
  rewrite map_ext_in_iff in Heq.
  rewrite plain_entries in Hp.
  apply forallb_false in Hp as ([key x] & Hin & Hx).
  assert (Hkx : replaces_prototype (key, x) = false).
  { destruct (replaces_prototype (key, x)) eqn:Hr; [|reflexivity].
    assert (existsb replaces_prototype (object_entries v) = true)
      by (apply existsb_exists; eauto).
    congruence. }
  rewrite Hkx in Hx. cbn [negb andb snd] in Hx.
  assert (Hobj : is_prototype x = true ∧ plain x = false
                 ∧ sanitizeValue pkg (sanitizeObject pkg) key x
                   = sanitizeObject pkg x)
    by (destruct x; try discriminate; repeat split; assumption).
  destruct Hobj as (Hproto & Hplain & Hstored).
  pose proof (object_entry_kept key x Hkx Hproto) as Hk.
  specialize (Heq (key, x)). cbn [fst snd] in Heq.
  rewrite Hstored, sanitizeValue_object in Heq.
  apply (IH (key, x) Hin Hplain).
  assert (Hf : In (key, x)
                 (List.filter (λ kv, negb (String.eqb (fst kv) "__proto__"))
                              (object_entries v))).
  { apply filter_In. split; [assumption|]. cbn [fst]. now rewrite Hk. }
  specialize (Heq Hf). now injection Heq.
Qed.

End Idempotence.

(** *** The reference packages *)

Section ReferencePackages.

Import Reference.

Lemma strip_clean b s : all_chars no_angle (strip b s) = true.
Proof.
  revert b. induction s as [|c s IH]; intros b; simpl; [reflexivity|].
  destruct b.
  - destruct (Ascii.eqb c ">"); apply IH.
  - destruct (Ascii.eqb c "<") eqn:E1; [apply IH|].
    destruct (Ascii.eqb c ">") eqn:E2.
    + simpl. apply IH.
    + simpl. unfold no_angle at 1. now rewrite E1, E2, IH.
Qed.

Lemma stripTags_fixed s : all_chars no_angle s = true → stripTags s = s.
Proof.
  unfold stripTags. induction s as [|c s IH]; simpl; [reflexivity|].
  intros H. apply andb_true_iff in H as [Hc Hs].
  unfold no_angle in Hc. apply andb_true_iff in Hc as [H1 H2].
  apply negb_true_iff in H1, H2. now rewrite H1, H2, IH.
Qed.

Lemma stripTags_twice s : stripTags (stripTags s) = stripTags s.
Proof. apply stripTags_fixed, strip_clean. Qed.

Lemma lower_no_angle c : no_angle (lower c) = no_angle c.
Proof. ascii_cases c. Qed.

Lemma lower_twice c : lower (lower c) = lower c.
Proof. ascii_cases c. Qed.

Lemma toLowerCase_clean s :
  all_chars no_angle (toLowerCase s) = all_chars no_angle s.
Proof.
  induction s as [|c s IH]; simpl; [reflexivity|].
  now rewrite lower_no_angle, IH.
Qed.

Lemma toLowerCase_twice s : toLowerCase (toLowerCase s) = toLowerCase s.
Proof.
  induction s as [|c s IH]; simpl; [reflexivity|].
  now rewrite lower_twice, IH.
Qed.

(** With a normalization that only folds the case, the transforms of
    the strings are idempotent. *)
Lemma case_folding_leaves : idempotent_leaves case_folding.
Proof.
  split; [|exact stripTags_twice].
  intros key s e. unfold sanitizeString. cbn [xss_script isEmail normalizeEmail case_folding].
  destruct (String.eqb key "email").
  - destruct (looksLikeEmail (stripTags s)) eqn:E.
    + intros [= <-].
      rewrite (stripTags_fixed (toLowerCase (stripTags s)))
        by (rewrite toLowerCase_clean; apply strip_clean).
      cbv beta. rewrite toLowerCase_twice.
      destruct (looksLikeEmail (toLowerCase (stripTags s))); reflexivity.
    + intros [= <-]. now rewrite stripTags_twice, E.
  - intros [= <-]. now rewrite stripTags_twice.
Qed.

End ReferencePackages.

(** The rule of [validator.normalizeEmail] for the sub-addresses of
    Yahoo removes one component at every call; with any packages that
    leave the addresses below alone, accept them and apply that rule, a
    second sanitization changes the result of the first. *)
Lemma subaddress_rule_breaks_idempotence (pkg : Packages) :
  xss_script pkg "a-b-c@yahoo.com" = "a-b-c@yahoo.com" →
  xss_script pkg "a-b@yahoo.com" = "a-b@yahoo.com" →
  isEmail pkg "a-b-c@yahoo.com" = true →
  isEmail pkg "a-b@yahoo.com" = true →
  normalizeEmail pkg "a-b-c@yahoo.com" = Some "a-b@yahoo.com" →
  normalizeEmail pkg "a-b@yahoo.com" = Some "a@yahoo.com" →
  sanitizeObject pkg (sanitizeObject pkg (VObj [("email", VStr "a-b-c@yahoo.com")]))
  ≠ sanitizeObject pkg (VObj [("email", VStr "a-b-c@yahoo.com")]).
Proof.
  intros X1 X2 E1 E2 N1 N2.
  assert (once : sanitizeObject pkg (VObj [("email", VStr "a-b-c@yahoo.com")])
                 = VObj [("email", VStr "a-b@yahoo.com")]).
  { simpl. unfold assign, sanitizeString. simpl. now rewrite X1, E1, N1. }
  rewrite once. simpl. unfold assign, sanitizeString. simpl.
  rewrite X2, E2, N2. discriminate.
Qed.

(** An own property [__proto__] that holds an object becomes the
    prototype of the result, and a second sanitization, which sees own
    properties only, does not carry it over: whatever the packages
    do. *)
Lemma prototype_breaks_idempotence (pkg : Packages) :
  let v := VObj [("__proto__", VObj [("admin", VBool true)])] in
  sanitizeObject pkg v = VProto (VObj [("admin", VBool true)]) []
  ∧ sanitizeObject pkg (sanitizeObject pkg v) = VObj []
  ∧ sanitizeObject pkg (sanitizeObject pkg v) ≠ sanitizeObject pkg v.
Proof. repeat split. discriminate. Qed.




(** ** Rate limiting *)

Section RateLimiter.

Local Open Scope Z_scope.

Implicit Types (tier : Tier) (store : gmap string Bucket) (b : Bucket)
  (now : Z) (key : string) (req : Request).

Lemma ceil_seconds_spec ms :
  1000 * (ceil_seconds ms - 1) < ms ≤ 1000 * ceil_seconds ms.
Proof.
  unfold ceil_seconds.
  pose proof (Z.div_mod (- ms) 1000 ltac:(lia)) as Hdm.
  pose proof (Z.mod_pos_bound (- ms) 1000 ltac:(lia)) as Hb.
  lia.
Qed.

Lemma ceil_seconds_mono a c : a ≤ c → ceil_seconds a ≤ ceil_seconds c.
Proof.
  intros H. pose proof (ceil_seconds_spec a). pose proof (ceil_seconds_spec c).
  lia.
Qed.

Lemma ceil_seconds_pos ms : 0 < ms → 0 < ceil_seconds ms.
Proof. intros H. pose proof (ceil_seconds_spec ms). lia. Qed.

(** The three transitions of a bucket. *)
Lemma rateLimit_first tier now key store :
  store !! key = None →
  rateLimit tier now key store
  = (<[key := {| count := 1; windowStart := now |}]> store, Proceed).
Proof. intros H. unfold rateLimit. now rewrite H. Qed.

Lemma rateLimit_elapsed tier now key store b :
  store !! key = Some b → windowStart b + windowMs tier ≤ now →
  rateLimit tier now key store
  = (<[key := {| count := 1; windowStart := now |}]> store, Proceed).
Proof.
  intros H Hw. unfold rateLimit. rewrite H.
  now rewrite (proj2 (Z.leb_le _ _) Hw).
Qed.

Lemma rateLimit_within tier now key store b :
  store !! key = Some b → now < windowStart b + windowMs tier →
  rateLimit tier now key store
  = (<[key := {| count := count b + 1; windowStart := windowStart b |}]> store,
     if max tier <? count b + 1 then Exceeded else Proceed).
Proof.
  intros H Hw. unfold rateLimit. rewrite H.
  now rewrite (proj2 (Z.leb_gt _ _) Hw).
Qed.

(** The limiter rejects only inside the window of an existing bucket,
    when the incremented count exceeds the maximum, and then with the
    response of the handler. *)
Lemma rejection tier store now req :
  fst (snd (createRateLimiter tier store now req)) ≠ Next →
  ∃ b, store !! keyGenerator req = Some b
       ∧ now < windowStart b + windowMs tier
       ∧ max tier < count b + 1
       ∧ fst (snd (createRateLimiter tier store now req)) = rejected tier.
Proof.
  unfold createRateLimiter.
  destruct (store !! keyGenerator req) as [b|] eqn:E.
  - destruct (Z.le_gt_cases (windowStart b + windowMs tier) now) as [Hw|Hw].
    + rewrite (rateLimit_elapsed _ _ _ _ b E Hw). simpl. congruence.
    + rewrite (rateLimit_within _ _ _ _ b E Hw).
      destruct (max tier <? count b + 1) eqn:Hm; simpl; [|congruence].
      intros _. exists b. apply Z.ltb_lt in Hm. repeat split; assumption.
  - rewrite (rateLimit_first _ _ _ _ E). simpl. congruence.
Qed.

(** A run of four requests of one client inside one window of the tier
    of 60 seconds and 3 requests, and a fifth one after the window. *)
Lemma four_in_a_window req t0 t1 t2 t3 t4 :
  t0 ≤ t1 → t1 ≤ t2 → t2 ≤ t3 → t3 < t0 + 60000 → t0 + 60000 ≤ t4 →
  serve tier_60s_3 ∅ [(t0, req); (t1, req); (t2, req); (t3, req); (t4, req)]
  = ({[ keyGenerator req := {| count := 1; windowStart := t4 |} ]},
     [Next; Next; Next; rejected tier_60s_3; Next]).
Proof.
  intros H1 H2 H3 H4 H5. set (key := keyGenerator req).
  unfold serve, createRateLimiter. fold key.
  rewrite (rateLimit_first tier_60s_3 t0 key ∅) by apply lookup_empty.
  rewrite (rateLimit_within tier_60s_3 t1 key _ {| count := 1; windowStart := t0 |})
    by first [apply lookup_insert_eq | simpl; lia].
  rewrite insert_insert_eq. cbn [count windowStart].
  rewrite (rateLimit_within tier_60s_3 t2 key _ {| count := 2; windowStart := t0 |})
    by first [apply lookup_insert_eq | simpl; lia].
  rewrite insert_insert_eq. cbn [count windowStart].
  rewrite (rateLimit_within tier_60s_3 t3 key _ {| count := 3; windowStart := t0 |})
    by first [apply lookup_insert_eq | simpl; lia].
  rewrite insert_insert_eq. cbn [count windowStart].
  rewrite (rateLimit_elapsed tier_60s_3 t4 key _ {| count := 4; windowStart := t0 |})
    by first [apply lookup_insert_eq | simpl; lia].
  rewrite insert_insert_eq. reflexivity.
Qed.

End RateLimiter.

(** C3, as the code has it.  The limiter rejects a request exactly
    when the bucket of its key is inside its window and its incremented
    count exceeds the maximum of the tier; the response is 429 with a
    retryAfter equal to the length of the whole window in seconds, which
    is positive and at least the number of seconds that remain.  For
    the tier of 60 seconds and 3 requests, the fourth request inside
    the window gets 429 with retryAfter 60, and a request after the
    window starts a fresh bucket with count 1 and proceeds. *)
Theorem rate_limit_rejection :
  (∀ tier store now req,
     fst (snd (createRateLimiter tier store now req)) ≠ Next →
     ∃ b, store !! keyGenerator req = Some b
          ∧ (now < windowStart b + windowMs tier)%Z
          ∧ (max tier < count b + 1)%Z
          ∧ fst (snd (createRateLimiter tier store now req)) = rejected tier
          ∧ ((windowStart b ≤ now)%Z →
             (0 < seconds_remaining tier b now ≤ ceil_seconds (windowMs tier))%Z))
  ∧ (∀ tier store now req b,
       store !! keyGenerator req = Some b →
       (now < windowStart b + windowMs tier)%Z → (max tier < count b + 1)%Z →
       fst (snd (createRateLimiter tier store now req)) = rejected tier)
  ∧ rejected tier_60s_3
    = Respond 429 {| error := "Rate limit exceeded";
                     message := "Too many requests";
                     retryAfter := Some 60%Z |}
  ∧ (∀ req t0 t1 t2 t3 t4,
       (t0 ≤ t1)%Z → (t1 ≤ t2)%Z → (t2 ≤ t3)%Z → (t3 < t0 + 60000)%Z →
       (t0 + 60000 ≤ t4)%Z →
       serve tier_60s_3 ∅ [(t0, req); (t1, req); (t2, req); (t3, req); (t4, req)]
       = ({[ keyGenerator req := {| count := 1; windowStart := t4 |} ]},
          [Next; Next; Next; rejected tier_60s_3; Next])).
Proof.
  split; [|split; [|split; [reflexivity | exact four_in_a_window]]].
  - intros tier store now req H.
    destruct (rejection tier store now req H) as (b & Hb & Hw & Hm & Hr).
    exists b. repeat (split; [assumption|]).
    intros Hs. unfold seconds_remaining. split.
    + apply ceil_seconds_pos. lia.
    + apply ceil_seconds_mono. lia.
  - intros tier store now req b Hb Hw Hm. unfold createRateLimiter.
    rewrite (rateLimit_within _ _ _ _ b Hb Hw).
    now rewrite (proj2 (Z.ltb_lt _ _) Hm).
Qed.

Lemma rate_limit_rejection_witness :
  let req := request_of (Some {| id := 42; role := "user" |}) [] in
  snd (serve tier_60s_3 ∅
         [(1000, req); (2000, req); (3000, req); (59999, req); (61000, req)]%Z)
  = [Next; Next; Next; rejected tier_60s_3; Next].
Proof.
  intros req. destruct rate_limit_rejection as (_ & _ & _ & H).
  rewrite (H req 1000 2000 3000 59999 61000)%Z by lia. reflexivity.
Defined.

(** C3 as stated fails on the value of retryAfter.  Four requests of
    one client arrive 10 seconds apart; the fourth is rejected with
    retryAfter 60 while 30 seconds remain in the window. *)
Lemma retryAfter_is_not_remaining :
  let req := request_of (Some {| id := 42; role := "user" |}) [] in
  let run := serve tier_60s_3 ∅
               [(0, req); (10000, req); (20000, req); (30000, req)]%Z in
  snd run !! 3%nat
  = Some (Respond 429 {| error := "Rate limit exceeded";
                         message := "Too many requests";
                         retryAfter := Some 60%Z |})
  ∧ fst run !! keyGenerator req = Some {| count := 4; windowStart := 0 |}
  ∧ seconds_remaining tier_60s_3 {| count := 4; windowStart := 0 |} 30000 = 30%Z.
Proof. repeat split. Qed.

(** * Further properties *)

(** ** The registry *)

Section RegistryFacts.

Implicit Types (r p : string) (ps : list string) (req : Request).

(** The five registered names. *)
Lemma registered r role :
  own ROLES r = Some role →
  In r [ "guest"; "user"; "moderator"; "admin"; "superadmin" ].
Proof.
  unfold ROLES. cbn [own].
  repeat match goal with
         | |- context [String.eqb ?a r] =>
             destruct (String.eqb_spec a r) as [<-|_]; [intros _; simpl; tauto|]
         end.
  discriminate.
Qed.

Lemma registered_not_inherited r role :
  own ROLES r = Some role → ¬ In r object_prototype_keys.
Proof.
  intros H Hin. apply registered in H.
  simpl in H, Hin. intuition (subst; discriminate).
Qed.

(** Whether [hasPermission] throws depends on the role alone. *)
Lemma hasPermission_cases r :
  (∀ p, ∃ b, hasPermission r p = Normal b)
  ∨ (In r object_prototype_keys ∧ ∀ p, ∃ e, hasPermission r p = Throw e).
Proof.
  unfold hasPermission, hasPermissionIn, get.
  destruct (own ROLES r) as [role|] eqn:E.
  - left. intros p. destruct (includes "*" _); eauto.
  - destruct (bool_decide_reflect (r ∈ object_prototype_keys)) as [Hin|_].
    + right. split; [now apply list_elem_of_In | eauto].
    + left. eauto.
Qed.

Lemma includes_same p (l l' : list string) :
  (In p l ↔ In p l') → includes p l = includes p l'.
Proof.
  intros H. destruct (includes p l) eqn:E, (includes p l') eqn:E';
    try reflexivity.
  - apply includes_In, H, includes_In in E. congruence.
  - apply includes_In, H, includes_In in E'. congruence.
Qed.

End RegistryFacts.

(** X1.  The roles form a chain: every permission granted to [guest]
    is granted to [user], every one of [user] to [moderator], of
    [moderator] to [admin] and of [admin] to [superadmin]; [guest] is
    granted none. *)
Theorem role_hierarchy (p : string) :
  hasPermission "guest" p = Normal false
  ∧ (hasPermission "user" p = Normal true →
     hasPermission "moderator" p = Normal true)
  ∧ (hasPermission "moderator" p = Normal true →
     hasPermission "admin" p = Normal true)
  ∧ (hasPermission "admin" p = Normal true →
     hasPermission "superadmin" p = Normal true).
Proof.
  split; [reflexivity|]. split; [|split].
  - change (hasPermission "user" p)
      with (Normal (includes p (granted_to "user"))).
    change (hasPermission "moderator" p)
      with (Normal (includes p (granted_to "moderator"))).
    intros H0. assert (H : includes p (granted_to "user") = true) by congruence.
    f_equal. apply includes_In in H. apply includes_In.
    cbn in H |- *. tauto.
  - change (hasPermission "moderator" p)
      with (Normal (includes p (granted_to "moderator"))).
    change (hasPermission "admin" p)
      with (Normal (includes p (granted_to "admin"))).
    intros H0.
    assert (H : includes p (granted_to "moderator") = true) by congruence.
    f_equal. apply includes_In in H. apply includes_In.
    cbn in H |- *. tauto.
  - intros _. reflexivity.
Qed.

Lemma role_hierarchy_witness :
  hasPermission "moderator" "users:read" = Normal true
  ∧ hasPermission "admin" "users:read:all" = Normal true.
Proof.
  destruct (role_hierarchy "users:read") as (_ & H1 & _).
  destruct (role_hierarchy "users:read:all") as (_ & _ & H2 & _).
  split; [apply H1 | apply H2]; reflexivity.
Defined.

Lemma admin_permissions (p : string) :
  hasPermission "admin" p = Normal (includes p catalog).
Proof.
  change (hasPermission "admin" p)
    with (Normal (includes p (granted_to "admin"))).
  f_equal. apply includes_same. cbn. tauto.
Qed.

(** X2.  [admin] is granted exactly the permissions of the catalog: it
    holds no wildcard, so a permission that [PERMISSIONS] does not list
    is refused, however it is spelled. *)
Theorem admin_holds_the_catalog (p : string) :
  hasPermission "admin" p = Normal (includes p catalog)
  ∧ (hasPermission "admin" p = Normal true ↔ In p catalog).
Proof.
  pose proof (admin_permissions p) as H.
  split; [exact H|]. rewrite H. split.
  - intros H0. apply includes_In. congruence.
  - intros Hin. apply includes_In in Hin. now rewrite Hin.
Qed.

Lemma admin_holds_the_catalog_witness :
  hasPermission "admin" "users:delete:any" = Normal true.
Proof.
  apply (admin_holds_the_catalog "users:delete:any"). unfold catalog. simpl. tauto.
Defined.

(** X3.  [hasPermission] throws exactly for the twelve names that the
    registry object inherits from [Object.prototype], whatever the
    permission; for every other role string it returns a boolean. *)
Theorem hasPermission_throws_iff (r p : string) :
  (∃ e, hasPermission r p = Throw e) ↔ In r object_prototype_keys.
Proof.
  split.
  - intros [e H]. destruct (hasPermission_cases r) as [Hn|[Hin _]]; [|exact Hin].
    destruct (Hn p) as [b Hb]. congruence.
  - intros Hin. apply hasPermission_inherited; [|exact Hin].
    destruct (own ROLES r) as [role|] eqn:E; [|reflexivity].
    exfalso. now apply (registered_not_inherited r role).
Qed.

Lemma hasPermission_throws_iff_witness :
  ∃ e, hasPermission "hasOwnProperty" "profile:read" = Throw e.
Proof.
  apply (hasPermission_throws_iff "hasOwnProperty" "profile:read").
  simpl. tauto.
Defined.

(** ** The lists of permissions *)

Section PermissionLists.

Implicit Types (r p : string) (ps : list string) (req : Request).

Lemma some_true_iff r ps :
  some (hasPermission r) ps = Normal true
  ↔ ∃ p, In p ps ∧ hasPermission r p = Normal true.
Proof.
  induction ps as [|q ps IH]; simpl.
  - split; [discriminate | now intros (p & [] & _)].
  - destruct (hasPermission_cases r) as [Hn|[_ Ht]].
    + destruct (Hn q) as [[|] Hq]; rewrite Hq; simpl.
      * split; [eauto | reflexivity].
      * rewrite IH. split.
        -- intros (p & Hin & Hp). eauto.
        -- intros (p & [<-|Hin] & Hp); [congruence | eauto].
    + destruct (Ht q) as [e Hq]. rewrite Hq. simpl. split; [discriminate|].
      intros (p & _ & Hp). destruct (Ht p) as [e' He']. congruence.
Qed.

Lemma every_true_iff r ps :
  every (hasPermission r) ps = Normal true
  ↔ ∀ p, In p ps → hasPermission r p = Normal true.
Proof.
  induction ps as [|q ps IH]; simpl.
  - split; [now intros _ p [] | reflexivity].
  - destruct (hasPermission_cases r) as [Hn|[_ Ht]].
    + destruct (Hn q) as [[|] Hq]; rewrite Hq; simpl.
      * rewrite IH. split.
        -- intros H p [<-|Hin]; [assumption | now apply H].
        -- intros H p Hin. apply H. now right.
      * split; [discriminate|]. intros H.
        specialize (H q (or_introl eq_refl)). congruence.
    + destruct (Ht q) as [e Hq]. rewrite Hq. simpl. split; [discriminate|].
      intros H. specialize (H q (or_introl eq_refl)). congruence.
Qed.

End PermissionLists.

(** X4.  [hasAnyPermission] is true exactly when [hasPermission] is
    true for a permission of the list, and [hasAllPermissions] exactly
    when it is true for every one, for every role string; so on a list
    that is not empty all implies any, and a request that
    [requireAllPermissions(ps)] admits is admitted by
    [requireAnyPermission(ps)]. *)
Theorem any_and_all (r : string) (ps : list string) :
  (hasAnyPermission r ps = Normal true
   ↔ ∃ p, In p ps ∧ hasPermission r p = Normal true)
  ∧ (hasAllPermissions r ps = Normal true
     ↔ ∀ p, In p ps → hasPermission r p = Normal true)
  ∧ (ps ≠ [] → hasAllPermissions r ps = Normal true →
     hasAnyPermission r ps = Normal true)
  ∧ (ps ≠ [] → ∀ req,
       fst (requireAllPermissions ps req) = Next →
       fst (requireAnyPermission ps req) = Next).
Proof.
  assert (Himp : ∀ r, ps ≠ [] → hasAllPermissions r ps = Normal true →
                 hasAnyPermission r ps = Normal true).
  { intros r' Hne Hall. apply some_true_iff.
    destruct ps as [|q ps']; [contradiction|].
    exists q. split; [now left|].
    apply (proj1 (every_true_iff r' (q :: ps')) Hall). now left. }
  split; [apply some_true_iff|]. split; [apply every_true_iff|].
  split; [apply Himp|].
  intros Hne req. unfold requireAllPermissions, requireAnyPermission.
  destruct (user req) as [u|]; [|discriminate].
  destruct (hasAllPermissions (role u) ps) as [[|]|] eqn:E; try discriminate.
  intros _. now rewrite (Himp (role u) Hne E).
Qed.

Lemma any_and_all_witness :
  hasAnyPermission "moderator" ["users:read:all"; "users:update"] = Normal true
  ∧ fst (requireAnyPermission ["users:read:all"; "users:update"]
           (request_of (Some {| id := 8; role := "moderator" |}) [])) = Next.
Proof.
  destruct (any_and_all "moderator" ["users:read:all"; "users:update"])
    as (_ & _ & H1 & H2).
  split; [apply H1 | apply H2]; (reflexivity || discriminate).
Defined.

(** ** Ownership or permission *)

(** X5.  [requireOwnershipOrPermission(p, idParam)] answers 401 without
    identity and otherwise admits exactly when [hasPermission] is true,
    or is false while [parseInt] of the parameter is [identity.id].
    Hence it admits whatever [requirePermission(p)] admits, and whatever
    [requireOwnership(idParam)] admits for an identity that is no admin
    and whose role does not make the check throw. *)
Theorem ownership_or_permission (p idParam : string) (req : Request) :
  (user req = None →
     fst (requireOwnershipOrPermission p idParam req) = authentication_required)
  ∧ (∀ u, user req = Some u →
       (fst (requireOwnershipOrPermission p idParam req) = Next
        ↔ hasPermission (role u) p = Normal true
          ∨ (hasPermission (role u) p = Normal false
             ∧ parseInt (param_string (params req) idParam) = Fin (id u))))
  ∧ (fst (requirePermission p req) = Next →
     fst (requireOwnershipOrPermission p idParam req) = Next)
  ∧ (∀ u, user req = Some u → is_admin (role u) = false →
       ¬ In (role u) object_prototype_keys →
       fst (requireOwnership idParam req) = Next →
       fst (requireOwnershipOrPermission p idParam req) = Next).
Proof.
  assert (Hiff : ∀ u, user req = Some u →
            (fst (requireOwnershipOrPermission p idParam req) = Next
             ↔ hasPermission (role u) p = Normal true
               ∨ (hasPermission (role u) p = Normal false
                  ∧ parseInt (param_string (params req) idParam) = Fin (id u)))).
  { intros u Hu. unfold requireOwnershipOrPermission. rewrite Hu.
    destruct (hasPermission (role u) p) as [[|]|e].
    - split; [now left | reflexivity].
    - unfold strict_eq.
      destruct (strict_ne _ _) eqn:E; simpl.
      + apply strict_ne_true in E.
        split; [discriminate | intros [H|[_ H]]; [discriminate | contradiction]].
      + apply strict_ne_false in E. split; [now right | reflexivity].
    - split; [discriminate | intros [H|[H _]]; discriminate]. }
  split; [|split; [exact Hiff|split]].
  - unfold requireOwnershipOrPermission. now intros ->.
  - unfold requirePermission. destruct (user req) as [u|] eqn:Hu; [|discriminate].
    destruct (hasPermission (role u) p) as [[|]|e] eqn:E; try discriminate.
    intros _. apply (Hiff u eq_refl). now left.
  - intros u Hu Ha Hni Hown. apply (Hiff u Hu).
    rewrite (requireOwnership_plain idParam req u Hu Ha) in Hown.
    destruct (strict_ne _ _) eqn:E; [discriminate|].
    apply strict_ne_false in E.
    destruct (hasPermission_cases (role u)) as [Hn|[Hin _]]; [|contradiction].
    destruct (Hn p) as [[|] Hb]; [now left | now right].
Qed.

Lemma ownership_or_permission_witness :
  fst (requireOwnershipOrPermission "users:update:any" "id"
         (request_of (Some {| id := 9; role := "admin" |}) [("id", VStr "4")]))
  = Next
  ∧ fst (requireOwnershipOrPermission "users:update:any" "id"
           (request_of (Some {| id := 4; role := "user" |}) [("id", VStr "4")]))
    = Next.
Proof.
  split.
  - apply (ownership_or_permission "users:update:any" "id"). reflexivity.
  - eapply (ownership_or_permission "users:update:any" "id"
              (request_of (Some {| id := 4; role := "user" |}) [("id", VStr "4")]));
      [reflexivity | reflexivity | | reflexivity].
    simpl. intuition discriminate.
Defined.

(** X6.  The bypass of [requireOwnership] for admins has no counterpart
    in [requireOwnershipOrPermission]: for a permission outside the
    catalog, an admin who asks for the resource of another id passes the
    former and gets 403 from the latter. *)
Theorem admin_bypass_is_not_shared (p idParam : string) (req : Request)
    (u : Identity) :
  user req = Some u → role u = "admin" → ¬ In p catalog →
  parseInt (param_string (params req) idParam) ≠ Fin (id u) →
  fst (requireOwnership idParam req) = Next
  ∧ fst (requireOwnershipOrPermission p idParam req)
    = Respond 403
        (json "Access denied"
              "You can only access your own resources or need higher permissions").
Proof.
  intros Hu Hr Hp Hne. split.
  - apply (requireOwnership_admin idParam req u Hu). now rewrite Hr.
  - unfold requireOwnershipOrPermission. rewrite Hu, Hr.
    rewrite (admin_permissions p).
    destruct (includes p catalog) eqn:E.
    + apply includes_In in E. contradiction.
    + unfold strict_eq. apply strict_ne_true in Hne. now rewrite Hne.
Qed.

Lemma admin_bypass_is_not_shared_witness :
  fst (requireOwnership "id"
         (request_of (Some {| id := 1; role := "admin" |}) [("id", VStr "2")]))
  = Next
  ∧ fst (requireOwnershipOrPermission "orders:refund" "id"
           (request_of (Some {| id := 1; role := "admin" |}) [("id", VStr "2")]))
    = Respond 403
        (json "Access denied"
              "You can only access your own resources or need higher permissions").
Proof.
  apply (admin_bypass_is_not_shared "orders:refund" "id" _
           {| id := 1; role := "admin" |}); try reflexivity.
  - simpl. intuition discriminate.
  - discriminate.
Defined.

(** ** The guards together *)

(** X7.  None of the six guards lets a request without identity
    through: each answers 401 with the same body, whatever it was made
    for. *)
Theorem guards_need_identity (p : string) (ps rs : list string)
    (idParam : string) (req : Request) (guard : Middleware) :
  In guard (guards p ps rs idParam) → user req = None →
  fst (guard req) = authentication_required.
Proof.
  intros Hin Hu. unfold guards in Hin. simpl in Hin.
  destruct Hin as [<-|[<-|[<-|[<-|[<-|[<-|[]]]]]]];
    [unfold requireRole | unfold requirePermission
     | unfold requireAnyPermission | unfold requireAllPermissions
     | unfold requireOwnership | unfold requireOwnershipOrPermission];
    now rewrite Hu.
Qed.

Lemma guards_need_identity_witness :
  fst (requireOwnershipOrPermission "users:read" "id" (request_of None []))
  = authentication_required.
Proof.
  apply (guards_need_identity "users:read" [] [] "id" (request_of None []));
    [|reflexivity].
  unfold guards. simpl. tauto.
Defined.

Section Holders.

Implicit Types (r p : string) (req : Request).

(** The roles that a permission kept for admins is granted to. *)
Lemma admin_only_holders r p :
  In p admin_only →
  (hasPermission r p = Normal true ↔ r = "admin" ∨ r = "superadmin").
Proof.
  intros Hp. split.
  - intros H.
    destruct (own ROLES r) as [role|] eqn:E.
    + pose proof (registered r role E) as Hr. simpl in Hr.
      destruct Hr as [<-|[<-|[<-|[<-|[<-|[]]]]]]; try tauto; exfalso.
      * discriminate.
      * change (hasPermission "user" p)
          with (Normal (includes p (granted_to "user"))) in H.
        assert (H' : includes p (granted_to "user") = true) by congruence.
        apply includes_In in H'. cbn in H', Hp.
        intuition (subst; discriminate).
      * change (hasPermission "moderator" p)
          with (Normal (includes p (granted_to "moderator"))) in H.
        assert (H' : includes p (granted_to "moderator") = true) by congruence.
        apply includes_In in H'. cbn in H', Hp.
        intuition (subst; discriminate).
    + now apply (unregistered_never_granted r p) in E.
  - intros [->| ->].
    + rewrite admin_permissions. f_equal. apply includes_In.
      simpl in Hp |- *. intuition (subst; tauto).
    + reflexivity.
Qed.

End Holders.

(** X8.  For each of the seven permissions that the registry keeps for
    admins, the permission guard and the role guard for admin and
    superadmin admit the same requests. *)
Theorem role_guard_matches_permission_guard (p : string) (req : Request) :
  In p admin_only →
  (fst (requirePermission p req) = Next
   ↔ fst (requireRole ["admin"; "superadmin"] req) = Next).
Proof.
  intros Hp. unfold requirePermission, requireRole.
  destruct (user req) as [u|]; [|split; discriminate].
  pose proof (admin_only_holders (role u) p Hp) as H.
  destruct (includes (role u) ["admin"; "superadmin"]) eqn:E.
  - apply includes_In in E. simpl in E.
    assert (Hr : role u = "admin" ∨ role u = "superadmin")
      by (destruct E as [E|[E|[]]]; auto).
    apply H in Hr. rewrite Hr. split; reflexivity.
  - split; [|discriminate].
    destruct (hasPermission (role u) p) as [[|]|e] eqn:Hh; try discriminate.
    intros _. exfalso.
    destruct (proj1 H eq_refl) as [Hr|Hr];
      assert (includes (role u) ["admin"; "superadmin"] = true)
        by (apply includes_In; simpl; auto); congruence.
Qed.

Lemma role_guard_matches_permission_guard_witness :
  fst (requirePermission "admin:logs"
         (request_of (Some {| id := 2; role := "moderator" |}) [])) = Next
  ↔ fst (requireRole ["admin"; "superadmin"]
           (request_of (Some {| id := 2; role := "moderator" |}) [])) = Next.
Proof.
  apply (role_guard_matches_permission_guard "admin:logs").
  unfold admin_only. simpl. tauto.
Defined.

(** X9.  The utilities agree with the checks: the names that
    [getAvailableRoles] lists are exactly those for which [getRoleInfo]
    finds a role of the registry, and for each of them [hasPermission]
    is true exactly for the wildcard holders and for the permissions
    that [getUserPermissions] lists. *)
Theorem utilities_agree (r : string) :
  (In r getAvailableRoles ↔ ∃ role, getRoleInfo r = Own role)
  ∧ (In r getAvailableRoles →
     ∃ ps, getUserPermissions r = Some ps
           ∧ ∀ p, hasPermission r p = Normal (includes "*" ps || includes p ps)).
Proof.
  assert (Hown : In r getAvailableRoles ↔ ∃ role, own ROLES r = Some role).
  { split.
    - unfold getAvailableRoles. simpl.
      intros [<-|[<-|[<-|[<-|[<-|[]]]]]]; eexists; reflexivity.
    - intros [role H]. apply (registered r role H). }
  split.
  - rewrite Hown. unfold getRoleInfo, get. split; intros [role H].
    + rewrite H. eauto.
    + destruct (own ROLES r) as [role'|]; [eauto|].
      destruct (bool_decide _); discriminate.
  - intros Hin. apply Hown in Hin as [role H].
    exists (permissions role). unfold getUserPermissions, hasPermission,
      hasPermissionIn, get. rewrite H. split; [reflexivity|].
    intros p. now destruct (includes "*" (permissions role)).
Qed.

Lemma utilities_agree_witness :
  ∃ ps, getUserPermissions "user" = Some ps
        ∧ ∀ p, hasPermission "user" p = Normal (includes "*" ps || includes p ps).
Proof.
  apply (utilities_agree "user"). unfold getAvailableRoles. simpl. tauto.
Defined.

(** ** Ownership and the numeric prefix *)

Section NumericPrefix.

Implicit Types (c : ascii) (s ds rest : string) (req : Request) (u : Identity).

Lemma digit_radix c :
  is_digit c = true → ∃ d, radix_digit 10 c = Some d ∧ (0 ≤ d)%Z.
Proof.
  destruct c as [[] [] [] [] [] [] [] []]; vm_compute; try discriminate;
    intros _; eexists; (split; [reflexivity | discriminate]).
Qed.

Lemma not_digit_radix c : is_digit c = false → radix_digit 10 c = None.
Proof. ascii_cases c. Qed.

Lemma digits_append ds rest :
  all_chars is_digit ds = true → stops is_digit rest →
  digits 10 (ds +:+ rest) = digits 10 ds.
Proof.
  induction ds as [|c ds IH]; simpl; intros Hds Hrest.
  - destruct rest as [|c rest]; [reflexivity|]. simpl in *.
    now rewrite (not_digit_radix c Hrest).
  - apply andb_true_iff in Hds as [Hc Hds].
    destruct (digit_radix c Hc) as (d & -> & _). now rewrite IH.
Qed.

(** [parseInt] on a string that begins with a decimal digit, and not
    with the prefix of a hexadecimal literal. *)
Lemma parseInt_unsigned c s :
  is_digit c = true → (Ascii.eqb c "0" = true → stops is_x s) →
  parseInt (String c s)
  = match digits 10 (String c s) with
    | [] => NaN
    | ds => of_Z (1 * mathInt 10 ds)
    end.
Proof.
  intros Hc Hx.
  destruct c as [[] [] [] [] [] [] [] []]; try (vm_compute in Hc; discriminate);
    try reflexivity.
  specialize (Hx eq_refl). destruct s as [|c2 s]; [reflexivity|].
  simpl in Hx.
  destruct c2 as [[] [] [] [] [] [] [] []]; try (vm_compute in Hx; discriminate);
    reflexivity.
Qed.

(** The number of a parameter that begins with the digits [ds]. *)
Lemma parseInt_prefix ds rest :
  ds ≠ "" → all_chars is_digit ds = true → stops is_digit rest →
  (ds = "0" → stops is_x rest) →
  parseInt (ds +:+ rest) = of_Z (decimal_value ds).
Proof.
  intros Hne Hds Hrest Hx.
  destruct ds as [|c ds]; [contradiction|]. simpl in Hds.
  apply andb_true_iff in Hds as [Hc Hds].
  change (String c ds +:+ rest) with (String c (ds +:+ rest)).
  rewrite parseInt_unsigned; [|assumption|].
  - change (String c (ds +:+ rest)) with (String c ds +:+ rest).
    rewrite digits_append by first [assumption | simpl; now rewrite Hc, Hds].
    unfold decimal_value. simpl digits.
    destruct (digit_radix c Hc) as (d & -> & _).
    now rewrite Z.mul_1_l.
  - intros H0. apply Ascii.eqb_eq in H0. subst c.
    destruct ds as [|c2 ds]; [now apply Hx|].
    simpl in Hds |- *. apply andb_true_iff in Hds as [Hc2 _].
    clear -Hc2. revert Hc2. ascii_cases c2.
Qed.

Lemma of_Z_small z : (0 ≤ z < 2 ^ 53)%Z → of_Z z = Fin z.
Proof.
  intros H. unfold of_Z. rewrite Z.abs_eq by lia.
  now rewrite (proj2 (Z.ltb_lt _ _) (proj2 H)).
Qed.

End NumericPrefix.

(** X10.  For an identity that is no admin, [requireOwnership] admits
    every parameter that begins with the decimal digits of the id,
    leading zeros included, whatever follows them, unless the digits
    are a lone 0 followed by x, which starts a hexadecimal literal. *)
Theorem ownership_reads_a_prefix (idParam ds rest : string) (req : Request)
    (u : Identity) :
  user req = Some u → is_admin (role u) = false →
  own (params req) idParam = Some (VStr (ds +:+ rest)) →
  ds ≠ "" → all_chars is_digit ds = true → stops is_digit rest →
  (ds = "0" → stops is_x rest) →
  decimal_value ds = id u → (id u < 2 ^ 53)%Z →
  fst (requireOwnership idParam req) = Next.
Proof.
  intros Hu Ha Hp Hne Hds Hrest Hx Hid Hlt.
  rewrite (requireOwnership_plain idParam req u Hu Ha).
  rewrite (bound_param _ _ _ Hp). cbn [to_string].
  rewrite (parseInt_prefix ds rest Hne Hds Hrest Hx), Hid.
  rewrite of_Z_small.
  - now rewrite (proj2 (strict_ne_false (Fin (id u)) (id u)) eq_refl).
  - split; [rewrite <- Hid; apply decimal_value_nonneg | assumption].
Qed.

Lemma ownership_reads_a_prefix_witness :
  fst (requireOwnership "id"
         (request_of (Some {| id := 42; role := "user" |})
                     [("id", VStr "0042/../7")])) = Next.
Proof.
  apply (ownership_reads_a_prefix "id" "0042" "/../7" _
           {| id := 42; role := "user" |});
    try reflexivity; discriminate.
Defined.

(** X11.  When [userIdSchema] accepts the path parameters, the string
    under [id] consists of digits only and [requireOwnership("id")]
    compares exactly the number that the schema produced: an identity
    that is no admin passes if and only if that number is its id. *)
Theorem validated_id_is_compared_exactly (req : Request) (u : Identity)
    (n : number) :
  user req = Some u → is_admin (role u) = false →
  userIdSchema (params req) = inl n →
  (∃ s, own (params req) "id" = Some (VStr s) ∧ s ≠ ""
        ∧ all_chars is_digit s = true ∧ parseInt s = n)
  ∧ (fst (requireOwnership "id" req) = Next ↔ n = Fin (id u)).
Proof.
  intros Hu Ha Hs. unfold userIdSchema in Hs.
  destruct (own (params req) "id") as [[| | | |s| | |]|] eqn:Hp; try discriminate.
  destruct s as [|c s]; [discriminate|].
  destruct (all_chars is_digit (String c s)) eqn:Hd; [|discriminate].
  injection Hs as <-.
  assert (Hparse : parseInt (String c s) = of_Z (decimal_value (String c s))).
  { rewrite <- (append_empty (String c s)) at 1.
    apply parseInt_prefix; [discriminate | assumption | exact I|].
    intros _. exact I. }
  split.
  - exists (String c s). repeat split; [discriminate | assumption | assumption].
  - rewrite (requireOwnership_plain "id" req u Hu Ha).
    rewrite (bound_param _ _ _ Hp). cbn [to_string]. rewrite Hparse.
    destruct (strict_ne _ _) eqn:E.
    + apply strict_ne_true in E. split; [discriminate | contradiction].
    + apply strict_ne_false in E. split; [now intros _ | reflexivity].
Qed.

Lemma validated_id_is_compared_exactly_witness :
  fst (requireOwnership "id"
         (request_of (Some {| id := 7; role := "user" |}) [("id", VStr "007")]))
  = Next.
Proof.
  apply (validated_id_is_compared_exactly
           (request_of (Some {| id := 7; role := "user" |}) [("id", VStr "007")])
           {| id := 7; role := "user" |} (Fin 7)); reflexivity.
Defined.

(** ** The request size limit *)

Section SizeLimit.

Implicit Types (limit cl int ws u unit : string) (req : Request) (z n : Z).

Lemma gt_integers z m : gt (Fin z) (Bytes (inject_Z m)) = negb (z <=? m)%Z.
Proof.
  unfold gt. f_equal. destruct (Z.leb_spec z m) as [H|H].
  - apply Qle_bool_iff. now rewrite <- Zle_Qle.
  - destruct (Qle_bool (inject_Z z) (inject_Z m)) eqn:E; [|reflexivity].
    apply Qle_bool_iff in E. rewrite <- Zle_Qle in E. lia.
Qed.

(** The outcome for a request that declares a length. *)
Lemma requestSizeLimit_declared limit req cl :
  own (headers req) "content-length" = Some cl → cl ≠ "" →
  fst (requestSizeLimit limit req)
  = if gt (parseInt cl) (parseSize limit)
    then Respond 413 (json "Payload too large"
                           ("Request size exceeds limit of " +:+ limit))
    else Next.
Proof.
  intros H Hne. unfold requestSizeLimit. rewrite H.
  destruct cl as [|c cl]; [contradiction|]. now destruct (gt _ _).
Qed.

Lemma parseInt_empty : parseInt "" = NaN.
Proof. reflexivity. Qed.

Lemma inherited_az unit :
  all_chars is_az unit = true → In unit object_prototype_keys →
  unit = "constructor".
Proof.
  intros Haz Hin. simpl in Hin.
  repeat (destruct Hin as [<-|Hin]; [first [reflexivity | discriminate]|]).
  contradiction.
Qed.

(** A unit that the table does not list. *)
Lemma parseSize_other_unit int ws unit :
  int ≠ "" → all_chars is_digit int = true → all_chars is_space ws = true →
  unit ≠ "" → all_chars is_az unit = true → own units unit = None →
  parseSize (int +:+ ws +:+ unit)
  = if String.eqb unit "constructor" then NotANumber
    else times (nearest (inject_Z (decimal_value int))) 1.
Proof.
  intros Hne Hint Hws Hu0 Haz Hu.
  unfold parseSize. rewrite (size_match_units int ws unit Hne Hint Hws Hu0 Haz).
  unfold get. rewrite Hu, (parseFloat_integer int Hint).
  destruct (String.eqb_spec unit "constructor") as [->|Hc]; [reflexivity|].
  destruct (bool_decide_reflect (unit ∈ object_prototype_keys)) as [Hin|_];
    [|reflexivity].
  exfalso. apply Hc, (inherited_az _ Haz). now apply list_elem_of_In.
Qed.

End SizeLimit.

(** X12.  A request without a Content-Length header, or with one that
    has no numeric prefix, passes the size limit whatever the limit
    is. *)
Theorem size_limit_needs_a_number (limit : string) (req : Request) :
  (∀ cl, own (headers req) "content-length" = Some cl → parseInt cl = NaN) →
  requestSizeLimit limit req = (Next, []).
Proof.
  intros H. unfold requestSizeLimit.
  destruct (own (headers req) "content-length") as [[|c cl]|]; try reflexivity.
  now rewrite (H (String c cl) eq_refl).
Qed.

Lemma size_limit_needs_a_number_witness :
  requestSizeLimit "1b"
    (upload "huge")
  = (Next, []).
Proof.
  apply size_limit_needs_a_number. intros cl [= <-]. reflexivity.
Defined.

(** X13.  With a limit that is no size string the limit is 0: a request
    passes only if the number of its Content-Length is 0 or less, and
    every other declared length is answered 413. *)
Theorem unparsable_limit_rejects (limit cl : string) (req : Request) (z : Z) :
  ¬ size_grammar (toLowerCase limit) →
  own (headers req) "content-length" = Some cl → parseInt cl = Fin z →
  (fst (requestSizeLimit limit req) = Next ↔ (z ≤ 0)%Z)
  ∧ ((0 < z)%Z →
     fst (requestSizeLimit limit req)
     = Respond 413 (json "Payload too large"
                         ("Request size exceeds limit of " +:+ limit))).
Proof.
  intros Hg Hcl Hz.
  assert (Hne : cl ≠ "") by (intros ->; discriminate).
  rewrite (requestSizeLimit_declared limit req cl Hcl Hne), Hz.
  apply size_match_none in Hg. unfold parseSize. rewrite Hg.
  rewrite gt_integers. destruct (Z.leb_spec z 0) as [H|H]; simpl.
  - split; [tauto | lia].
  - split; [split; [discriminate | lia] | reflexivity].
Qed.

Lemma unparsable_limit_rejects_witness :
  fst (requestSizeLimit "ten megabytes"
         (upload "1"))
  = Respond 413 (json "Payload too large"
                      "Request size exceeds limit of ten megabytes").
Proof.
  apply (unparsable_limit_rejects "ten megabytes" "1" (upload "1") 1);
    try reflexivity.
  apply size_match_none. reflexivity.
Defined.

(** X14.  With a limit of a whole number of units of the table, a
    request passes exactly when the number of its Content-Length does
    not exceed the number times the unit, as long as that product is
    below 2^53.  Beyond, the limit is the nearest double: under the
    limit 9007199254740995b a request of 9007199254740996 bytes
    passes. *)
Theorem size_limit_in_units (int ws u cl : string) (n z : Z) (req : Request) :
  int ≠ "" → all_chars is_digit int = true → all_chars is_space ws = true →
  own units u = Some n → (decimal_value int * n < 2 ^ 53)%Z →
  own (headers req) "content-length" = Some cl → parseInt cl = Fin z →
  (fst (requestSizeLimit (int +:+ ws +:+ u) req) = Next
   ↔ (z ≤ decimal_value int * n)%Z)
  ∧ parseSize "9007199254740995b" = Bytes (inject_Z 9007199254740996)
  ∧ fst (requestSizeLimit "9007199254740995b" (upload "9007199254740996")) = Next.
Proof.
  intros Hne Hint Hws Hu Hlt Hcl Hz.
  split; [|split; vm_compute; reflexivity].
  assert (Hcl0 : cl ≠ "") by (intros ->; discriminate).
  rewrite (requestSizeLimit_declared _ req cl Hcl Hcl0), Hz.
  rewrite (parseSize_units int ws u n Hne Hint Hws Hu).
  rewrite times_integer
    by first [apply decimal_value_nonneg | now apply (unit_positive u) | assumption].
  rewrite gt_integers.
  destruct (Z.leb_spec z (decimal_value int * n)) as [H|H]; simpl.
  - tauto.
  - split; [discriminate | lia].
Qed.

Lemma size_limit_in_units_witness :
  fst (requestSizeLimit "2kb"
         (upload "2048"))
  = Next.
Proof.
  apply (size_limit_in_units "2" "" "kb" "2048" 1024 2048 (upload "2048"));
    try reflexivity; discriminate.
Defined.

(** X15.  A unit that the table does not list counts as bytes, so that
    a limit such as 10tb is 10 bytes (the number itself, below 2^53);
    and the unit constructor, which the table object inherits, makes
    the limit NaN, with which no request is rejected. *)
Theorem unlisted_unit (int ws unit : string) :
  int ≠ "" → all_chars is_digit int = true → all_chars is_space ws = true →
  unit ≠ "" → all_chars is_az unit = true → own units unit = None →
  (unit ≠ "constructor" → (decimal_value int < 2 ^ 53)%Z →
   parseSize (int +:+ ws +:+ unit) = Bytes (inject_Z (decimal_value int)))
  ∧ (unit = "constructor" →
     ∀ req, fst (requestSizeLimit (int +:+ ws +:+ unit) req) = Next).
Proof.
  intros Hne Hint Hws Hu0 Haz Hu.
  pose proof (parseSize_other_unit int ws unit Hne Hint Hws Hu0 Haz Hu) as H.
  split.
  - intros Hc Hlt. rewrite H.
    destruct (String.eqb_spec unit "constructor"); [contradiction|].
    rewrite times_integer by first [apply decimal_value_nonneg | lia].
    now rewrite Z.mul_1_r.
  - intros -> req. rewrite String.eqb_refl in H.
    unfold requestSizeLimit. rewrite H.
    destruct (own (headers req) "content-length") as [[|c cl]|]; try reflexivity.
    unfold gt. now destruct (parseInt (String c cl)) as [|?|[|]].
Qed.

Lemma unlisted_unit_witness :
  parseSize "10tb" = Bytes (inject_Z 10).
Proof.
  apply (unlisted_unit "10" "" "tb"); try reflexivity; discriminate.
Defined.

(** ** The detector, exactly *)

Section DetectorFacts.

Implicit Types (req : Request) (s : string).

Lemma detector_outcome req :
  suspiciousActivityDetector req
  = if existsb threat (inspected req) then suspicious_content else (Next, []).
Proof.
  unfold suspiciousActivityDetector. now rewrite suspicious_inspected.
Qed.

Lemma existsb_false {A} (f : A → bool) (l : list A) :
  existsb f l = false ↔ ∀ x, In x l → f x = false.
Proof.
  split.
  - intros H x Hin. destruct (f x) eqn:E; [|reflexivity].
    assert (existsb f l = true) by (apply existsb_exists; eauto). congruence.
  - intros H. destruct (existsb f l) eqn:E; [|reflexivity].
    apply existsb_exists in E as (x & Hin & Hx). rewrite (H x Hin) in Hx.
    discriminate.
Qed.

Lemma flat_map_values {B} (f : value → list B) (props : list (string * value)) :
  flat_map (λ kv, f (snd kv)) props = flat_map f (map snd props).
Proof.
  induction props as [|[k v] props IH]; simpl; [reflexivity | now rewrite IH].
Qed.

End DetectorFacts.

(** X16.  The detector lets a request pass exactly when none of the
    strings it looks at, the string values at any depth of body, query
    and path parameters and the two headers, matches a pattern; it has
    no other answer than the next stage and the 400. *)
Theorem detector_is_exact (req : Request) :
  (suspiciousActivityDetector req = (Next, [])
   ↔ ∀ s, In s (inspected req) → threat s = false)
  ∧ (suspiciousActivityDetector req = (Next, [])
     ∨ suspiciousActivityDetector req = suspicious_content).
Proof.
  rewrite detector_outcome, <- existsb_false.
  destruct (existsb threat (inspected req)).
  - split; [split; discriminate | now right].
  - split; [split; reflexivity | now left].
Qed.

Lemma detector_is_exact_witness :
  suspiciousActivityDetector (post (VObj [("age", VNum 30); ("name", VStr "Ann Lee")]))
  = (Next, []).
Proof.
  apply (detector_is_exact (post (VObj [("age", VNum 30); ("name", VStr "Ann Lee")]))).
  unfold inspected. simpl. intros s [<-|[]]. reflexivity.
Defined.

(** X17.  A User-Agent header with one of the ten metacharacters, such
    as the parentheses and semicolons of the browsers' product tokens,
    is enough for the 400, whatever the payload. *)
Theorem user_agent_metacharacter (req : Request) (a b : string) (c : ascii) :
  In c [ "<"; ">"; "'"; double_quote; "%"; ";"; "("; ")"; "&"; "+" ]%char →
  own (headers req) "user-agent" = Some (a +:+ String c b) →
  suspiciousActivityDetector req = suspicious_content.
Proof.
  intros Hc Hua. rewrite detector_outcome.
  assert (E : existsb threat (inspected req) = true).
  { apply existsb_exists. exists (a +:+ String c b). split.
    - unfold inspected. rewrite !in_app_iff. right; right; right; left.
      change (req_get req "User-Agent") with (own (headers req) "user-agent").
      rewrite Hua. now left.
    - now apply (proj1 threat_kinds). }
  now rewrite E.
Qed.

Lemma user_agent_metacharacter_witness :
  suspiciousActivityDetector
    {| user := None; body := VObj [("name", VStr "hello world")];
       query := VObj []; params := [];
       headers := [("user-agent", "Mozilla/5.0 (X11; Linux x86_64)")];
       ip := "203.0.113.7"; remoteAddress := "203.0.113.7";
       path := "/users"; method := "POST" |}
  = suspicious_content.
Proof.
  apply (user_agent_metacharacter _ "Mozilla/5.0 " "X11; Linux x86_64)" "(");
    [simpl; tauto | reflexivity].
Defined.

(** X18.  The detector never looks at property names: two bodies with
    the same values under different keys get the same answer. *)
Theorem detector_ignores_keys (req : Request) (props props' : list (string * value)) :
  map snd props = map snd props' →
  suspiciousActivityDetector (with_body req (VObj props))
  = suspiciousActivityDetector (with_body req (VObj props')).
Proof.
  intros H. rewrite !detector_outcome. unfold inspected, with_body. simpl.
  change (req_get {| user := user req; body := VObj props; query := query req;
                     params := params req; headers := headers req; ip := ip req;
                     remoteAddress := remoteAddress req; path := path req;
                     method := method req |})
    with (req_get req).
  change (req_get {| user := user req; body := VObj props'; query := query req;
                     params := params req; headers := headers req; ip := ip req;
                     remoteAddress := remoteAddress req; path := path req;
                     method := method req |})
    with (req_get req).
  now rewrite (flat_map_values strings props), (flat_map_values strings props'), H.
Qed.

Lemma detector_ignores_keys_witness :
  suspiciousActivityDetector
    (with_body (post VNull) (VObj [("<script>", VNum 1); ("drop", VStr "ok")]))
  = suspiciousActivityDetector
      (with_body (post VNull) (VObj [("a", VNum 1); ("b", VStr "ok")])).
Proof. apply detector_ignores_keys. reflexivity. Defined.

(** ** The sanitizer's walk *)

Section WalkFacts.

Variable pkg : Packages.

Implicit Types (props entries : list (string * value)) (items : list value)
  (v proto : value).

Lemma kept_keys props :
  map fst (kept pkg props) = List.filter ordinary_key (map fst props).
Proof.
  induction props as [|[k v] props IH]; [reflexivity|].
  rewrite kept_cons. cbn [map List.filter fst]. unfold ordinary_key at 1.
  destruct (String.eqb k "__proto__"); cbn [negb map fst]; now rewrite IH.
Qed.

(** A replaced prototype stays when no later entry replaces it. *)
Lemma sanitizeEntries_keeps proto props entries :
  existsb replaces_prototype entries = false →
  sanitizeEntries pkg (VProto proto props) entries
  = VProto proto (props ++ kept pkg entries).
Proof.
  revert props.
  induction entries as [|[key v] entries IH]; intros props Hno.
  - now rewrite kept_nil, app_nil_r.
  - cbn [existsb] in Hno. apply orb_false_iff in Hno as [Hkv Hno].
    rewrite sanitizeEntries_cons, kept_cons.
    unfold replaces_prototype in Hkv. cbn [fst snd] in Hkv.
    unfold assign. destruct (String.eqb key "__proto__").
    + rewrite is_prototype_sanitizeValue.
      cbn [andb] in Hkv. rewrite Hkv. now apply IH.
    + rewrite IH by assumption. now rewrite <- app_assoc.
Qed.

Lemma kept_app entries entries' :
  kept pkg (entries ++ entries') = kept pkg entries ++ kept pkg entries'.
Proof.
  unfold kept. now rewrite List.filter_app, map_app.
Qed.

(** The last entry that replaces the prototype gives the prototype of
    the result: its value, sanitized. *)
Lemma sanitizeObject_installs before v after :
  is_prototype v = true → existsb replaces_prototype after = false →
  sanitizeObject pkg (VObj (before ++ ("__proto__", v) :: after))
  = VProto (sanitizeValue pkg (sanitizeObject pkg) "__proto__" v)
           (kept pkg (before ++ ("__proto__", v) :: after)).
Proof.
  intros Hv Hafter. rewrite sanitizeObject_entries. cbn [object_entries].
  unfold sanitizeEntries. rewrite fold_left_app. cbn [fold_left].
  fold (sanitizeEntries pkg (VObj []) before).
  fold (sanitizeEntries pkg
          (sanitizeEntry pkg (sanitizeEntries pkg (VObj []) before) ("__proto__", v))
          after).
  unfold sanitizeEntry. cbn [fst snd]. unfold assign. cbn [String.eqb Ascii.eqb Bool.eqb andb].
  rewrite is_prototype_sanitizeValue, Hv.
  rewrite sanitizeEntries_keeps by assumption. f_equal.
  rewrite kept_app, kept_cons. cbn [String.eqb Ascii.eqb Bool.eqb andb].
  f_equal.
  destruct (existsb replaces_prototype before) eqn:E.
  - destruct (sanitizeEntries_replaces pkg [] before E) as [proto ->]. reflexivity.
  - now rewrite (sanitizeEntries_ordinary pkg [] before E).
Qed.

Lemma sanitizeItem_other items :
  forallb (λ x, negb (is_string x)) items = true →
  map (sanitizeItem pkg) items = items.
Proof.
  induction items as [|x items IH]; simpl; [reflexivity|].
  intros H. apply andb_true_iff in H as [Hx H].
  rewrite (IH H). now destruct x.
Qed.

(** [sanitizeInput], by the assignments that the request takes. *)
Lemma sanitizeProperty_cases (writable : string → bool) name v :
  sanitizeProperty pkg writable name v
  = if is_object v && negb (writable name)
    then Throw (TypeError ("Cannot set property " +:+ name))
    else Normal (if is_object v then sanitizeObject pkg v else v).
Proof.
  unfold sanitizeProperty. now destruct (is_object v), (writable name).
Qed.

End WalkFacts.

(** X19.  [sanitizeObject] keeps the own properties of an object in
    their order, under their keys, except an own property [__proto__]:
    that one is never an own property of the result.  Its value,
    sanitized, becomes the prototype of the result when it is an
    object, an array or [null], and is dropped when it is anything
    else; without it the result has the prototype of every object. *)
Theorem sanitizer_keeps_keys (pkg : Packages) (props : list (string * value)) :
  map fst (object_entries (sanitizeObject pkg (VObj props)))
  = List.filter ordinary_key (map fst props)
  ∧ (existsb replaces_prototype props = false →
     sanitizeObject pkg (VObj props) = VObj (kept pkg props))
  ∧ (∀ before v after,
       props = before ++ ("__proto__", v) :: after →
       is_prototype v = true → existsb replaces_prototype after = false →
       sanitizeObject pkg (VObj props)
       = VProto (sanitizeValue pkg (sanitizeObject pkg) "__proto__" v)
                (kept pkg props)).
Proof.
  split; [|split].
  - rewrite sanitizeObject_own_props. apply kept_keys.
  - apply (sanitizeObject_ordinary pkg (VObj props)).
  - intros before v after -> Hv Hafter. now apply sanitizeObject_installs.
Qed.

Lemma sanitizer_keeps_keys_witness :
  sanitizeObject Reference.packages
    (VObj [ ("name", VStr "<b>Ann</b>");
            ("__proto__", VObj [("admin", VBool true)]);
            ("age", VNum 30) ])
  = VProto (VObj [("admin", VBool true)])
           [ ("name", VStr "Ann"); ("age", VNum 30) ].
Proof.
  exact (proj2 (proj2 (sanitizer_keeps_keys Reference.packages
                         [ ("name", VStr "<b>Ann</b>");
                           ("__proto__", VObj [("admin", VBool true)]);
                           ("age", VNum 30) ]))
           [("name", VStr "<b>Ann</b>")] (VObj [("admin", VBool true)])
           [("age", VNum 30)] eq_refl eq_refl eq_refl).
Defined.



(** X21.  [sanitizeInput] answers with the next stage or with the 400
    for invalid input data, and with the next stage exactly when the
    request takes every assignment that the middleware makes: to
    [params] always, to [body] and to [query] when they hold an object.
    Where [query] cannot be assigned, a request with a query object is
    answered 400, after its body has been replaced.  A body that is no
    object, such as a bare string, is never sanitized. *)
Theorem sanitizeInput_answers (pkg : Packages) (writable : string → bool)
    (req : Request) :
  (snd (sanitizeInput pkg writable req) = (Next, [])
   ∨ snd (sanitizeInput pkg writable req) = invalid_input)
  ∧ (snd (sanitizeInput pkg writable req) = (Next, [])
     ↔ (is_object (body req) = true → writable "body" = true)
       ∧ (is_object (query req) = true → writable "query" = true)
       ∧ writable "params" = true)
  ∧ (snd (sanitizeInput pkg writable req) = (Next, []) →
     fst (sanitizeInput pkg writable req)
     = {| req_body := if is_object (body req) then sanitizeObject pkg (body req)
                      else body req;
          req_query := if is_object (query req) then sanitizeObject pkg (query req)
                       else query req;
          req_params := sanitizeObject pkg (VObj (params req)) |})
  ∧ (is_object (body req) = true → writable "body" = true →
     req_body (fst (sanitizeInput pkg writable req)) = sanitizeObject pkg (body req))
  ∧ (is_object (body req) = false →
     req_body (fst (sanitizeInput pkg writable req)) = body req).
Proof.
  unfold sanitizeInput. rewrite !sanitizeProperty_cases.
  cbn [is_object andb].
  destruct (is_object (body req)), (is_object (query req)),
    (writable "body"), (writable "query"), (writable "params");
    cbn [andb negb fst snd req_body];
    (split; [first [now left | now right]|]);
    (split; [split; [first [discriminate | tauto]
                    | intros (H1 & H2 & H3);
                      first [reflexivity
                            | discriminate (H1 eq_refl)
                            | discriminate (H2 eq_refl)
                            | discriminate H3] ]|]);
    (split; [first [discriminate | reflexivity]|]);
    (split; first [reflexivity | discriminate | intros; reflexivity
                  | intros; discriminate]).
Qed.

Lemma sanitizeInput_answers_witness :
  let req :=
    {| user := None; body := VObj [("bio", VStr "<b>hi</b>")];
       query := VObj [("page", VStr "2")]; params := [];
       headers := []; ip := "203.0.113.7"; remoteAddress := "203.0.113.7";
       path := "/users"; method := "POST" |} in
  snd (sanitizeInput Reference.packages all_writable req) = (Next, [])
  ∧ req_body (fst (sanitizeInput Reference.packages read_only_query req))
    = sanitizeObject Reference.packages (body req)
  ∧ snd (sanitizeInput Reference.packages read_only_query req) ≠ (Next, []).
Proof.
  intros req.
  destruct (sanitizeInput_answers Reference.packages all_writable req)
    as (_ & Hnext & _).
  destruct (sanitizeInput_answers Reference.packages read_only_query req)
    as (_ & Hquery & _ & Hbody & _).
  split; [|split].
  - apply Hnext. repeat split.
  - apply Hbody; reflexivity.
  - intros H. apply Hquery in H. destruct H as (_ & H & _).
    discriminate (H eq_refl).
Defined.

(** ** Token authentication *)

Section AuthenticationFacts.

Variable cookies_get : Request → string → completion (option string).
Variable verify : string → completion (option Identity).

Implicit Types (req : Request) (s t : string) (u : Identity).

Lemma split_spaceless s : spaceless s = true → split " " s = [s].
Proof.
  unfold spaceless. induction s as [|c s IH]; simpl; [reflexivity|].
  intros H. apply andb_true_iff in H as [Hc Hs].
  apply negb_true_iff in Hc. now rewrite Hc, (IH Hs).
Qed.

Lemma split_field s t :
  spaceless s = true → split " " (s +:+ String " " t) = s :: split " " t.
Proof.
  unfold spaceless. induction s as [|c s IH]; simpl; [reflexivity|].
  intros H. apply andb_true_iff in H as [Hc Hs].
  apply negb_true_iff in Hc. now rewrite Hc, (IH Hs).
Qed.

Lemma truthy_some (o : option string) t : truthy o = Some t → o = Some t ∧ t ≠ "".
Proof.
  destruct o as [[|c s]|]; simpl; try discriminate.
  intros [= <-]. split; [reflexivity | discriminate].
Qed.

Lemma authenticateToken_cases req cookie :
  cookies_get req "token" = Normal cookie →
  authenticateToken cookies_get verify req
  = match presented cookie req with
    | None => (req, (access_denied "No token provided", []))
    | Some t =>
        match verify t with
        | Throw _ =>
            (req, (access_denied "Invalid token",
                   [ {| level := Error; text := "Authentication error:" |} ]))
        | Normal None => (req, (access_denied "Invalid token", []))
        | Normal (Some decoded) => (with_user req decoded, (Next, []))
        end
    end.
Proof. intros H. unfold authenticateToken, presented. now rewrite H. Qed.

End AuthenticationFacts.

Lemma authenticateToken_outcomes
    (cookies_get : Request → string → completion (option string))
    (verify : string → completion (option Identity)) (req : Request) :
  let result := authenticateToken cookies_get verify req in
  (fst (snd result) = Next
   ∨ fst (snd result) = access_denied "No token provided"
   ∨ fst (snd result) = access_denied "Invalid token")
  ∧ (fst (snd result) = Next →
     ∃ t u, t ≠ "" ∧ verify t = Normal (Some u) ∧ fst result = with_user req u)
  ∧ (fst (snd result) ≠ Next → fst result = req).
Proof.
  cbv zeta. unfold authenticateToken.
  destruct (cookies_get req "token") as [cookie|e]; cbn [fst snd].
  2:{ split; [tauto|]. split; [discriminate | reflexivity]. }
  destruct (truthy (match truthy cookie with
                    | Some t => Some t
                    | None => bearer req
                    end)) as [t|] eqn:Ht; cbn [fst snd].
  2:{ split; [tauto|]. split; [discriminate | reflexivity]. }
  apply truthy_some in Ht as [_ Hne].
  destruct (verify t) as [[u|]|e] eqn:Hv; cbn [fst snd].
  - split; [tauto|]. split; [|congruence]. intros _. exists t, u. auto.
  - split; [tauto|]. split; [discriminate | reflexivity].
  - split; [tauto|]. split; [discriminate | reflexivity].
Qed.


(** X22.  Whatever the helpers do, [authenticateToken] answers with the
    next stage or with one of two 401 bodies and lets no exception
    through; it passes only with a token that [verify] decoded, and
    then attaches exactly the decoded identity; when it does not pass,
    the request is left as it came. *)
Theorem authentication_outcomes
    (cookies_get : Request → string → completion (option string))
    (verify : string → completion (option Identity)) (req : Request) :
  let result := authenticateToken cookies_get verify req in
  (fst (snd result) = Next
   ∨ fst (snd result) = access_denied "No token provided"
   ∨ fst (snd result) = access_denied "Invalid token")
  ∧ (fst (snd result) = Next →
     ∃ t u, t ≠ "" ∧ verify t = Normal (Some u) ∧ fst result = with_user req u)
  ∧ (fst (snd result) ≠ Next → fst result = req).
Proof. apply authenticateToken_outcomes. Qed.

Lemma authentication_outcomes_witness :
  ∃ t u, t ≠ "" ∧ knows "abc" {| id := 3; role := "user" |} t = Normal (Some u)
         ∧ fst (authenticateToken no_cookie
                  (knows "abc" {| id := 3; role := "user" |})
                  (authorized "Bearer abc"))
           = with_user (authorized "Bearer abc") u.
Proof.
  apply (authentication_outcomes no_cookie
           (knows "abc" {| id := 3; role := "user" |}) (authorized "Bearer abc")).
  reflexivity.
Defined.

(** X23.  The token is the cookie when there is one, and else the
    second field of the Authorization header, whose first field is not
    looked at: any scheme word passes, and a header without a space, or
    with two spaces after the scheme, carries no token. *)
Theorem token_selection
    (cookies_get : Request → string → completion (option string))
    (verify : string → completion (option Identity)) (req : Request) :
  (∀ c u, c ≠ "" → cookies_get req "token" = Normal (Some c) →
     verify c = Normal (Some u) →
     authenticateToken cookies_get verify req = (with_user req u, (Next, [])))
  ∧ (∀ cookie scheme t u,
       cookies_get req "token" = Normal cookie → truthy cookie = None →
       own (headers req) "authorization" = Some (scheme +:+ " " +:+ t) →
       spaceless scheme = true → spaceless t = true → t ≠ "" →
       verify t = Normal (Some u) →
       authenticateToken cookies_get verify req = (with_user req u, (Next, [])))
  ∧ (∀ cookie h,
       cookies_get req "token" = Normal cookie → truthy cookie = None →
       own (headers req) "authorization" = Some h → spaceless h = true →
       authenticateToken cookies_get verify req
       = (req, (access_denied "No token provided", [])))
  ∧ (∀ cookie scheme rest,
       cookies_get req "token" = Normal cookie → truthy cookie = None →
       own (headers req) "authorization" = Some (scheme +:+ "  " +:+ rest) →
       spaceless scheme = true →
       authenticateToken cookies_get verify req
       = (req, (access_denied "No token provided", []))).
Proof.
  split; [|split; [|split]].
  - intros c u Hc Hcookie Hv.
    rewrite (authenticateToken_cases _ _ _ _ Hcookie). unfold presented.
    destruct c as [|a c]; [contradiction|]. cbn [truthy]. now rewrite Hv.
  - intros cookie scheme t u Hcookie Hnone Hh Hs Ht Hne Hv.
    rewrite (authenticateToken_cases _ _ _ _ Hcookie). unfold presented, bearer.
    rewrite Hnone, Hh.
    change (scheme +:+ " " +:+ t) with (scheme +:+ String " " t).
    rewrite (split_field scheme t Hs), (split_spaceless t Ht).
    cbn [nth_error]. destruct t as [|a t]; [contradiction|]. cbn [truthy].
    now rewrite Hv.
  - intros cookie h Hcookie Hnone Hh Hs.
    rewrite (authenticateToken_cases _ _ _ _ Hcookie). unfold presented, bearer.
    now rewrite Hnone, Hh, (split_spaceless h Hs).
  - intros cookie scheme rest Hcookie Hnone Hh Hs.
    rewrite (authenticateToken_cases _ _ _ _ Hcookie). unfold presented, bearer.
    rewrite Hnone, Hh.
    change (scheme +:+ "  " +:+ rest)
      with (scheme +:+ String " " (String " " rest)).
    rewrite (split_field scheme _ Hs). reflexivity.
Qed.

Lemma token_selection_witness :
  authenticateToken no_cookie (knows "abc" {| id := 3; role := "user" |})
    (authorized "Basic abc")
  = (with_user (authorized "Basic abc") {| id := 3; role := "user" |}, (Next, []))
  ∧ authenticateToken no_cookie (knows "abc" {| id := 3; role := "user" |})
      (authorized "abc")
    = (authorized "abc", (access_denied "No token provided", [])).
Proof.
  destruct (token_selection no_cookie (knows "abc" {| id := 3; role := "user" |})
              (authorized "Basic abc")) as (_ & H1 & _).
  destruct (token_selection no_cookie (knows "abc" {| id := 3; role := "user" |})
              (authorized "abc")) as (_ & _ & H2 & _).
  split.
  - apply (H1 None "Basic" "abc"); try reflexivity. discriminate.
  - apply (H2 None "abc"); reflexivity.
Defined.

(** X24.  After [authenticateToken] has passed, no guard answers 401:
    the request that the next stage sees carries an identity. *)
Theorem authenticated_requests_pass_the_401
    (cookies_get : Request → string → completion (option string))
    (verify : string → completion (option Identity)) (req : Request)
    (p : string) (ps rs : list string) (idParam : string) (guard : Middleware) :
  fst (snd (authenticateToken cookies_get verify req)) = Next →
  In guard (guards p ps rs idParam) →
  fst (guard (fst (authenticateToken cookies_get verify req)))
  ≠ authentication_required.
Proof.
  intros Hnext Hin.
  destruct (authenticateToken_outcomes cookies_get verify req) as (_ & H & _).
  destruct (H Hnext) as (t & u & _ & _ & ->).
  unfold guards in Hin. simpl in Hin.
  destruct Hin as [<-|[<-|[<-|[<-|[<-|[<-|[]]]]]]].
  - unfold requireRole. cbn [user with_user].
    destruct (includes _ _); discriminate.
  - unfold requirePermission. cbn [user with_user].
    destruct (hasPermission _ _) as [[|]|]; discriminate.
  - unfold requireAnyPermission. cbn [user with_user].
    destruct (hasAnyPermission _ _) as [[|]|]; discriminate.
  - unfold requireAllPermissions. cbn [user with_user].
    destruct (hasAllPermissions _ _) as [[|]|]; discriminate.
  - unfold requireOwnership. cbn [user with_user].
    destruct (is_admin _); [discriminate|].
    destruct (strict_ne _ _); discriminate.
  - unfold requireOwnershipOrPermission. cbn [user with_user].
    destruct (hasPermission _ _) as [[|]|]; try discriminate.
    destruct (strict_eq _ _); discriminate.
Qed.

Lemma authenticated_requests_pass_the_401_witness :
  fst (requirePermission "users:delete:any"
         (fst (authenticateToken no_cookie
                 (knows "abc" {| id := 3; role := "user" |})
                 (authorized "Bearer abc"))))
  ≠ authentication_required.
Proof.
  apply (authenticated_requests_pass_the_401 no_cookie
           (knows "abc" {| id := 3; role := "user" |}) (authorized "Bearer abc")
           "users:delete:any" [] [] "id"); [reflexivity|].
  unfold guards. simpl. tauto.
Defined.

(** ** The key of the rate limiter *)

Section KeyFacts.

Implicit Types (req : Request) (a b u s : string) (c : ascii).

Lemma keyGenerator_parts req :
  keyGenerator req = origin req +:+ ":" +:+ subject req.
Proof. reflexivity. Qed.

Lemma all_chars_weaken (p q : ascii → bool) s :
  (∀ c, p c = true → q c = true) → all_chars p s = true → all_chars q s = true.
Proof.
  intros H. induction s as [|c s IH]; simpl; [reflexivity|].
  intros Hs. apply andb_true_iff in Hs as [Hc Hs]. now rewrite (H c Hc), IH.
Qed.

Lemma digit_or_dash_not_colon c : digit_or_dash c = true → not_colon c = true.
Proof. ascii_cases c. Qed.

Lemma subject_colon_free req : all_chars not_colon (subject req) = true.
Proof.
  unfold subject. destruct (user req) as [u0|]; [|reflexivity].
  destruct (id u0 =? 0)%Z; [reflexivity|].
  apply (all_chars_weaken digit_or_dash); [apply digit_or_dash_not_colon|].
  apply decimal_digits.
Qed.

Lemma split_last_none u :
  all_chars not_colon u = true → Reference.split_last ":" u = None.
Proof.
  induction u as [|c u IH]; simpl; [reflexivity|].
  intros H. apply andb_true_iff in H as [Hc Hu]. rewrite (IH Hu).
  unfold not_colon in Hc. apply negb_true_iff in Hc. now rewrite Hc.
Qed.

Lemma split_last_key a u :
  all_chars not_colon u = true →
  Reference.split_last ":" (a +:+ String ":" u) = Some (a, u).
Proof.
  intros Hu. induction a as [|c a IH]; simpl.
  - now rewrite (split_last_none u Hu).
  - now rewrite IH.
Qed.

Lemma decimal_not_anonymous (z : Z) : decimal z ≠ "anonymous".
Proof.
  intros H. pose proof (decimal_digits z) as Hd. rewrite H in Hd. discriminate.
Qed.

End KeyFacts.

(** X25.  The key of the rate limiter tells the clients apart: two
    requests with the same key have the same origin and the same
    subject, even when the origin itself contains colons, and two
    identities with ids other than 0 under the same key are the same
    id. *)
Theorem rate_limit_key_separates (req req' : Request) :
  keyGenerator req = keyGenerator req' →
  (origin req = origin req' ∧ subject req = subject req')
  ∧ (∀ u u', user req = Some u → user req' = Some u' →
       id u ≠ 0%Z → id u' ≠ 0%Z → id u = id u').
Proof.
  intros H. rewrite !keyGenerator_parts in H.
  change (origin req +:+ ":" +:+ subject req)
    with (origin req +:+ String ":" (subject req)) in H.
  change (origin req' +:+ ":" +:+ subject req')
    with (origin req' +:+ String ":" (subject req')) in H.
  apply (f_equal (Reference.split_last ":")) in H.
  rewrite !split_last_key in H by apply subject_colon_free.
  injection H as Ho Hs. split; [now split|].
  intros u u' Hu Hu' H0 H0'. unfold subject in Hs. rewrite Hu, Hu' in Hs.
  rewrite (proj2 (Z.eqb_neq _ _) H0), (proj2 (Z.eqb_neq _ _) H0') in Hs.
  now apply (inj pretty) in Hs.
Qed.

Lemma rate_limit_key_separates_witness :
  origin (request_of (Some {| id := 12; role := "user" |}) [])
  = origin (request_of (Some {| id := 12; role := "admin" |}) [("id", VStr "1")]).
Proof.
  apply (rate_limit_key_separates
           (request_of (Some {| id := 12; role := "user" |}) [])
           (request_of (Some {| id := 12; role := "admin" |}) [("id", VStr "1")])).
  reflexivity.
Defined.

(** X26.  An identity with the id 0 is counted with the anonymous
    requests of its origin: the subject of a key is anonymous exactly
    when the request carries no identity or one whose id is 0. *)
Theorem id_zero_is_anonymous (req : Request) :
  (subject req = "anonymous"
   ↔ user req = None ∨ ∃ u, user req = Some u ∧ id u = 0%Z)
  ∧ (∀ req', origin req' = origin req → subject req = "anonymous" →
       user req' = None → keyGenerator req' = keyGenerator req).
Proof.
  split.
  - unfold subject. destruct (user req) as [u|]; [|tauto].
    destruct (Z.eqb_spec (id u) 0) as [H0|H0].
    + split; [eauto | reflexivity].
    + split.
      * intros H. now apply decimal_not_anonymous in H.
      * intros [H|(u' & [= <-] & H)]; [discriminate | contradiction].
  - intros req' Ho Hs Hu. rewrite !keyGenerator_parts, Ho, Hs.
    unfold subject. now rewrite Hu.
Qed.

Lemma id_zero_is_anonymous_witness :
  keyGenerator (request_of None [])
  = keyGenerator (request_of (Some {| id := 0; role := "admin" |}) []).
Proof.
  apply (id_zero_is_anonymous
           (request_of (Some {| id := 0; role := "admin" |}) []));
    reflexivity.
Defined.

(** ** The security headers *)

Section HeaderFacts.

Implicit Types (res : gmap string string) (req : Request) (name : string).

Lemma securityHeaders_lookup res req name :
  fst (securityHeaders res req) !! name
  = match own [ ("content-security-policy", content_security_policy);
                ("x-content-type-options", "nosniff");
                ("x-frame-options", "DENY");
                ("x-xss-protection", "1; mode=block");
                ("referrer-policy", "strict-origin-when-cross-origin");
                ("permissions-policy", "camera=(), microphone=(), geolocation=()") ]
              name with
    | Some v => Some v
    | None => res !! name
    end.
Proof.
  unfold securityHeaders, setHeader. cbn [fst own].
  change (toLowerCase "Content-Security-Policy") with "content-security-policy".
  change (toLowerCase "X-Content-Type-Options") with "x-content-type-options".
  change (toLowerCase "X-Frame-Options") with "x-frame-options".
  change (toLowerCase "X-XSS-Protection") with "x-xss-protection".
  change (toLowerCase "Referrer-Policy") with "referrer-policy".
  change (toLowerCase "Permissions-Policy") with "permissions-policy".
  repeat match goal with
         | |- context [String.eqb ?k name] =>
             destruct (String.eqb_spec k name) as [<-|?]
         end;
    cbn;
    repeat first [ rewrite lookup_insert_eq; reflexivity
                 | rewrite lookup_insert_ne by first [assumption | discriminate] ];
    reflexivity.
Qed.

End HeaderFacts.

(** X27.  [securityHeaders] always calls the next stage, gives the six
    fields their fixed values whatever the response held under these
    names, touches no other field, does not depend on the request, and
    does nothing more when it runs again. *)
Theorem security_headers_are_fixed (res : gmap string string) (req : Request) :
  snd (securityHeaders res req) = (Next, [])
  ∧ (∀ name, In name security_header_names →
       fst (securityHeaders res req) !! name
       = fst (securityHeaders ∅ req) !! name
       ∧ is_Some (fst (securityHeaders res req) !! name))
  ∧ (∀ name, ¬ In name security_header_names →
       fst (securityHeaders res req) !! name = res !! name)
  ∧ (∀ req', fst (securityHeaders (fst (securityHeaders res req)) req')
             = fst (securityHeaders res req))
  ∧ (∀ v, fst (securityHeaders (setHeader "X-Frame-Options" v res) req)
          = fst (securityHeaders res req)).
Proof.
  split; [reflexivity|]. split; [|split; [|split]].
  - intros name Hin. rewrite !securityHeaders_lookup.
    simpl in Hin.
    repeat (destruct Hin as [<-|Hin]; [split; [reflexivity | eauto]|]).
    contradiction.
  - intros name Hn. rewrite securityHeaders_lookup.
    simpl in Hn. cbn [own].
    repeat match goal with
           | |- context [String.eqb ?k name] =>
               destruct (String.eqb_spec k name) as [<-|?]; [exfalso; tauto|]
           end.
    reflexivity.
  - intros req'. apply map_eq. intros name.
    rewrite securityHeaders_lookup. rewrite securityHeaders_lookup.
    now destruct (own _ name).
  - intros v. apply map_eq. intros name. rewrite !securityHeaders_lookup.
    destruct (own _ name) eqn:E; [reflexivity|].
    unfold setHeader. apply lookup_insert_ne.
    intros <-. discriminate.
Qed.

Lemma security_headers_are_fixed_witness :
  fst (securityHeaders {[ "x-frame-options" := "SAMEORIGIN"; "etag" := "abc" ]}
         (post VNull)) !! "x-frame-options"
  = fst (securityHeaders ∅ (post VNull)) !! "x-frame-options"
  ∧ fst (securityHeaders {[ "x-frame-options" := "SAMEORIGIN"; "etag" := "abc" ]}
           (post VNull)) !! "etag"
    = ({[ "x-frame-options" := "SAMEORIGIN"; "etag" := "abc" ]}
         : gmap string string) !! "etag".
Proof.
  destruct (security_headers_are_fixed
              {[ "x-frame-options" := "SAMEORIGIN"; "etag" := "abc" ]}
              (post VNull)) as (_ & H1 & H2 & _).
  split.
  - apply H1. unfold security_header_names. simpl. tauto.
  - apply H2. unfold security_header_names. simpl. intuition discriminate.
Defined.
